(** * moviebot: the control plane of the playback service

    A shallow embedding of [core/utils/filelock.py], [core/queue.py],
    [core/player.py], [core/controller.py] and [core/main.py], and the
    properties of the queue store, the playback engine, the control loop and
    the supervisor that hold of them.

    Python code that reads and writes the shared documents is written in a
    state-and-exception monad over a [world] that holds the three documents,
    the trace of file-system and lock events, and the log. *)

From stdpp Require Import gmap strings list fin_maps pretty.

Open Scope string_scope.
Open Scope list_scope.

(** ** JSON values and queue entries *)

(** The scalar values stored in a queue entry ([Dict[str, Any]] whose
    values are the strings and integers of [_generate_entry], or null). *)
Inductive value :=
  | VNone
  | VInt (n : Z)
  | VStr (s : string).

#[global] Instance value_eq_dec : EqDecision value.
Proof. solve_decision. Defined.

(** Python truthiness of a value ([if not x]). *)
Definition truthy (v : value) : bool :=
  match v with
  | VNone => false
  | VInt n => negb (n =? 0)%Z
  | VStr s => negb (String.eqb s EmptyString)
  end.

(** [d.get(k)]: the value at [k], [None] when the key is absent. *)
Definition dict_get (d : gmap string value) (k : string) : value :=
  default VNone (d !! k).

(** [d.get(k, dflt)]. *)
Definition dict_get_default (d : gmap string value) (k : string) (dflt : value) : value :=
  default dflt (d !! k).

(** ** Documents, events and the world *)

(** Why [json.load] fails on a file before any JSON text is parsed: the
    bytes read are not UTF-8 ([UnicodeDecodeError]), or the text nests deeper
    than the interpreter recurses ([RecursionError]). *)
Inductive unreadable := NotUtf8 | TooDeep.

(** What [json.load] makes of a file: it raises [JSONDecodeError] on
    [Unparseable] text, returns [d] on [Json d], and raises the error of
    [u] on [Unreadable u].  A file that was just truncated holds the empty
    text. *)
Inductive content (A : Type) :=
  | Unparseable (raw : string)
  | Json (d : A)
  | Unreadable (u : unreadable).
Arguments Unparseable {A} raw.
Arguments Json {A} d.
Arguments Unreadable {A} u.

Inductive path := PLAYLIST | NOW_PLAYING | CONTROL.

#[global] Instance path_eq_dec : EqDecision path.
Proof. solve_decision. Defined.

Inductive mode := ModeR | ModeW.

(** ["w" in mode or "a" in mode] *)
Definition is_write (m : mode) : bool :=
  match m with ModeW => true | ModeR => false end.

Inductive event :=
  | EvTouch (p : path)
  | EvTruncate (p : path)
  | EvLock (p : path)
  | EvUnlock (p : path)
  | EvRead (p : path)
  | EvWrite (p : path)
  (* the emitter: [subprocess.Popen] of ffmpeg on a file, and [terminate] *)
  | EvLaunch (file : string)
  | EvTerminate.

#[global] Instance event_eq_dec : EqDecision event.
Proof. solve_decision. Defined.

Inductive level := DEBUG | INFO | WARNING | ERROR | CRITICAL.

#[global] Instance level_eq_dec : EqDecision level.
Proof. solve_decision. Defined.

Inductive exn :=
  | JSONDecodeError
  | KeyError (k : string)
  | TypeError
  | ValueError
  | FileNotFoundError
  | TimeoutError
  | UnicodeDecodeError
  | RecursionError.

Definition load_error (u : unreadable) : exn :=
  match u with
  | NotUtf8 => UnicodeDecodeError
  | TooDeep => RecursionError
  end.

(** The pending command of one kind in [control.json]. *)
Record payload := Payload { p_id : option string; p_user : option string }.

Record world := World {
  playlist_json : option (content (list (gmap string value)));
  now_playing_txt : option (content (gmap string value));
  control_json : option (content (list (string * payload)));
  (* the lock of a path is held by another process for longer than the
     timeout of [locked_file] *)
  contended : path -> bool;
  trace : list event;
  logged : list (level * string)
}.

Definition set_playlist_json (c : option (content (list (gmap string value)))) (w : world) : world :=
  World c (now_playing_txt w) (control_json w) (contended w) (trace w) (logged w).
Definition set_now_playing_txt (c : option (content (gmap string value))) (w : world) : world :=
  World (playlist_json w) c (control_json w) (contended w) (trace w) (logged w).
Definition set_control_json (c : option (content (list (string * payload)))) (w : world) : world :=
  World (playlist_json w) (now_playing_txt w) c (contended w) (trace w) (logged w).
Definition add_event (e : event) (w : world) : world :=
  World (playlist_json w) (now_playing_txt w) (control_json w) (contended w)
        (trace w ++ [e]) (logged w).
Definition add_log (l : level) (msg : string) (w : world) : world :=
  World (playlist_json w) (now_playing_txt w) (control_json w) (contended w)
        (trace w) (logged w ++ [(l, msg)]).

(** A typed handle on one of the three documents. *)
Record fileref (A : Type) := FileRef {
  fpath : path;
  fget : world -> option (content A);
  fset : option (content A) -> world -> world
}.
Arguments FileRef {A} fpath fget fset.
Arguments fpath {A} f.
Arguments fget {A} f w.
Arguments fset {A} f c w.

Definition PLAYLIST_PATH : fileref (list (gmap string value)) :=
  FileRef PLAYLIST playlist_json set_playlist_json.
Definition NOW_PLAYING_PATH : fileref (gmap string value) :=
  FileRef NOW_PLAYING now_playing_txt set_now_playing_txt.
Definition CONTROL_FILE : fileref (list (string * payload)) :=
  FileRef CONTROL control_json set_control_json.

(** ** The monad of the code: state and exceptions *)

Inductive outcome (A : Type) :=
  | Ok (a : A)
  | Raise (e : exn).
Arguments Ok {A} a.
Arguments Raise {A} e.

(** [St S A]: a computation over a state [S] that returns an [A] or raises.
    The state reached when an exception is raised is kept, as Python keeps
    the side effects made before a [raise]. *)
Definition St (S A : Type) : Type := S -> outcome A * S.

Definition ret {S A} (a : A) : St S A := fun s => (Ok a, s).
Definition raise {S A} (e : exn) : St S A := fun s => (Raise e, s).
Definition bind {S A B} (m : St S A) (f : A -> St S B) : St S B :=
  fun s => match m s with
           | (Ok a, s') => f a s'
           | (Raise e, s') => (Raise e, s')
           end.

#[global] Instance St_ret {S} : MRet (St S) := fun A => @ret S A.
#[global] Instance St_bind {S} : MBind (St S) := fun A B f m => bind m f.

(** [try: m except Exception as e: h e] *)
Definition try_except {S A} (m : St S A) (h : exn -> St S A) : St S A :=
  fun s => match m s with
           | (Ok a, s') => (Ok a, s')
           | (Raise e, s') => h e s'
           end.

(** [try: m finally: fin] *)
Definition try_finally {S A} (m : St S A) (fin : St S unit) : St S A :=
  fun s => match m s with
           | (Ok a, s') => match fin s' with
                           | (Ok _, s'') => (Ok a, s'')
                           | (Raise e, s'') => (Raise e, s'')
                           end
           | (Raise e, s') => match fin s' with
                              | (Ok _, s'') => (Raise e, s'')
                              | (Raise e', s'') => (Raise e', s'')
                              end
           end.

(** The code of [filelock.py], [queue.py] and [player.py] runs over the
    [world]. *)
Abbreviation M := (St world).

(** Lift a pure computation that may raise. *)
Definition lift {S A} (o : outcome A) : St S A := fun s => (o, s).

Definition emit (e : event) : M unit := fun w => (Ok tt, add_event e w).
Definition log (l : level) (msg : string) : M unit := fun w => (Ok tt, add_log l msg w).

(** [d[k]]: raises [KeyError] when the key is absent. *)
Definition getitem (d : gmap string value) (k : string) : outcome value :=
  match d !! k with
  | Some v => Ok v
  | None => Raise (KeyError k)
  end.

(** ** core/utils/filelock.py *)

Definition path_exists {A} (f : fileref A) : M bool :=
  fun w => (Ok (match fget f w with Some _ => true | None => false end), w).

(** [path.touch()] *)
Definition touch {A} (f : fileref A) : M unit :=
  fun w => (Ok tt, add_event (EvTouch (fpath f))
                     (match fget f w with
                      | None => fset f (Some (Unparseable EmptyString)) w
                      | Some _ => w
                      end)).

(** [open(path, mode)]: ["r"] raises on a missing file, ["w"] creates the
    file or truncates it, before any lock is taken. *)
Definition open_file {A} (f : fileref A) (m : mode) : M unit :=
  match m with
  | ModeR => fun w => match fget f w with
                      | None => (Raise FileNotFoundError, w)
                      | Some _ => (Ok tt, w)
                      end
  | ModeW => fun w => (Ok tt, add_event (EvTruncate (fpath f))
                                (fset f (Some (Unparseable EmptyString)) w))
  end.

(** [json.load(f)] *)
Definition json_load {A} (f : fileref A) : M A :=
  fun w => match fget f w with
           | Some (Json d) => (Ok d, add_event (EvRead (fpath f)) w)
           | Some (Unreadable u) => (Raise (load_error u), add_event (EvRead (fpath f)) w)
           | _ => (Raise JSONDecodeError, add_event (EvRead (fpath f)) w)
           end.

(** [json.dump(data, f)] followed by flush and fsync. *)
Definition json_dump {A} (f : fileref A) (data : A) : M unit :=
  fun w => (Ok tt, add_event (EvWrite (fpath f)) (fset f (Some (Json data)) w)).

(** The [flock] retry loop of [locked_file] gives up after the timeout
    exactly when another process keeps the lock for that long. *)
Definition is_contended {A} (f : fileref A) : M bool :=
  fun w => (Ok (contended w (fpath f)), w).

(** [with locked_file(path, mode) as f: body] *)
Definition locked_file {A B} (f : fileref A) (m : mode) (body : M B) : M B :=
  ex ← path_exists f;
  (if negb ex && is_write m
   then touch f;; log DEBUG "Created missing file"
   else ret tt);;
  open_file f m;;
  busy ← is_contended f;
  if (busy : bool)
  then log ERROR "Timeout: lock not acquired";; raise TimeoutError
  else emit (EvLock (fpath f));;
       log DEBUG "Lock acquired";;
       try_finally body (emit (EvUnlock (fpath f));; log DEBUG "Lock released").

(** Modelled from the spec: [read_locked_json], imported by [queue.py] and
    [controller.py] from [filelock.py] but not defined there.  A read of a
    document is lock-guarded (sections 4.1 and 4.2); as in the docstring of
    [locked_file] and as the counterpart of [write_locked_json], it takes the
    lock on the file opened for reading and returns [json.load] of it, whose
    exception on a malformed document it lets through. *)
Definition read_locked_json {A} (f : fileref A) : M A :=
  locked_file f ModeR (json_load f).

Definition write_locked_json {A} (f : fileref A) (data : A) : M unit :=
  try_except
    (locked_file f ModeW (json_dump f data);;
     log INFO "JSON written safely")
    (fun e => log ERROR "Failed to write JSON";; raise e).

(** ** core/queue.py *)

(** [uid] and [now] are the values drawn from [uuid.uuid4()] and
    [time.time()]. *)
Definition _generate_entry (title filepath : string) (duration : Z)
    (source added_by : string) (uid : string) (now : Z) : gmap string value :=
  {[ "id" := VStr uid;
     "title" := VStr title;
     "filepath" := VStr filepath;
     "duration" := VInt duration;
     "type" := VStr source;
     "added_by" := VStr added_by;
     "timestamp" := VInt now ]}.

Definition load_playlist : M (list (gmap string value)) :=
  ex ← path_exists PLAYLIST_PATH;
  if negb ex then ret []
  else try_except (read_locked_json PLAYLIST_PATH)
         (fun e => log ERROR "Failed to load playlist";; ret []).

Definition save_playlist (data : list (gmap string value)) : M unit :=
  try_except
    (write_locked_json PLAYLIST_PATH data;;
     log DEBUG "Playlist saved successfully.")
    (fun e => log ERROR "Failed to save playlist").

Definition add_to_queue (title filepath : string) (duration : Z)
    (source added_by : string) (uid : string) (now : Z) : M (gmap string value) :=
  queue ← load_playlist;
  let new_entry := _generate_entry title filepath duration source added_by uid now in
  save_playlist (queue ++ [new_entry]);;
  log INFO "Added to queue";;
  ret new_entry.

Definition get_queue : M (list (gmap string value)) := load_playlist.

(** The index of the first entry whose ["id"] equals [entry_id]
    ([entry["id"] == entry_id] along [enumerate(queue)]). *)
Fixpoint find_id (entry_id : string) (queue : list (gmap string value)) (i : nat)
    : outcome (option nat) :=
  match queue with
  | [] => Ok None
  | entry :: rest =>
      match getitem entry "id" with
      | Raise e => Raise e
      | Ok v => if bool_decide (v = VStr entry_id) then Ok (Some i)
                else find_id entry_id rest (S i)
      end
  end.

Definition pin_next (entry_id : string) : M bool :=
  queue ← load_playlist;
  found ← lift (find_id entry_id queue 0);
  match found with
  | Some i =>
      match queue !! i with
      | Some pinned =>
          save_playlist (pinned :: delete i queue);;
          lift (getitem pinned "title");;
          log INFO "Pinned next";;
          ret true
      | None => ret false
      end
  | None => log WARNING "Failed to pin, ID not found";; ret false
  end.

(** [[q for q in queue if q["id"] != entry_id]] *)
Fixpoint without_id (entry_id : string) (queue : list (gmap string value))
    : outcome (list (gmap string value)) :=
  match queue with
  | [] => Ok []
  | q :: rest =>
      match getitem q "id" with
      | Raise e => Raise e
      | Ok v =>
          match without_id entry_id rest with
          | Raise e => Raise e
          | Ok rest' => if bool_decide (v = VStr entry_id) then Ok rest'
                        else Ok (q :: rest')
          end
      end
  end.

Definition remove_by_id (entry_id : string) : M bool :=
  queue ← load_playlist;
  new_queue ← lift (without_id entry_id queue);
  if (length new_queue <? length queue)%nat
  then save_playlist new_queue;;
       log INFO "Removed entry by ID";;
       ret true
  else log WARNING "Entry ID not found for removal";;
       ret false.

Definition clear_queue : M unit :=
  save_playlist [];;
  log WARNING "Playlist cleared manually by user.".

Definition get_next_item : M (option (gmap string value)) :=
  queue ← load_playlist;
  ret (head queue).

Definition remove_current : M (option (gmap string value)) :=
  queue ← load_playlist;
  match queue with
  | [] => ret None
  | removed :: rest =>
      save_playlist rest;;
      lift (getitem removed "title");;
      log INFO "Removed current item";;
      ret (Some removed)
  end.

Definition peek_current : M (option (gmap string value)) := get_next_item.

Definition is_empty : M bool :=
  queue ← load_playlist;
  ret (length queue =? 0)%nat.

(** [int(v)]; [int_of_str] is Python's [int] on strings. *)
Definition py_int (int_of_str : string -> option Z) (v : value) : outcome Z :=
  match v with
  | VInt n => Ok n
  | VStr s => match int_of_str s with Some n => Ok n | None => Raise ValueError end
  | VNone => Raise TypeError
  end.

Fixpoint sum_durations (int_of_str : string -> option Z)
    (queue : list (gmap string value)) : outcome Z :=
  match queue with
  | [] => Ok 0%Z
  | entry :: rest =>
      match py_int int_of_str (dict_get_default entry "duration" (VInt 0)) with
      | Raise e => Raise e
      | Ok d => match sum_durations int_of_str rest with
                | Raise e => Raise e
                | Ok t => Ok (d + t)%Z
                end
      end
  end.

Definition get_total_duration (int_of_str : string -> option Z) : M Z :=
  queue ← load_playlist;
  total ← lift (sum_durations int_of_str queue);
  log DEBUG "Total playlist duration";;
  ret total.

(** [now_playing.txt] is opened without the lock. *)
Definition set_now_playing (entry : gmap string value) (now : Z) : M unit :=
  try_except
    (open_file NOW_PLAYING_PATH ModeW;;
     json_dump NOW_PLAYING_PATH
       {[ "id" := dict_get entry "id";
          "filepath" := dict_get entry "filepath";
          "timestamp" := VInt now ]};;
     lift (getitem entry "title");;
     log DEBUG "Now playing set")
    (fun e => log ERROR "Failed to write now_playing.txt").

(** The first entry whose ["filepath"] equals [fp]. *)
Fixpoint find_filepath (fp : value) (queue : list (gmap string value))
    : outcome (option (gmap string value)) :=
  match queue with
  | [] => Ok None
  | entry :: rest =>
      match getitem entry "filepath" with
      | Raise e => Raise e
      | Ok v => if bool_decide (v = fp) then Ok (Some entry)
                else find_filepath fp rest
      end
  end.

(** [Path(v).stem]; [path_stem] is pathlib's [stem] on strings. *)
Definition stem_of (path_stem : string -> string) (v : value) : outcome string :=
  match v with
  | VStr s => Ok (path_stem s)
  | _ => Raise TypeError
  end.

Definition get_now_playing (path_stem : string -> string)
    : M (option (gmap string value)) :=
  ex ← path_exists NOW_PLAYING_PATH;
  if negb ex then ret None
  else
    try_except
      (open_file NOW_PLAYING_PATH ModeR;;
       now_data ← json_load NOW_PLAYING_PATH;
       queue ← load_playlist;
       found ← lift (find_filepath (dict_get now_data "filepath") queue);
       match found with
       | Some entry => ret (Some entry)
       | None =>
           title ← lift (stem_of path_stem
                           (dict_get_default now_data "filepath" (VStr EmptyString)));
           ret (Some ({[ "title" := VStr title;
                         "filepath" := dict_get now_data "filepath";
                         "duration" := VInt 0;
                         "type" := VStr "unknown";
                         "added_by" := VStr "unknown";
                         "timestamp" := dict_get_default now_data "timestamp" (VInt 0) ]}
                      : gmap string value))
       end)
      (fun e => log ERROR "Failed to parse now_playing.txt";; ret None).

(** The first entry with [entry.get("id") == entry_id]. *)
Definition get_by_id (entry_id : string) : M (option (gmap string value)) :=
  queue ← load_playlist;
  match List.find (fun entry => bool_decide (dict_get entry "id" = VStr entry_id)) queue with
  | Some entry => log DEBUG "Found entry by ID";; ret (Some entry)
  | None => log WARNING "Entry ID not found";; ret None
  end.

(** The loop of [update_entry]: [entry.update(new_data)] on the first entry
    whose ["id"] matches. *)
Fixpoint update_first (entry_id : string) (new_data : gmap string value)
    (queue : list (gmap string value)) : outcome (option (list (gmap string value))) :=
  match queue with
  | [] => Ok None
  | entry :: rest =>
      match getitem entry "id" with
      | Raise e => Raise e
      | Ok v =>
          if bool_decide (v = VStr entry_id) then Ok (Some ((new_data ∪ entry) :: rest))
          else match update_first entry_id new_data rest with
               | Raise e => Raise e
               | Ok r => Ok (cons entry <$> r)
               end
      end
  end.

Definition update_entry (entry_id : string) (new_data : gmap string value) : M bool :=
  queue ← load_playlist;
  r ← lift (update_first entry_id new_data queue);
  match r with
  | Some queue' => save_playlist queue';; log INFO "Updated entry ID";; ret true
  | None => log WARNING "Failed to update entry: ID not found";; ret false
  end.

(** ** core/player.py *)

(** Modelled from the spec: [FileLock], imported by [player.py] from
    [filelock.py] but not defined there.  By the spec's section 4.1 it is a
    scoped exclusive lock on a path that fails when the timeout expires and
    is released on every exit path. *)
Definition FileLock {B} (p : path) (body : M B) : M B :=
  busy ← (fun w => (Ok (contended w p), w));
  if (busy : bool) then raise TimeoutError
  else emit (EvLock p);;
       try_finally body (emit (EvUnlock p)).

Definition retry_limit : nat := 3.

(** [f.write(text)] of a text that is not a JSON document. *)
Definition write_text {A} (f : fileref A) (text : string) : M unit :=
  fun w => (Ok tt, add_event (EvWrite (fpath f)) (fset f (Some (Unparseable text)) w)).

(** [except json.JSONDecodeError:] *)
Definition on_JSONDecodeError {A} (h : M A) (e : exn) : M A :=
  match e with
  | JSONDecodeError => h
  | _ => raise e
  end.

(** The front entry and the rest are returned; nothing is written. *)
Definition get_next_video
    : M (option (gmap string value) * option (list (gmap string value))) :=
  FileLock PLAYLIST
    (ex ← path_exists PLAYLIST_PATH;
     if negb ex then ret (None, None)
     else
       try_except
         (open_file PLAYLIST_PATH ModeR;;
          data ← json_load PLAYLIST_PATH;
          match data with
          | [] => ret (None, Some [])
          | video :: rest => ret (Some video, Some rest)
          end)
         (on_JSONDecodeError
            (log ERROR "Playlist file is corrupted.";; ret (None, Some [])))).

Definition write_updated_playlist (updated : list (gmap string value)) : M unit :=
  FileLock PLAYLIST
    (open_file PLAYLIST_PATH ModeW;;
     json_dump PLAYLIST_PATH updated).

(** [f"{v}"] *)
Definition format_value (v : value) : string :=
  match v with
  | VNone => "None"
  | VInt n => pretty n
  | VStr s => s
  end.

(** The text [<path>|<unix-seconds>] written here ends in a digit and holds
    a [|]: it is no JSON document, and [json.load] raises on it. *)
Definition update_now_playing (metadata : gmap string value) (now : Z) : M unit :=
  FileLock NOW_PLAYING
    (open_file NOW_PLAYING_PATH ModeW;;
     fp ← lift (getitem metadata "file_path");
     write_text NOW_PLAYING_PATH (format_value fp +:+ "|" +:+ pretty now));;
  log INFO "Now playing".

Definition clear_now_playing : M unit :=
  FileLock NOW_PLAYING
    (open_file NOW_PLAYING_PATH ModeW;;
     write_text NOW_PLAYING_PATH EmptyString);;
  log INFO "Cleared now_playing.txt".

(** [subprocess.Popen]: whether the launch succeeds is the environment's. *)
Definition launch_ffmpeg (launch_ok : bool) (file_path : string) : M unit :=
  log INFO "Launching FFmpeg";;
  if launch_ok then emit (EvLaunch file_path) else raise FileNotFoundError.

Fixpoint assoc_get {V} (k : string) (d : list (string * V)) : option V :=
  match d with
  | [] => None
  | (k', v) :: rest => if String.eqb k k' then Some v else assoc_get k rest
  end.

(** Truthiness of a payload dict: empty dicts are falsy. *)
Definition payload_truthy (p : payload) : bool :=
  match p_id p, p_user p with
  | None, None => false
  | _, _ => true
  end.

Definition should_skip : M bool :=
  try_except
    (FileLock CONTROL
       (ex ← path_exists CONTROL_FILE;
        if negb ex then ret false
        else
          open_file CONTROL_FILE ModeR;;
          data ← json_load CONTROL_FILE;
          ret (match assoc_get "skip" data with
               | Some p => payload_truthy p
               | None => false
               end)))
    (fun e => log ERROR "Failed to read control file";; ret false).

Definition reset_controls : M unit :=
  try_except
    (FileLock CONTROL
       (open_file CONTROL_FILE ModeW;;
        json_dump CONTROL_FILE []);;
     log INFO "Reset control.json")
    (fun e => log ERROR "Reset control file failed").

(** [play_video] up to its streaming loop.  [media_exists] is
    [Path(...).exists()] on media files; the result tells whether the
    emitter is streaming ([false]: the entry was dropped). *)
Definition play_video_begin (media_exists : string -> bool) (launch_ok : bool)
    (video : gmap string value) (updated_playlist : list (gmap string value))
    (now : Z) : M bool :=
  let file_path := dict_get video "file_path" in
  missing ← lift (if negb (truthy file_path) then Ok true
                  else match file_path with
                       | VStr s => Ok (negb (media_exists s))
                       | _ => Raise TypeError
                       end);
  if (missing : bool)
  then log WARNING "File not found";;
       write_updated_playlist updated_playlist;;
       ret false
  else update_now_playing video now;;
       launch_ffmpeg launch_ok (format_value file_path);;
       lift (match dict_get_default video "duration" (VInt 0) with
             | VInt d => Ok (if (0 <? d)%Z then d else 3600%Z)
             | _ => Raise TypeError
             end);;
       log INFO "Streaming";;
       ret true.

(** One round of the streaming loop; [true] when the loop is left. *)
Definition stream_tick (alive : bool) : M bool :=
  skip ← should_skip;
  if (skip : bool)
  then log INFO "Skip command received";; reset_controls;; ret true
  else if negb alive
       then log WARNING "FFmpeg exited early";; ret true
       else ret false.

(** [play_video] after its streaming loop. *)
Definition play_video_end (alive : bool)
    (updated_playlist : list (gmap string value)) : M unit :=
  (if alive then emit EvTerminate;; log INFO "FFmpeg terminated" else ret tt);;
  clear_now_playing;;
  write_updated_playlist updated_playlist.

(** *** The playback engine as a transition system *)

Inductive phase :=
  | Idle
  | Loaded (video : gmap string value) (updated : list (gmap string value)) (retries : nat)
  | Streaming (video : gmap string value) (updated : list (gmap string value)) (retries : nat)
  | Crashed.

Inductive action :=
  (* the top of the loop of [play_loop]: [get_next_video] *)
  | Fetch
  (* one attempt of [play_video], up to its streaming loop *)
  | Begin (now : Z) (launch_ok : bool)
  (* one round of the streaming loop *)
  | Tick (alive : bool)
  (* the planned duration has elapsed *)
  | Finish (alive : bool)
  (* the retry ceiling is reached *)
  | GiveUp
  (* a producer appends an entry *)
  | Produce (title filepath : string) (duration : Z) (source added_by uid : string) (now : Z).

(** [except Exception: retries += 1], and the result of the attempt otherwise. *)
Definition attempt {A} (video : gmap string value) (updated : list (gmap string value))
    (retries : nat) (r : outcome A * world) (next : A -> phase) : phase * world :=
  match r with
  | (Ok a, w) => (next a, w)
  | (Raise _, w) => (Loaded video updated (S retries), add_log ERROR "Retry failed" w)
  end.

Definition engine_step (media_exists : string -> bool) (a : action)
    (st : phase * world) : option (phase * world) :=
  let '(ph, w) := st in
  match a, ph with
  | Fetch, Idle =>
      match get_next_video w with
      | (Ok (Some video, Some updated), w') =>
          if bool_decide (video = ∅) then Some (Idle, add_log INFO "Playlist empty. Sleeping 10s" w')
          else Some (Loaded video updated 0, w')
      | (Ok _, w') => Some (Idle, add_log INFO "Playlist empty. Sleeping 10s" w')
      | (Raise _, w') => Some (Crashed, w')
      end
  | Begin now launch_ok, Loaded video updated retries =>
      if (retries <? retry_limit)%nat
      then Some (attempt video updated retries
                   (play_video_begin media_exists launch_ok video updated now w)
                   (fun started => if (started : bool) then Streaming video updated retries else Idle))
      else None
  | Tick alive, Streaming video updated retries =>
      Some (attempt video updated retries
              ((leave ← stream_tick alive;
                if (leave : bool) then play_video_end alive updated;; ret true
                else ret false) w)
              (fun left => if (left : bool) then Idle else Streaming video updated retries))
  | Finish alive, Streaming video updated retries =>
      Some (attempt video updated retries (play_video_end alive updated w) (fun _ => Idle))
  | GiveUp, Loaded video updated retries =>
      if (retries <? retry_limit)%nat then None
      else match (clear_now_playing;; write_updated_playlist updated)
                   (add_log ERROR "Video failed after max retries. Skipping." w) with
           | (Ok _, w') => Some (Idle, w')
           | (Raise _, w') => Some (Crashed, w')
           end
  | Produce title filepath duration source added_by uid now, _ =>
      Some (ph, snd (add_to_queue title filepath duration source added_by uid now w))
  | _, _ => None
  end.

Fixpoint engine_run (media_exists : string -> bool) (acts : list action)
    (st : phase * world) : option (phase * world) :=
  match acts with
  | [] => Some st
  | a :: rest =>
      match engine_step media_exists a st with
      | Some st' => engine_run media_exists rest st'
      | None => None
      end
  end.

(** ** core/controller.py *)

Definition VALID_COMMANDS : list string := ["pause"; "resume"; "skip"; "stop"; "reload"].

(** The player driven by the control loop.  [controller.py] imports
    [FFmpegPlayer] from [core.player], which does not define it: its two
    operations are an interface here, over the player's own state and the
    shared documents. *)
Class FFmpegPlayer (P : Type) := {
  stop_stream : St (P * world) unit;
  run_once : St (P * world) unit
}.

Inductive player_call := StopStream | RunOnce.

#[global] Instance player_call_eq_dec : EqDecision player_call.
Proof. solve_decision. Defined.

Record ControlManager (P : Type) := Build_ControlManager {
  last_request_ids : gmap string string;
  player : P;
  paused : bool;
  running : bool;
  (* ghost: the (command, request id) pairs recorded in [last_request_ids],
     in the order of their recording *)
  applied : list (string * string);
  (* ghost: the calls made on the player *)
  calls : list player_call
}.
Arguments Build_ControlManager {P} _ _ _ _ _ _.
Arguments last_request_ids {P} c.
Arguments player {P} c.
Arguments paused {P} c.
Arguments running {P} c.
Arguments applied {P} c.
Arguments calls {P} c.

Section Controller.
Context {P : Type} `{FFmpegPlayer P}.

Definition set_paused (b : bool) : St (ControlManager P * world) unit :=
  fun '(cm, w) =>
    (Ok tt, (Build_ControlManager (last_request_ids cm) (player cm) b (running cm)
               (applied cm) (calls cm), w)).

Definition get_paused : St (ControlManager P * world) bool :=
  fun '(cm, w) => (Ok (paused cm), (cm, w)).

(** [self.last_request_ids[command] = request_id], and the ghost record
    of the pair.  Whether the handler then runs is read off the handler's
    own effects, not off this record. *)
Definition record_request (command request_id : string)
    : St (ControlManager P * world) unit :=
  fun '(cm, w) =>
    (Ok tt, (Build_ControlManager (<[command := request_id]> (last_request_ids cm))
               (player cm) (paused cm) (running cm)
               (applied cm ++ [(command, request_id)]) (calls cm), w)).

(** Code of [queue.py] run from the controller. *)
Definition in_world {A} (m : M A) : St (ControlManager P * world) A :=
  fun '(cm, w) => let '(r, w') := m w in (r, (cm, w')).

(** A call of an operation of [self.player]. *)
Definition call_player (c : player_call) : St (ControlManager P * world) unit :=
  fun '(cm, w) =>
    let '(r, (p', w')) :=
      (match c with StopStream => stop_stream | RunOnce => run_once end) (player cm, w) in
    (r, (Build_ControlManager (last_request_ids cm) p' (paused cm) (running cm)
           (applied cm) (calls cm ++ [c]), w')).

Definition _is_duplicate (command request_id : string)
    : St (ControlManager P * world) bool :=
  fun '(cm, w) =>
    (Ok (bool_decide (last_request_ids cm !! command = Some request_id)), (cm, w)).

Definition _handle_pause (user : string) (now : Z) : St (ControlManager P * world) unit :=
  p ← get_paused;
  if (p : bool) then in_world (log INFO "Already paused. Ignoring.")
  else in_world (log INFO "Playback paused");;
       set_paused true;;
       call_player StopStream.

Definition _handle_resume (user : string) (now : Z) : St (ControlManager P * world) unit :=
  p ← get_paused;
  if negb p then in_world (log INFO "Already playing. Ignoring resume.")
  else in_world (log INFO "Playback resumed");;
       set_paused false;;
       call_player RunOnce.

Definition _handle_skip (user : string) (now : Z) : St (ControlManager P * world) unit :=
  in_world (log INFO "Skip command issued");;
  set_paused false;;
  call_player StopStream;;
  next_video ← in_world get_next_item;
  match next_video with
  | Some video =>
      if bool_decide (video = ∅)
      then in_world (log WARNING "Queue is empty. No next video to play.")
      else in_world (log INFO "Next video queued");;
           in_world (set_now_playing video now);;
           call_player RunOnce
  | None => in_world (log WARNING "Queue is empty. No next video to play.")
  end.

Definition _handle_stop (user : string) (now : Z) : St (ControlManager P * world) unit :=
  in_world (log INFO "Playback stopped");;
  set_paused false;;
  call_player StopStream.

Definition _handle_reload (user : string) (now : Z) : St (ControlManager P * world) unit :=
  in_world (log INFO "Reloading configuration").

Definition command_handlers (command : string)
    : option (string -> Z -> St (ControlManager P * world) unit) :=
  if String.eqb command "pause" then Some _handle_pause
  else if String.eqb command "resume" then Some _handle_resume
  else if String.eqb command "skip" then Some _handle_skip
  else if String.eqb command "stop" then Some _handle_stop
  else if String.eqb command "reload" then Some _handle_reload
  else None.

Definition _apply_command (command user : string) (now : Z)
    : St (ControlManager P * world) unit :=
  match command_handlers command with
  | Some handler => handler user now
  | None => in_world (log ERROR "No handler for command")
  end.

(** The body of the loop over [command_data.items()]. *)
Definition process_command (now : Z) (command : string) (payload : payload)
    : St (ControlManager P * world) unit :=
  if negb (bool_decide (command ∈ VALID_COMMANDS))
  then in_world (log WARNING "Invalid command")
  else
    let user := default "Unknown" (p_user payload) in
    match p_id payload with
    | None => in_world (log WARNING "Missing request ID. Skipping.")
    | Some request_id =>
        if String.eqb request_id EmptyString
        then in_world (log WARNING "Missing request ID. Skipping.")
        else
          dup ← _is_duplicate command request_id;
          if (dup : bool) then in_world (log DEBUG "Duplicate command ignored")
          else in_world (log INFO "Received command");;
               record_request command request_id;;
               _apply_command command user now
    end.

Fixpoint process_commands (now : Z) (command_data : list (string * payload))
    : St (ControlManager P * world) unit :=
  match command_data with
  | [] => ret tt
  | (command, payload) :: rest =>
      process_command now command payload;;
      process_commands now rest
  end.

(** [now] is the clock read by the handlers of this poll.  The control
    document is typed as a dict of payload dicts, so the [isinstance] guard
    of the code always passes. *)
Definition _check_for_new_command (now : Z) : St (ControlManager P * world) unit :=
  ex ← in_world (path_exists CONTROL_FILE);
  if negb ex then ret tt
  else
    command_data ← in_world (read_locked_json CONTROL_FILE);
    process_commands now command_data.

(** One round of [_watch_loop]: an exception of the poll is logged and
    the loop goes on. *)
Definition watch_round (now : Z) : St (ControlManager P * world) unit :=
  try_except (_check_for_new_command now)
    (fun e => in_world (log ERROR "Exception in controller loop")).

End Controller.

(** Modelled from the spec: [FFmpegPlayer], which [controller.py] imports
    from [core.player] and instantiates, and which [player.py] does not
    define.  By sections 4.5 and 4.6 of the spec the control loop invokes the
    engine's state-transition operations.  Stopping the emitter: "emitter
    terminated, Now-Playing cleared".  Running the cycle once from Idle:
    "queue non-empty, pop front", then "emitter launched; Now-Playing set";
    on an empty queue nothing is begun.  The state of the player is its live
    emitter handle, here the entry that is streamed.  [pop_front], [set] and
    [clear] are the operations the code has for them ([remove_current],
    [set_now_playing], [clear_now_playing]); the emitter is launched on the
    entry's ["filepath"], and [now] is the clock read when Now-Playing is
    set. *)
Definition spec_stop_stream : St (option (gmap string value) * world) unit :=
  fun '(handle, w) =>
    match handle with
    | Some _ => let '(r, w') := (emit EvTerminate;; clear_now_playing) w in (r, (None, w'))
    | None => (Ok tt, (None, w))
    end.

Definition spec_run_once (now : Z) : St (option (gmap string value) * world) unit :=
  fun '(handle, w) =>
    match remove_current w with
    | (Ok (Some entry), w1) =>
        let '(r, w2) :=
          (emit (EvLaunch (format_value (dict_get entry "filepath")));;
           set_now_playing entry now) w1 in
        (r, (Some entry, w2))
    | (Ok None, w1) => (Ok tt, (handle, w1))
    | (Raise e, w1) => (Raise e, (handle, w1))
    end.

Definition spec_player (now : Z) : FFmpegPlayer (option (gmap string value)) :=
  {| stop_stream := spec_stop_stream; run_once := spec_run_once now |}.

(** ** core/main.py *)

Definition MAX_RESTART_ATTEMPTS : nat := 5.
Definition RESTART_BACKOFF : nat := 5.

(** What the supervisor does that can be observed: the threads it starts,
    its sleeps and its log lines. *)
Inductive sv_event :=
  | SvStarted (name : string)
  | SvAlreadyRunning (name : string)
  | SvNotAlive (name : string)
  | SvMaxReached (name : string)
  | SvAttempt (name : string) (attempt : nat)
  | SvSleep (seconds : nat)
  | SvNoSuchThread (name : string)
  | SvRestartFailed (name : string).

#[global] Instance sv_event_eq_dec : EqDecision sv_event.
Proof. solve_decision. Defined.

(** The global tables of [main.py].  [threads] maps a name to the liveness
    of its current thread object, in insertion order. *)
Record supervisor := Supervisor {
  threads : list (string * bool);
  thread_targets : gset string;
  restart_counters : gmap string nat;
  sv_log : list sv_event
}.

Definition sv_emit (e : sv_event) : St supervisor unit :=
  fun s => (Ok tt, Supervisor (threads s) (thread_targets s) (restart_counters s)
                     (sv_log s ++ [e])).

(** [d[k] = v] on an insertion-ordered dict. *)
Fixpoint assoc_set {V} (k : string) (v : V) (d : list (string * V)) : list (string * V) :=
  match d with
  | [] => [(k, v)]
  | (k', v') :: rest => if String.eqb k k' then (k, v) :: rest
                        else (k', v') :: assoc_set k v rest
  end.

Definition is_alive (name : string) (s : supervisor) : bool :=
  match assoc_get name (threads s) with
  | Some true => true
  | _ => false
  end.

Definition start_thread (name : string) : St supervisor unit :=
  fun s =>
    if is_alive name s then sv_emit (SvAlreadyRunning name) s
    else
      sv_emit (SvStarted name)
        (Supervisor (assoc_set name true (threads s))
                    ({[name]} ∪ thread_targets s)
                    (match restart_counters s !! name with
                     | Some _ => restart_counters s
                     | None => <[name := 0]> (restart_counters s)
                     end)
                    (sv_log s)).

(** [restart_counters[name] += 1] *)
Definition increment_counter (name : string) : St supervisor unit :=
  fun s =>
    match restart_counters s !! name with
    | Some c => (Ok tt, Supervisor (threads s) (thread_targets s)
                          (<[name := S c]> (restart_counters s)) (sv_log s))
    | None => (Raise (KeyError name), s)
    end.

(** [thread_targets[name]] *)
Definition target_of (name : string) : St supervisor unit :=
  fun s => if bool_decide (name ∈ thread_targets s) then (Ok tt, s)
           else (Raise (KeyError name), s).

(** The body of the [for] loop of [monitor] for one name of the snapshot. *)
Definition monitor_one (name : string) : St supervisor unit :=
  alive ← (fun s => (Ok (is_alive name s), s));
  if (alive : bool) then ret tt
  else
    sv_emit (SvNotAlive name);;
    attempts ← (fun s => (Ok (default 0 (restart_counters s !! name)), s));
    if (MAX_RESTART_ATTEMPTS <=? attempts)%nat
    then sv_emit (SvMaxReached name)
    else sv_emit (SvAttempt name (attempts + 1));;
         sv_emit (SvSleep RESTART_BACKOFF);;
         increment_counter name;;
         try_except (target_of name;; start_thread name)
           (fun e => sv_emit (SvRestartFailed name)).

Fixpoint monitor_names (names : list string) : St supervisor unit :=
  match names with
  | [] => ret tt
  | name :: rest => monitor_one name;; monitor_names rest
  end.

(** One round of the [while running] loop of [monitor]. *)
Definition monitor_round : St supervisor unit :=
  snapshot ← (fun s => (Ok (threads s), s));
  monitor_names (fst <$> snapshot);;
  sv_emit (SvSleep 3).

Definition manual_restart (name : string) : St supervisor unit :=
  known ← (fun s => (Ok (bool_decide (name ∈ thread_targets s)), s));
  if negb known then sv_emit (SvNoSuchThread name)
  else start_thread name.

(** The target of a worker returns or crashes: its thread is dead. *)
Definition worker_dies (name : string) : St supervisor unit :=
  fun s =>
    match assoc_get name (threads s) with
    | Some _ => (Ok tt, Supervisor (assoc_set name false (threads s)) (thread_targets s)
                          (restart_counters s) (sv_log s))
    | None => (Ok tt, s)
    end.

Inductive sv_action :=
  | AStart (name : string)
  | ADie (name : string)
  | AMonitor
  | AManualRestart (name : string).

Definition sv_step (a : sv_action) : St supervisor unit :=
  match a with
  | AStart name => start_thread name
  | ADie name => worker_dies name
  | AMonitor => monitor_round
  | AManualRestart name => manual_restart name
  end.

Fixpoint sv_run (acts : list sv_action) : St supervisor unit :=
  match acts with
  | [] => ret tt
  | a :: rest => sv_step a;; sv_run rest
  end.

Definition sv_init : supervisor := Supervisor [] ∅ ∅ [].

(** The restarts of [name] by the monitor recorded in a log. *)
Definition is_attempt_of (name : string) (e : sv_event) : bool :=
  match e with
  | SvAttempt name' _ => String.eqb name' name
  | _ => false
  end.

Definition monitor_restarts (name : string) (l : list sv_event) : nat :=
  length (List.filter (is_attempt_of name) l).

(** ** Vocabulary of the statements *)

(** The world [w] after the events [evs] and the log lines [lgs], its
    documents untouched. *)
Definition extend (evs : list event) (lgs : list (level * string)) (w : world) : world :=
  World (playlist_json w) (now_playing_txt w) (control_json w) (contended w)
        (trace w ++ evs) (logged w ++ lgs).

(** One hold of the lock of [playlist.json] for a read, and one for a
    write; the write is preceded by the truncation made by [open]. *)
Definition read_hold : list event :=
  [EvLock PLAYLIST; EvRead PLAYLIST; EvUnlock PLAYLIST].
Definition write_hold : list event :=
  [EvTruncate PLAYLIST; EvLock PLAYLIST; EvWrite PLAYLIST; EvUnlock PLAYLIST].

(** Events that change [playlist.json]. *)
Definition is_store_write (e : event) : bool :=
  match e with
  | EvWrite PLAYLIST | EvTruncate PLAYLIST | EvTouch PLAYLIST => true
  | _ => false
  end.

Definition no_store_write (evs : list event) : Prop :=
  forallb (fun e => negb (is_store_write e)) evs = true.

(** [entry_id] is not the id of [e]. *)
Definition other_id (entry_id : string) (e : gmap string value) : Prop :=
  ∃ v, e !! "id" = Some v ∧ v ≠ VStr entry_id.

(** The call that led from [w] to [w'] logged an error and left
    [playlist.json] alone. *)
Definition logs_fault (w w' : world) : Prop :=
  playlist_json w' = playlist_json w
  ∧ ∃ lgs msg, logged w' = logged w ++ lgs ∧ (ERROR, msg) ∈ lgs.

(** A mutator's use of the lock from [w] to [w']: one hold for the read
    and, when it writes, a second hold for the write. *)
Definition reads_then_writes (w w' : world) : Prop :=
  (trace w' = trace w ++ read_hold ∧ playlist_json w' = playlist_json w)
  ∨ (trace w' = trace w ++ read_hold ++ write_hold
     ∧ ∃ data, playlist_json w' = Some (Json data)).

(** [m] does not change the part [f] of the world. *)
Definition keeps {X A} (f : world → X) (m : M A) : Prop :=
  ∀ w r w', m w = (r, w') → f w' = f w.

(** No lock is held by another process for longer than the timeout. *)
Definition uncontended (w : world) : Prop := ∀ p, contended w p = false.

(** What the engine holds of the store while it works on an entry: the
    persisted document still starts with that entry, followed by the rest
    the engine read and by what producers appended since. *)
Definition store_holds_current (ph : phase) (w : world) : Prop :=
  match ph with
  | Loaded video updated _ | Streaming video updated _ =>
      ∃ extra, playlist_json w = Some (Json (video :: updated ++ extra))
  | Idle | Crashed => True
  end.

(** A store with one entry that the engine can play, and the world that
    holds it. *)
Definition sample_video : gmap string value :=
  {[ "id" := VStr "a"; "title" := VStr "A"; "file_path" := VStr "/movies/a.mp4";
     "duration" := VInt 2 ]}.

Definition sample_world : world :=
  World (Some (Json [sample_video])) None None (fun _ => false) [] [].

(** A paused controller over the player that returns at once, and a world
    whose control document carries one skip. *)
Definition sample_manager : ControlManager unit :=
  Build_ControlManager ∅ tt true true [] [].

Definition skip_world : world :=
  World (Some (Json [sample_video])) None
        (Some (Json [("skip", Payload (Some "r1") (Some "ada"))]))
        (fun _ => false) [] [].

(** The restart counter of a worker, as [restart_counters.get(name, 0)]. *)
Definition counter (name : string) (s : supervisor) : nat :=
  default 0 (restart_counters s !! name).

(** What holds at every state of the supervisor: the counter of a worker
    counts its restarts by the monitor and stays under the ceiling, and every
    thread has a counter and a target. *)
Definition sv_inv (s : supervisor) : Prop :=
  (∀ name, monitor_restarts name (sv_log s) = counter name s)
  ∧ (∀ name, (counter name s ≤ MAX_RESTART_ATTEMPTS)%nat)
  ∧ (∀ name, name ∈ (threads s).*1 →
       is_Some (restart_counters s !! name) ∧ name ∈ thread_targets s).

(** A worker that fails at once: it is started and dies, and each round of
    the monitor finds it dead again. *)
Definition failing_worker (rounds : nat) : list sv_action :=
  AStart "Player" :: ADie "Player"
  :: concat (replicate rounds [AMonitor; ADie "Player"]).

(** What holds at every state the engine reaches. *)
Definition engine_inv (st : phase * world) : Prop :=
  uncontended (snd st) ∧ store_holds_current (fst st) (snd st).

Definition is_lock_event (e : event) : bool :=
  match e with
  | EvLock _ | EvUnlock _ => true
  | _ => false
  end.

(** [evs] is one hold of the lock: it opens with the lock being taken,
    closes with its release, and the lock is neither released nor taken in
    between. *)
Definition within_one_hold (evs : list event) : bool :=
  match evs with
  | EvLock p :: rest =>
      match reverse rest with
      | EvUnlock p' :: inner =>
          bool_decide (p = p') && forallb (fun e => negb (is_lock_event e)) inner
      | _ => false
      end
  | _ => false
  end.

(** What a reader of [playlist.json] gets: the stored sequence when the
    document parses and the lock can be taken, the empty sequence
    otherwise. *)
Definition visible_queue (w : world) : list (gmap string value) :=
  match playlist_json w with
  | Some (Json q) => if contended w PLAYLIST then [] else q
  | _ => []
  end.

Inductive queue_op :=
  | QAppend (title filepath : string) (duration : Z) (source added_by uid : string) (now : Z)
  | QPop.

(** The entries a sequence of operations appends, in order. *)
Fixpoint appended (ops : list queue_op) : list (gmap string value) :=
  match ops with
  | [] => []
  | QAppend title filepath duration source added_by uid now :: rest =>
      _generate_entry title filepath duration source added_by uid now :: appended rest
  | QPop :: rest => appended rest
  end.

(** Runs the operations in order and returns what the [pop_front]s
    returned, in order. *)
Fixpoint queue_run (ops : list queue_op) : M (list (gmap string value)) :=
  match ops with
  | [] => ret []
  | QAppend title filepath duration source added_by uid now :: rest =>
      add_to_queue title filepath duration source added_by uid now;;
      queue_run rest
  | QPop :: rest =>
      r ← remove_current;
      popped ← queue_run rest;
      ret (match r with Some e => e :: popped | None => popped end)
  end.

(** The queue of the spec on sequences, to compare [queue_run] with:
    append puts the entry at the back, pop_front takes the entry at the
    front and returns none on the empty queue.  The result is what the pops
    returned, in order, and what is left. *)
Fixpoint fifo (ops : list queue_op) (q : list (gmap string value))
    : list (gmap string value) * list (gmap string value) :=
  match ops with
  | [] => ([], q)
  | QAppend title filepath duration source added_by uid now :: rest =>
      fifo rest (q ++ [_generate_entry title filepath duration source added_by uid now])
  | QPop :: rest =>
      match q with
      | [] => fifo rest []
      | e :: q' => let '(popped, remaining) := fifo rest q' in (e :: popped, remaining)
      end
  end.

(** The player with no emitter and no state: both operations return at
    once. *)
#[global] Instance null_player : FFmpegPlayer unit :=
  {| stop_stream := ret tt; run_once := ret tt |}.

(** A computation that returns normally from every state. *)
Definition total {S A} (m : St S A) : Prop :=
  ∀ s, ∃ a s', m s = (Ok a, s').

(** The control loop observes the documents [docs] on successive polls;
    as in [_watch_loop], an exception of a poll is logged and the loop goes
    on. *)
Fixpoint polls {P} `{FFmpegPlayer P} (now : Z) (docs : list (list (string * payload)))
    : St (ControlManager P * world) unit :=
  match docs with
  | [] => ret tt
  | d :: rest =>
      try_except (process_commands now d)
        (fun e => in_world (log ERROR "Exception in controller loop"));;
      polls now rest
  end.

(** The deduplication of the spec, on the memory of applied ids alone: a
    valid command with a request id is compared with the last id applied
    for its kind; equal is a duplicate and ignored, different is applied and
    recorded. *)
Definition dedup_step (ids : gmap string string * list (string * string))
    (item : string * payload) : gmap string string * list (string * string) :=
  let '(last, done) := ids in
  let '(command, pl) := item in
  if bool_decide (command ∈ VALID_COMMANDS) then
    match p_id pl with
    | Some request_id =>
        if String.eqb request_id EmptyString then ids
        else if bool_decide (last !! command = Some request_id) then ids
             else (<[command := request_id]> last, done ++ [(command, request_id)])
    | None => ids
    end
  else ids.

(** The world after the control loop has read [control.json]. *)
Definition after_read (w : world) : world :=
  extend [EvLock CONTROL; EvRead CONTROL; EvUnlock CONTROL]
         [(DEBUG, "Lock acquired"); (DEBUG, "Lock released")] w.

(** A poll observes the pair ([command], [request_id]) in the control
    document [d], a dict: its keys are distinct. *)
Definition observes (command request_id : string) (d : list (string * payload)) : Prop :=
  NoDup (d.*1) ∧ ∃ pl, (command, pl) ∈ d ∧ p_id pl = Some request_id.

(** The memory of applied ids of a controller state. *)
Definition ids_of {P} (s : ControlManager P * world)
    : gmap string string * list (string * string) :=
  (last_request_ids (fst s), applied (fst s)).

(** A computation of the controller that returns normally and leaves the
    memory of applied ids alone. *)
Definition steady {P A} (m : St (ControlManager P * world) A) : Prop :=
  ∀ s, ∃ a s', m s = (Ok a, s') ∧ ids_of s' = ids_of s.

(** How often the handler of [command] was applied for [request_id]. *)
Definition times_applied (command request_id : string) (l : list (string * string)) : nat :=
  length (List.filter (fun x => bool_decide (x = (command, request_id))) l).

(** ** core/controller.py: administration *)

(** [reset_state]: the memory of applied ids is cleared and the paused flag
    dropped. *)
Definition reset_state {P} : St (ControlManager P * world) unit :=
  fun '(cm, w) =>
    (Ok tt, (Build_ControlManager ∅ (player cm) false (running cm)
               (applied cm) (calls cm), w)).

(** [force_command]: the handler is applied without a request id. *)
Definition force_command {P} `{FFmpegPlayer P} (command : string) (now : Z)
    : St (ControlManager P * world) unit :=
  if bool_decide (command ∈ VALID_COMMANDS)
  then in_world (log WARNING "Forcibly applying command");;
       _apply_command command "System" now
  else in_world (log ERROR "Invalid forced command").

(** ** core/telegramcontrol.py *)

(** [WHITELIST_USERS] is a parameter; [str(user_id)] is looked up in it. *)
Definition is_authorized (whitelist : list string) (user_id : Z) : bool :=
  match whitelist with
  | [] => true
  | _ => bool_decide (pretty user_id ∈ whitelist)
  end.

(** [uid] is the value drawn from [uuid.uuid4()].  The document written
    holds this one command only. *)
Definition send_control_signal (command user uid : string) : M unit :=
  write_locked_json CONTROL_FILE [(command, Payload (Some uid) (Some user))];;
  log INFO "Control issued".

(** [username] is [user.username], which may be missing or empty; [reply]
    is what [update.message.reply_text] does, which is the network's. *)
Definition handle_control_command (whitelist : list string) (user_id : Z)
    (username : option string) (command uid : string) (reply : outcome unit) : M unit :=
  let name := match username with
              | Some n => if String.eqb n EmptyString then pretty user_id else n
              | None => pretty user_id
              end in
  if negb (is_authorized whitelist user_id)
  then log WARNING "Unauthorized access attempt";; lift reply
  else send_control_signal command name uid;; lift reply.

(** ** core/discordbot.py *)

Definition CONTROL_BUTTONS : list string := ["pause"; "resume"; "skip"; "stop"; "reload"].

(** What the Discord client does is the network's: looking the channel up
    ([None]: no such channel), purging it, sending the panel, and answering
    an interaction. *)
Record discord_env := DiscordEnv {
  get_channel : outcome (option unit);
  purge : outcome unit;
  send : outcome unit;
  send_message : outcome unit
}.

(** [build_control_embed]: the text of the embed is not kept, only what
    building it reads and whether it raises ([data['title']]). *)
Definition build_control_embed (path_stem : string -> string) : M unit :=
  data ← get_now_playing path_stem;
  match data with
  | None => ret tt
  | Some d => if bool_decide (d = ∅) then ret tt
              else lift (getitem d "title");; ret tt
  end.

Definition post_control_panel (path_stem : string -> string) (env : discord_env) : M unit :=
  try_except
    (channel ← lift (get_channel env);
     match channel with
     | None => log ERROR "Invalid Discord channel ID. Channel not found."
     | Some _ =>
         lift (purge env);;
         build_control_embed path_stem;;
         lift (send env);;
         log INFO "Posted control panel to Discord."
     end)
    (fun e => log ERROR "Could not post control panel").

(** [s.split(":")]; the colon is the character 58. *)
Fixpoint split_colon (s : string) : list string :=
  match s with
  | EmptyString => [EmptyString]
  | String c rest =>
      if Ascii.eqb c (Ascii.ascii_of_nat 58) then EmptyString :: split_colon rest
      else match split_colon rest with
           | h :: t => String c h :: t
           | [] => [String c EmptyString]
           end
  end.

(** [custom_id] is [interaction.data.get("custom_id")], [None] when there
    is no data or no such key; [user] is [interaction.user.name] and [uid]
    the value drawn from [uuid.uuid4()].  The document read is kept and the
    command's kind is set in it.  After the prefix test the split has a
    second field, so the branch without one is never taken. *)
Definition on_interaction (path_stem : string -> string) (env : discord_env)
    (custom_id : option string) (user uid : string) : M unit :=
  match custom_id with
  | None => ret tt
  | Some cid =>
      if String.eqb cid EmptyString || negb (String.prefix "moviebot:" cid) then ret tt
      else
        match split_colon cid !! 1%nat with
        | None => raise ValueError
        | Some command =>
            if negb (bool_decide (command ∈ CONTROL_BUTTONS))
            then lift (send_message env)
            else
              try_except
                (data ← read_locked_json CONTROL_FILE;
                 write_locked_json CONTROL_FILE
                   (assoc_set command (Payload (Some uid) (Some user)) data);;
                 log INFO "issued command";;
                 lift (send_message env);;
                 post_control_panel path_stem env)
                (fun e => log ERROR "Failed to process interaction";;
                          lift (send_message env))
        end
  end.

(** ** Vocabulary of the further properties *)

(** [e] carries the id [entry_id]. *)
Definition has_id (entry_id : string) (e : gmap string value) : Prop :=
  e !! "id" = Some (VStr entry_id).

#[global] Instance has_id_dec entry_id e : Decision (has_id entry_id e).
Proof. unfold has_id. apply _. Defined.

(** The duration of an entry as [get_total_duration] counts it, for an
    entry whose duration is an integer or missing. *)
Definition duration_of (e : gmap string value) : Z :=
  match e !! "duration" with
  | Some (VInt d) => d
  | _ => 0%Z
  end.

(** [e] has a ["filepath"] other than [fp]. *)
Definition other_filepath (fp : value) (e : gmap string value) : Prop :=
  ∃ v, e !! "filepath" = Some v ∧ v ≠ fp.


(** The launches of the emitter so far. *)
Definition is_launch (e : event) : bool :=
  match e with
  | EvLaunch _ => true
  | _ => false
  end.

Definition launches (w : world) : list event := List.filter is_launch (trace w).

(** [play_video] can stream the entry: its ["file_path"] names a media file
    that exists, and its ["duration"], when present, is a number. *)
Definition playable (media_exists : string -> bool) (video : gmap string value)
    (s : string) : Prop :=
  video !! "file_path" = Some (VStr s) ∧ s ≠ EmptyString ∧ media_exists s = true
  ∧ (video !! "duration" = None ∨ ∃ d, video !! "duration" = Some (VInt d)).

(** [play_video] has nothing to stream: no ["file_path"], an empty one, or
    one that names no file. *)
Definition unplayable (media_exists : string -> bool) (video : gmap string value) : Prop :=
  dict_get video "file_path" = VNone
  ∨ dict_get video "file_path" = VStr EmptyString
  ∨ ∃ s, dict_get video "file_path" = VStr s ∧ media_exists s = false.

(** A computation that writes no document: the world after it differs by
    events and log lines only. *)
Definition reads {A} (m : M A) : Prop :=
  ∀ w, ∃ r evs lgs, m w = (r, extend evs lgs w).

(** A computation that writes no document and returns normally. *)
Definition reads_ok {A} (m : M A) : Prop :=
  ∀ w, ∃ a evs lgs, m w = (Ok a, extend evs lgs w).

(** ** Vocabulary of the handler applications *)

(** The command whose handler wrote the log line [line]: every handler of
    [controller.py] starts, in each of its branches, by logging one line of
    its own. *)
Definition handler_of_line (line : level * string) : option string :=
  match line with
  | (INFO, msg) =>
      if String.eqb msg "Already paused. Ignoring." || String.eqb msg "Playback paused"
      then Some "pause"
      else if String.eqb msg "Already playing. Ignoring resume."
              || String.eqb msg "Playback resumed"
      then Some "resume"
      else if String.eqb msg "Skip command issued" then Some "skip"
      else if String.eqb msg "Playback stopped" then Some "stop"
      else if String.eqb msg "Reloading configuration" then Some "reload"
      else None
  | _ => None
  end.

(** How often the handler of [command] has run, read off the log. *)
Definition handler_runs (command : string) (lg : list (level * string)) : nat :=
  length (List.filter (fun line => bool_decide (handler_of_line line = Some command)) lg).

(** How many requests of the kind [command] passed the deduplication. *)
Definition kind_count (command : string) (l : list (string * string)) : nat :=
  length (List.filter (fun x => bool_decide (x.1 = command)) l).

(** An operation of a player that writes no line of a handler of the
    control loop into the log. *)
Definition no_handler_lines {P} (op : St (P * world) unit) : Prop :=
  ∀ command p w r p' w', op (p, w) = (r, (p', w')) →
    handler_runs command (logged w') = handler_runs command (logged w).

(** A computation of the controller that returns normally after the
    handler of [k] has run once in it, and no other handler ([None]: no
    handler at all). *)
Definition counts {P A} (k : option string) (m : St (ControlManager P * world) A) : Prop :=
  ∀ s, ∃ a s', m s = (Ok a, s')
    ∧ ∀ command, handler_runs command (logged s'.2)
                 = (handler_runs command (logged s.2)
                    + (if bool_decide (k = Some command) then 1 else 0))%nat.

(** * Properties *)

(** ** Running the code on a symbolic world *)

Ltac unfold_m :=
  unfold mbind, mret, St_bind, St_ret, bind, ret, raise, try_except, try_finally,
         on_JSONDecodeError, lift, emit, log, path_exists, touch, open_file,
         json_load, json_dump, write_text, is_contended, add_event, add_log, extend in *.

Ltac step_m H := repeat (progress (unfold_m; simpl; rewrite ?H)).

Ltac open_world w :=
  let pl := fresh "pl" in let np := fresh "np" in let ct := fresh "ct" in
  let busy := fresh "busy" in let tr := fresh "tr" in let lg := fresh "lg" in
  destruct w as [pl np ct busy tr lg]; simpl in *; subst.

Lemma extend_extend evs1 lgs1 evs2 lgs2 w :
  extend evs2 lgs2 (extend evs1 lgs1 w) = extend (evs1 ++ evs2) (lgs1 ++ lgs2) w.
Proof. unfold extend; simpl. by rewrite !app_assoc. Qed.

Lemma extend_nil w : extend [] [] w = w.
Proof. destruct w; unfold extend; simpl. by rewrite !app_nil_r. Qed.

(** ** The queue store: reads *)

Lemma load_playlist_absent w :
  playlist_json w = None → load_playlist w = (Ok [], w).
Proof.
  intros Hq. open_world w. unfold load_playlist. by step_m Hq.
Qed.

Lemma load_playlist_json w q :
  playlist_json w = Some (Json q) → contended w PLAYLIST = false →
  load_playlist w =
    (Ok q, extend read_hold [(DEBUG, "Lock acquired"); (DEBUG, "Lock released")] w).
Proof.
  intros Hq Hc. open_world w. unfold load_playlist, read_locked_json, locked_file.
  step_m Hc. by rewrite <- ?app_assoc.
Qed.

Lemma load_playlist_unparseable w raw :
  playlist_json w = Some (Unparseable raw) → contended w PLAYLIST = false →
  load_playlist w =
    (Ok [], extend read_hold
              [(DEBUG, "Lock acquired"); (DEBUG, "Lock released");
               (ERROR, "Failed to load playlist")] w).
Proof.
  intros Hq Hc. open_world w. unfold load_playlist, read_locked_json, locked_file.
  step_m Hc. by rewrite <- ?app_assoc.
Qed.

Lemma load_playlist_unreadable w u :
  playlist_json w = Some (Unreadable u) → contended w PLAYLIST = false →
  load_playlist w =
    (Ok [], extend read_hold
              [(DEBUG, "Lock acquired"); (DEBUG, "Lock released");
               (ERROR, "Failed to load playlist")] w).
Proof.
  intros Hq Hc. open_world w. unfold load_playlist, read_locked_json, locked_file.
  step_m Hc. by rewrite <- ?app_assoc.
Qed.

Lemma load_playlist_contended w c :
  playlist_json w = Some c → contended w PLAYLIST = true →
  load_playlist w =
    (Ok [], extend [] [(ERROR, "Timeout: lock not acquired");
                       (ERROR, "Failed to load playlist")] w).
Proof.
  intros Hq Hc. open_world w. unfold load_playlist, read_locked_json, locked_file.
  step_m Hc. by rewrite <- ?app_assoc, ?app_nil_r.
Qed.

(** A read never raises, never touches the documents, and returns the
    visible queue. *)
Lemma load_playlist_reads w :
  ∃ evs lgs, load_playlist w = (Ok (visible_queue w), extend evs lgs w)
             ∧ (evs = [] ∨ evs = read_hold).
Proof.
  unfold visible_queue.
  destruct (playlist_json w) as [[raw|q|u]|] eqn:Hq.
  - destruct (contended w PLAYLIST) eqn:Hc.
    + eexists _, _. split; [by eapply load_playlist_contended|by left].
    + eexists _, _. split; [by eapply load_playlist_unparseable|by right].
  - destruct (contended w PLAYLIST) eqn:Hc.
    + eexists _, _. split; [by eapply load_playlist_contended|by left].
    + eexists _, _. split; [by eapply load_playlist_json|by right].
  - destruct (contended w PLAYLIST) eqn:Hc.
    + eexists _, _. split; [by eapply load_playlist_contended|by left].
    + eexists _, _. split; [by eapply load_playlist_unreadable|by right].
  - exists [], []. rewrite extend_nil. split; [by apply load_playlist_absent|by left].
Qed.

(** ** The queue store: writes *)

Lemma save_playlist_ok w c data :
  playlist_json w = Some c → contended w PLAYLIST = false →
  save_playlist data w =
    (Ok tt, set_playlist_json (Some (Json data))
              (extend write_hold
                 [(DEBUG, "Lock acquired"); (DEBUG, "Lock released");
                  (INFO, "JSON written safely"); (DEBUG, "Playlist saved successfully.")] w)).
Proof.
  intros Hq Hc. open_world w. unfold save_playlist, write_locked_json, locked_file.
  step_m Hc. unfold set_playlist_json; simpl. by rewrite <- ?app_assoc.
Qed.

Lemma no_store_write_reads evs :
  evs = [] ∨ evs = read_hold → no_store_write evs.
Proof. by intros [-> | ->]. Qed.

(** C10: on an empty store [remove_current] (pop_front) returns none and
    writes nothing: the persisted document is what it was before the call
    and no event of the call changes [playlist.json]. *)
Theorem pop_front_empty_no_write w :
  playlist_json w = Some (Json []) →
  ∃ w', remove_current w = (Ok None, w')
        ∧ playlist_json w' = playlist_json w
        ∧ ∃ evs, trace w' = trace w ++ evs ∧ no_store_write evs.
Proof.
  intros Hq. destruct (load_playlist_reads w) as (evs & lgs & Hload & Hevs).
  assert (visible_queue w = []) as Hv.
  { unfold visible_queue. rewrite Hq. by destruct (contended w PLAYLIST). }
  rewrite Hv in Hload.
  exists (extend evs lgs w). split; [|split].
  - unfold remove_current. unfold_m. by rewrite Hload.
  - done.
  - exists evs. split; [done|]. by apply no_store_write_reads.
Qed.

(** The call on a world whose store is the empty list. *)
Lemma pop_front_empty_no_write_witness :
  ∃ w', remove_current (World (Some (Json [])) None None (fun _ => false) [] [])
          = (Ok None, w')
        ∧ playlist_json w' = Some (Json [])
        ∧ ∃ evs, trace w' = [] ++ evs ∧ no_store_write evs.
Proof.
  exact (pop_front_empty_no_write
           (World (Some (Json [])) None None (fun _ => false) [] []) eq_refl).
Defined.

(** ** remove *)

Lemma without_id_other entry_id q :
  Forall (other_id entry_id) q → without_id entry_id q = Ok q.
Proof.
  induction 1 as [|e q (v & Hv & Hne) _ IH]; [done|].
  simpl. unfold getitem. rewrite Hv, IH.
  by rewrite bool_decide_eq_false_2.
Qed.

(** C8: [remove_by_id] on an id that no entry of the store carries returns
    false and leaves the persisted store unchanged: the document is the
    same afterwards and no event of the call changes [playlist.json]. *)
Theorem remove_absent_id_unchanged w entry_id :
  (∀ q, playlist_json w = Some (Json q) → Forall (other_id entry_id) q) →
  ∃ w', remove_by_id entry_id w = (Ok false, w')
        ∧ playlist_json w' = playlist_json w
        ∧ ∃ evs, trace w' = trace w ++ evs ∧ no_store_write evs.
Proof.
  intros Hids. destruct (load_playlist_reads w) as (evs & lgs & Hload & Hevs).
  assert (Forall (other_id entry_id) (visible_queue w)) as Hv.
  { unfold visible_queue. destruct (playlist_json w) as [[raw|q|u]|]; try done.
    destruct (contended w PLAYLIST); [done|]. by apply Hids. }
  eexists. split; [|split].
  - unfold remove_by_id. unfold_m. rewrite Hload.
    rewrite (without_id_other _ _ Hv). rewrite Nat.ltb_irrefl. reflexivity.
  - done.
  - exists evs. simpl. split; [done|]. by apply no_store_write_reads.
Qed.

(** The removal of an id that the one entry of the store does not carry. *)
Lemma remove_absent_id_unchanged_witness :
  ∃ w', remove_by_id "zz"
          (World (Some (Json [_generate_entry "a" "/m/a.mp4" 2 "upload" "u" "id-a" 100]))
                 None None (fun _ => false) [] [])
          = (Ok false, w')
        ∧ playlist_json w'
          = Some (Json [_generate_entry "a" "/m/a.mp4" 2 "upload" "u" "id-a" 100])
        ∧ ∃ evs, trace w' = [] ++ evs ∧ no_store_write evs.
Proof.
  apply (remove_absent_id_unchanged
           (World (Some (Json [_generate_entry "a" "/m/a.mp4" 2 "upload" "u" "id-a" 100]))
                  None None (fun _ => false) [] []) "zz").
  intros q Hq. injection Hq as <-.
  constructor; [|constructor].
  exists (VStr "id-a"). split; [reflexivity|discriminate].
Defined.

(** ** FIFO *)

Lemma add_to_queue_appends w q title filepath duration source added_by uid now :
  playlist_json w = Some (Json q) → contended w PLAYLIST = false →
  ∃ w', add_to_queue title filepath duration source added_by uid now w
          = (Ok (_generate_entry title filepath duration source added_by uid now), w')
        ∧ playlist_json w'
          = Some (Json (q ++ [_generate_entry title filepath duration source added_by uid now]))
        ∧ contended w' = contended w
        ∧ trace w' = trace w ++ read_hold ++ write_hold.
Proof.
  intros Hq Hc. eexists. split.
  - unfold add_to_queue. unfold_m. rewrite (load_playlist_json _ _ Hq Hc).
    erewrite save_playlist_ok; [reflexivity|exact Hq|exact Hc].
  - simpl. by rewrite <- app_assoc.
Qed.

Lemma remove_current_pops w e q :
  playlist_json w = Some (Json (e :: q)) → contended w PLAYLIST = false →
  is_Some (e !! "title") →
  ∃ w', remove_current w = (Ok (Some e), w')
        ∧ playlist_json w' = Some (Json q)
        ∧ contended w' = contended w
        ∧ trace w' = trace w ++ read_hold ++ write_hold.
Proof.
  intros Hq Hc [t Ht]. eexists. split.
  - unfold remove_current. unfold_m. rewrite (load_playlist_json _ _ Hq Hc).
    erewrite save_playlist_ok; [|exact Hq|exact Hc].
    unfold getitem. rewrite Ht. reflexivity.
  - simpl. by rewrite <- app_assoc.
Qed.

Lemma remove_current_empty w :
  playlist_json w = Some (Json []) → contended w PLAYLIST = false →
  ∃ w', remove_current w = (Ok None, w')
        ∧ playlist_json w' = Some (Json [])
        ∧ contended w' = contended w.
Proof.
  intros Hq Hc. eexists. split.
  - unfold remove_current. unfold_m. rewrite (load_playlist_json _ _ Hq Hc). reflexivity.
  - done.
Qed.

Lemma generated_entry_has_title title filepath duration source added_by uid now :
  is_Some (_generate_entry title filepath duration source added_by uid now !! "title").
Proof. exists (VStr title). reflexivity. Qed.

(** C6: for any sequence of [add_to_queue] (append) and [remove_current]
    (pop_front) run on a store, the pops return exactly what the first-in,
    first-out queue of the spec returns on the same operations, and the
    store is left as that queue: a pop on a store that is not empty returns
    and removes its front entry, a pop on the empty store returns none.  So
    what the pops returned, in the order they returned it, followed by what
    is left in the store, is the initial store followed by the appended
    entries in the order they were appended. *)
Theorem append_pop_fifo ops : ∀ w q0,
  playlist_json w = Some (Json q0) → contended w PLAYLIST = false →
  Forall (fun e => is_Some (e !! "title")) q0 →
  ∃ popped w' q', queue_run ops w = (Ok popped, w')
                  ∧ playlist_json w' = Some (Json q')
                  ∧ (popped, q') = fifo ops q0
                  ∧ popped ++ q' = q0 ++ appended ops.
Proof.
  induction ops as [|[title filepath duration source added_by uid now|] ops IH];
    intros w q0 Hq Hc Ht.
  - exists [], w, q0. simpl. by rewrite app_nil_r.
  - destruct (add_to_queue_appends w q0 title filepath duration source added_by uid now Hq Hc)
      as (w1 & Hadd & Hq1 & Hc1 & _).
    destruct (IH w1 _ Hq1) as (popped & w' & q' & Hrun & Hq' & Hfifo & Heq).
    { by rewrite Hc1. }
    { apply Forall_app. split; [done|]. constructor; [|done].
      apply generated_entry_has_title. }
    exists popped, w', q'. split; [|split; [done|split; [done|]]].
    + simpl. unfold_m. by rewrite Hadd, Hrun.
    + rewrite Heq. simpl. by rewrite <- app_assoc.
  - destruct q0 as [|e q0].
    + destruct (remove_current_empty w Hq Hc) as (w1 & Hpop & Hq1 & Hc1).
      destruct (IH w1 _ Hq1) as (popped & w' & q' & Hrun & Hq' & Hfifo & Heq);
        [by rewrite Hc1|done|].
      exists popped, w', q'. split; [|done].
      simpl. unfold_m. by rewrite Hpop, Hrun.
    + inversion Ht as [|? ? Hte Htq]; subst.
      destruct (remove_current_pops w e q0 Hq Hc Hte) as (w1 & Hpop & Hq1 & Hc1 & _).
      destruct (IH w1 _ Hq1) as (popped & w' & q' & Hrun & Hq' & Hfifo & Heq);
        [by rewrite Hc1|done|].
      exists (e :: popped), w', q'. split; [|split; [done|split]].
      * simpl. unfold_m. by rewrite Hpop, Hrun.
      * simpl. by rewrite <- Hfifo.
      * simpl. by rewrite Heq.
Qed.

(** Two appends followed by three pops on the empty store: the first two
    pops return the two entries in the order of their appends, the third
    returns none, and the store is left empty. *)
Lemma append_pop_fifo_witness :
  let a := _generate_entry "a" "/m/a.mp4" 2 "upload" "u" "id-a" 100 in
  let b := _generate_entry "b" "/m/b.mp4" 2 "upload" "u" "id-b" 101 in
  ∃ w', queue_run [QAppend "a" "/m/a.mp4" 2 "upload" "u" "id-a" 100;
                   QAppend "b" "/m/b.mp4" 2 "upload" "u" "id-b" 101;
                   QPop; QPop; QPop]
          (World (Some (Json [])) None None (fun _ => false) [] []) = (Ok [a; b], w')
        ∧ playlist_json w' = Some (Json []).
Proof.
  intros a b.
  destruct (append_pop_fifo
              [QAppend "a" "/m/a.mp4" 2 "upload" "u" "id-a" 100;
               QAppend "b" "/m/b.mp4" 2 "upload" "u" "id-b" 101;
               QPop; QPop; QPop]
              (World (Some (Json [])) None None (fun _ => false) [] []) [])
    as (popped & w' & q' & Hrun & Hq' & Hfifo & _);
    [reflexivity|reflexivity|constructor|].
  injection Hfifo as -> ->. by exists w'.
Defined.

(** ** Malformed documents *)

Lemma load_playlist_malformed w raw :
  playlist_json w = Some (Unparseable raw) →
  ∃ evs lgs, load_playlist w = (Ok [], extend evs lgs w)
             ∧ (ERROR, "Failed to load playlist") ∈ lgs.
Proof.
  intros Hq. destruct (contended w PLAYLIST) eqn:Hc.
  - eexists _, _. split; [by eapply load_playlist_contended|]. set_solver.
  - eexists _, _. split; [by eapply load_playlist_unparseable|]. set_solver.
Qed.

Lemma logs_fault_extend w evs lgs lgs' msg :
  (ERROR, msg) ∈ lgs → logs_fault w (extend evs (lgs ++ lgs') w).
Proof.
  intros Hin. split; [done|]. exists (lgs ++ lgs'), msg. split; [done|].
  apply elem_of_app. by left.
Qed.

Lemma get_next_video_malformed w raw :
  playlist_json w = Some (Unparseable raw) → contended w PLAYLIST = false →
  get_next_video w =
    (Ok (None, Some []),
     extend read_hold [(ERROR, "Playlist file is corrupted.")] w).
Proof.
  intros Hq Hc. open_world w. unfold get_next_video, FileLock, read_hold.
  step_m Hc. by rewrite <- ?app_assoc.
Qed.

(** On a [playlist.json] whose text is read but is no JSON document, every
    read of the store returns normally with the answer of an empty store,
    logs an error and leaves the document alone: [load_playlist] and
    [get_queue] return the empty sequence, [get_next_item] and
    [peek_current] no entry, [is_empty] true, [get_total_duration] zero,
    [get_by_id] nothing, and the engine's [get_next_video] no next entry. *)
Lemma malformed_store_reads_as_empty w raw :
  playlist_json w = Some (Unparseable raw) →
  (∃ w', load_playlist w = (Ok [], w') ∧ logs_fault w w')
  ∧ (∃ w', get_queue w = (Ok [], w') ∧ logs_fault w w')
  ∧ (∃ w', get_next_item w = (Ok None, w') ∧ logs_fault w w')
  ∧ (∃ w', peek_current w = (Ok None, w') ∧ logs_fault w w')
  ∧ (∃ w', is_empty w = (Ok true, w') ∧ logs_fault w w')
  ∧ (∀ int_of_str, ∃ w', get_total_duration int_of_str w = (Ok 0%Z, w') ∧ logs_fault w w')
  ∧ (∀ entry_id, ∃ w', get_by_id entry_id w = (Ok None, w') ∧ logs_fault w w')
  ∧ (contended w PLAYLIST = false →
     ∃ w', get_next_video w = (Ok (None, Some []), w') ∧ logs_fault w w').
Proof.
  intros Hq. destruct (load_playlist_malformed w raw Hq) as (evs & lgs & Hload & Herr).
  assert (∀ lgs', logs_fault w (extend evs (lgs ++ lgs') w)) as Hfault.
  { intros lgs'. by eapply logs_fault_extend. }
  assert (logs_fault w (extend evs lgs w)) as Hfault0.
  { specialize (Hfault []). by rewrite app_nil_r in Hfault. }
  repeat split.
  - by eexists.
  - by eexists.
  - eexists. split; [|exact Hfault0].
    unfold get_next_item. unfold_m. by rewrite Hload.
  - eexists. split; [|exact Hfault0].
    unfold peek_current, get_next_item. unfold_m. by rewrite Hload.
  - eexists. split; [|exact Hfault0].
    unfold is_empty. unfold_m. by rewrite Hload.
  - intros int_of_str. eexists. split; [|apply (Hfault [(DEBUG, "Total playlist duration")])].
    unfold get_total_duration. unfold_m. rewrite Hload. simpl. by rewrite <- ?app_assoc.
  - intros entry_id. eexists. split; [|apply (Hfault [(WARNING, "Entry ID not found")])].
    unfold get_by_id. unfold_m. rewrite Hload. simpl. by rewrite <- ?app_assoc.
  - intros Hc. eexists. split; [by apply (get_next_video_malformed w raw)|].
    split; [done|]. eexists _, _. split; [done|]. apply list_elem_of_singleton. reflexivity.
Qed.

(** The reads of a store that holds the text of a broken document. *)
Lemma malformed_store_reads_as_empty_witness :
  let w := World (Some (Unparseable "[{")) None None (fun _ => false) [] [] in
  (∃ w', load_playlist w = (Ok [], w') ∧ logs_fault w w')
  ∧ (∃ w', get_queue w = (Ok [], w') ∧ logs_fault w w')
  ∧ (∃ w', get_next_item w = (Ok None, w') ∧ logs_fault w w')
  ∧ (∃ w', peek_current w = (Ok None, w') ∧ logs_fault w w')
  ∧ (∃ w', is_empty w = (Ok true, w') ∧ logs_fault w w')
  ∧ (∀ int_of_str, ∃ w', get_total_duration int_of_str w = (Ok 0%Z, w') ∧ logs_fault w w')
  ∧ (∀ entry_id, ∃ w', get_by_id entry_id w = (Ok None, w') ∧ logs_fault w w')
  ∧ (∃ w', get_next_video w = (Ok (None, Some []), w') ∧ logs_fault w w').
Proof.
  intros w.
  destruct (malformed_store_reads_as_empty w "[{" eq_refl)
    as (H1 & H2 & H3 & H4 & H5 & H6 & H7 & H8).
  repeat (split; [assumption|]). exact (H8 eq_refl).
Defined.

(** C7, evaluated on the code: on a [playlist.json] whose bytes are not
    UTF-8 the reads of [queue.py], which catch every exception, answer as for
    an empty store and log the fault, but the engine's [get_next_video]
    handles [JSONDecodeError] only and lets the [UnicodeDecodeError] of
    [json.load] through, without a log line; the round of [play_loop] that
    fetches has no handler either, and the engine ends. *)
Theorem undecodable_store_crashes_engine_read :
  let w := World (Some (Unreadable NotUtf8)) None None (fun _ => false) [] [] in
  (∃ w', load_playlist w = (Ok [], w') ∧ logs_fault w w')
  ∧ (∃ w', get_next_video w = (Raise UnicodeDecodeError, w') ∧ logged w' = logged w)
  ∧ (∀ media_exists, ∃ w', engine_step media_exists Fetch (Idle, w) = Some (Crashed, w')).
Proof.
  intros w. split; [|split].
  - eexists. split; [by apply (load_playlist_unreadable w NotUtf8)|].
    split; [done|]. eexists _, _. split; [done|].
    do 2 apply list_elem_of_further. apply list_elem_of_here.
  - eexists. split; [vm_compute; reflexivity|reflexivity].
  - intros media_exists. eexists. vm_compute. reflexivity.
Qed.

(** ** The now-playing document *)

Lemma get_now_playing_unparseable path_stem w raw :
  now_playing_txt w = Some (Unparseable raw) →
  get_now_playing path_stem w =
    (Ok None, extend [EvRead NOW_PLAYING] [(ERROR, "Failed to parse now_playing.txt")] w).
Proof.
  intros Hn. open_world w. unfold get_now_playing. by step_m Hn.
Qed.

Lemma update_now_playing_writes w metadata fp now :
  metadata !! "file_path" = Some fp → contended w NOW_PLAYING = false →
  ∃ w', update_now_playing metadata now w = (Ok tt, w')
        ∧ now_playing_txt w' = Some (Unparseable (format_value fp +:+ "|" +:+ pretty now))
        ∧ playlist_json w' = playlist_json w
        ∧ contended w' = contended w.
Proof.
  intros Hfp Hc. open_world w. eexists. split.
  - unfold update_now_playing, FileLock, getitem. step_m Hc. rewrite Hfp. simpl. reflexivity.
  - done.
Qed.

(** C3, evaluated on the code: the engine's [update_now_playing] leaves
    [now_playing.txt] in the plain [<path>|<unix-seconds>] shape, and
    [get_now_playing] on that document logs a parse error and returns none,
    not a record carrying the path and the timestamp. *)
Theorem legacy_now_playing_reads_none path_stem :
  ∃ w1 w2,
    update_now_playing {[ "file_path" := VStr "/movies/a.mp4" ]} 1700000000
      (World (Some (Json [])) None None (fun _ => false) [] []) = (Ok tt, w1)
    ∧ now_playing_txt w1 = Some (Unparseable "/movies/a.mp4|1700000000")
    ∧ get_now_playing path_stem w1 = (Ok None, w2)
    ∧ (ERROR, "Failed to parse now_playing.txt") ∈ logged w2.
Proof.
  destruct (update_now_playing_writes
              (World (Some (Json [])) None None (fun _ => false) [] [])
              {[ "file_path" := VStr "/movies/a.mp4" ]} (VStr "/movies/a.mp4") 1700000000)
    as (w1 & Hw & Hn & _); [reflexivity|reflexivity|].
  exists w1. eexists. split; [exact Hw|]. split.
  - rewrite Hn. f_equal.
  - split; [by eapply get_now_playing_unparseable|].
    simpl. apply elem_of_app. right. apply list_elem_of_singleton. reflexivity.
Qed.

(** ** The lock holds of the mutators *)

Lemma load_playlist_one_hold w c :
  playlist_json w = Some c → contended w PLAYLIST = false →
  ∃ lgs, load_playlist w = (Ok (visible_queue w), extend read_hold lgs w).
Proof.
  intros Hq Hc. unfold visible_queue. rewrite Hq, Hc. destruct c as [raw|q|u].
  - eexists. by apply (load_playlist_unparseable w raw).
  - eexists. by apply (load_playlist_json w q).
  - eexists. by apply (load_playlist_unreadable w u).
Qed.

Lemma save_after_load w c lgs data :
  playlist_json w = Some c → contended w PLAYLIST = false →
  ∃ w', save_playlist data (extend read_hold lgs w) = (Ok tt, w')
        ∧ trace w' = trace w ++ read_hold ++ write_hold
        ∧ playlist_json w' = Some (Json data).
Proof.
  intros Hq Hc. eexists. split.
  - eapply save_playlist_ok; [exact Hq|exact Hc].
  - simpl. by rewrite <- app_assoc.
Qed.

Lemma read_only w lgs : reads_then_writes w (extend read_hold lgs w).
Proof. by left. Qed.

Lemma read_then_write w w' data :
  trace w' = trace w ++ read_hold ++ write_hold →
  playlist_json w' = Some (Json data) →
  reads_then_writes w w'.
Proof. intros Ht Hq. right. eauto. Qed.

Lemma add_to_queue_two_holds w c title filepath duration source added_by uid now :
  playlist_json w = Some c → contended w PLAYLIST = false →
  reads_then_writes w (snd (add_to_queue title filepath duration source added_by uid now w)).
Proof.
  intros Hq Hc. destruct (load_playlist_one_hold w c Hq Hc) as [lgs Hload].
  unfold add_to_queue. unfold_m. rewrite Hload.
  edestruct (save_after_load w c lgs) as (w' & Hsave & Ht & Hq'); [done..|].
  rewrite Hsave. simpl. eapply read_then_write; simpl; eauto.
Qed.

Lemma remove_by_id_two_holds w c entry_id :
  playlist_json w = Some c → contended w PLAYLIST = false →
  reads_then_writes w (snd (remove_by_id entry_id w)).
Proof.
  intros Hq Hc. destruct (load_playlist_one_hold w c Hq Hc) as [lgs Hload].
  unfold remove_by_id. unfold_m. rewrite Hload.
  destruct (without_id entry_id (visible_queue w)) as [new_queue|e]; [|apply read_only].
  destruct (_ <? _)%nat.
  - edestruct (save_after_load w c lgs) as (w' & Hsave & Ht & Hq'); [done..|].
    rewrite Hsave. simpl. eapply read_then_write; simpl; eauto.
  - simpl. by left.
Qed.

Lemma pin_next_two_holds w c entry_id :
  playlist_json w = Some c → contended w PLAYLIST = false →
  reads_then_writes w (snd (pin_next entry_id w)).
Proof.
  intros Hq Hc. destruct (load_playlist_one_hold w c Hq Hc) as [lgs Hload].
  unfold pin_next. unfold_m. rewrite Hload.
  destruct (find_id entry_id (visible_queue w) 0) as [[i|]|e];
    [|by left|apply read_only].
  destruct (visible_queue w !! i) as [pinned|]; [|apply read_only].
  edestruct (save_after_load w c lgs) as (w' & Hsave & Ht & Hq'); [done..|].
  rewrite Hsave. destruct (getitem pinned "title"); simpl;
    eapply read_then_write; simpl; eauto.
Qed.

Lemma remove_current_two_holds w c :
  playlist_json w = Some c → contended w PLAYLIST = false →
  reads_then_writes w (snd (remove_current w)).
Proof.
  intros Hq Hc. destruct (load_playlist_one_hold w c Hq Hc) as [lgs Hload].
  unfold remove_current. unfold_m. rewrite Hload.
  destruct (visible_queue w) as [|removed rest]; [apply read_only|].
  edestruct (save_after_load w c lgs) as (w' & Hsave & Ht & Hq'); [done..|].
  rewrite Hsave. destruct (getitem removed "title"); simpl;
    eapply read_then_write; simpl; eauto.
Qed.

Lemma update_entry_two_holds w c entry_id new_data :
  playlist_json w = Some c → contended w PLAYLIST = false →
  reads_then_writes w (snd (update_entry entry_id new_data w)).
Proof.
  intros Hq Hc. destruct (load_playlist_one_hold w c Hq Hc) as [lgs Hload].
  unfold update_entry. unfold_m. rewrite Hload.
  destruct (update_first entry_id new_data (visible_queue w)) as [[queue'|]|e];
    [|by left|apply read_only].
  edestruct (save_after_load w c lgs) as (w' & Hsave & Ht & Hq'); [done..|].
  rewrite Hsave. simpl. eapply read_then_write; simpl; eauto.
Qed.

(** C4 as the code has it: every mutator of the store ([add_to_queue],
    [remove_by_id], [pin_next], [remove_current], [update_entry]) reads the
    document under one hold of the lock, releases the lock, and, when it
    writes, writes the full document back under a second hold of its own;
    [add_to_queue] always writes.  When it does not write, the document is
    what it was. *)
Theorem mutators_read_and_write_in_separate_holds w c :
  playlist_json w = Some c → contended w PLAYLIST = false →
  (∀ title filepath duration source added_by uid now,
     trace (snd (add_to_queue title filepath duration source added_by uid now w))
     = trace w ++ read_hold ++ write_hold)
  ∧ (∀ entry_id, reads_then_writes w (snd (remove_by_id entry_id w)))
  ∧ (∀ entry_id, reads_then_writes w (snd (pin_next entry_id w)))
  ∧ reads_then_writes w (snd (remove_current w))
  ∧ (∀ entry_id new_data, reads_then_writes w (snd (update_entry entry_id new_data w))).
Proof.
  intros Hq Hc. repeat split.
  - intros. destruct (load_playlist_one_hold w c Hq Hc) as [lgs Hload].
    unfold add_to_queue. unfold_m. rewrite Hload.
    edestruct (save_after_load w c lgs) as (w' & Hsave & Ht & Hq'); [done..|].
    rewrite Hsave. simpl. exact Ht.
  - intros. by eapply remove_by_id_two_holds.
  - intros. by eapply pin_next_two_holds.
  - by eapply remove_current_two_holds.
  - intros. by eapply update_entry_two_holds.
Qed.

(** The mutators on a world whose store is the empty list. *)
Lemma mutators_read_and_write_in_separate_holds_witness :
  let w := World (Some (Json [])) None None (fun _ => false) [] [] in
  (∀ title filepath duration source added_by uid now,
     trace (snd (add_to_queue title filepath duration source added_by uid now w))
     = trace w ++ read_hold ++ write_hold)
  ∧ (∀ entry_id, reads_then_writes w (snd (remove_by_id entry_id w)))
  ∧ (∀ entry_id, reads_then_writes w (snd (pin_next entry_id w)))
  ∧ reads_then_writes w (snd (remove_current w))
  ∧ (∀ entry_id new_data, reads_then_writes w (snd (update_entry entry_id new_data w))).
Proof.
  exact (mutators_read_and_write_in_separate_holds
           (World (Some (Json [])) None None (fun _ => false) [] []) (Json [])
           eq_refl eq_refl).
Defined.

(** C4 as stated fails: the events of one [add_to_queue] are not one hold
    of the lock, the lock is released after the read and taken again for
    the write. *)
Lemma add_to_queue_not_one_hold :
  within_one_hold
    (trace (snd (add_to_queue "a" "/m/a.mp4" 2 "upload" "u" "id-a" 100
                   (World (Some (Json [])) None None (fun _ => false) [] []))))
  = false.
Proof. vm_compute. reflexivity. Qed.

Example read_hold_is_one_hold : within_one_hold read_hold = true.
Proof. reflexivity. Qed.

(** Two appends whose holds interleave: both read the empty store, both
    write their own one-entry document, and the first append is lost. *)
Lemma interleaved_appends_lose_an_entry :
  let a := _generate_entry "a" "/m/a.mp4" 2 "upload" "u" "id-a" 100 in
  let b := _generate_entry "b" "/m/b.mp4" 2 "upload" "u" "id-b" 101 in
  let interleaved : M unit :=
    (queue1 ← load_playlist;
     queue2 ← load_playlist;
     save_playlist (queue1 ++ [a]);;
     save_playlist (queue2 ++ [b])) in
  playlist_json (snd (interleaved (World (Some (Json [])) None None (fun _ => false) [] [])))
  = Some (Json [b]).
Proof. vm_compute. reflexivity. Qed.

(** ** What the code of the engine keeps of the world *)

Create HintDb keeps.

Lemma keeps_ret {X A} (f : world → X) (a : A) : keeps f (mret a).
Proof. intros w r w' [= <- <-]. done. Qed.

Lemma keeps_ret' {X A} (f : world → X) (a : A) : keeps f (ret a).
Proof. intros w r w' [= <- <-]. done. Qed.

Lemma keeps_raise {X A} (f : world → X) e : keeps f (@raise world A e).
Proof. intros w r w' [= <- <-]. done. Qed.

Lemma keeps_lift {X A} (f : world → X) (o : outcome A) : keeps f (lift o).
Proof. intros w r w' [= <- <-]. done. Qed.

Lemma keeps_bind {X A B} (f : world → X) (m : M A) (k : A → M B) :
  keeps f m → (∀ a, keeps f (k a)) → keeps f (m ≫= k).
Proof.
  intros Hm Hk w r w'. unfold mbind, St_bind, bind.
  destruct (m w) as [[a|e] w1] eqn:E.
  - intros Hka. rewrite (Hk _ _ _ _ Hka). eauto.
  - intros [= <- <-]. eauto.
Qed.

Lemma keeps_try_except {X A} (f : world → X) (m : M A) (h : exn → M A) :
  keeps f m → (∀ e, keeps f (h e)) → keeps f (try_except m h).
Proof.
  intros Hm Hh w r w'. unfold try_except.
  destruct (m w) as [[a|e] w1] eqn:E.
  - intros [= <- <-]. eauto.
  - intros Hhe. rewrite (Hh _ _ _ _ Hhe). eauto.
Qed.

Lemma keeps_try_finally {X A} (f : world → X) (m : M A) (fin : M unit) :
  keeps f m → keeps f fin → keeps f (try_finally m fin).
Proof.
  intros Hm Hf w r w'. unfold try_finally.
  destruct (m w) as [[a|e] w1] eqn:E; destruct (fin w1) as [[u|e'] w2] eqn:E2;
    intros [= <- <-]; rewrite (Hf _ _ _ E2); eauto.
Qed.

Ltac keeps_prim :=
  intros [pl np ct busy tr lg] r w';
  unfold_m; simpl; intros;
  repeat case_match; simplify_eq; done.

Lemma keeps_emit {X} (f : world → X) e :
  (∀ w, f (add_event e w) = f w) → keeps f (emit e).
Proof. intros Hf w r w' [= <- <-]. apply Hf. Qed.

Lemma keeps_log {X} (f : world → X) l msg :
  (∀ w, f (add_log l msg w) = f w) → keeps f (log l msg).
Proof. intros Hf w r w' [= <- <-]. apply Hf. Qed.

Lemma keeps_contended_probe p :
  keeps contended (fun w => (Ok (contended w p), w)).
Proof. keeps_prim. Qed.

Lemma keeps_store_probe p :
  keeps playlist_json (fun w => (Ok (contended w p), w)).
Proof. keeps_prim. Qed.

Lemma keeps_contended_path_exists_pl : keeps contended (path_exists PLAYLIST_PATH).
Proof. keeps_prim. Qed.
Lemma keeps_contended_path_exists_ct : keeps contended (path_exists CONTROL_FILE).
Proof. keeps_prim. Qed.
Lemma keeps_store_path_exists_pl : keeps playlist_json (path_exists PLAYLIST_PATH).
Proof. keeps_prim. Qed.
Lemma keeps_store_path_exists_ct : keeps playlist_json (path_exists CONTROL_FILE).
Proof. keeps_prim. Qed.

Lemma keeps_contended_open_pl m : keeps contended (open_file PLAYLIST_PATH m).
Proof. destruct m; keeps_prim. Qed.
Lemma keeps_contended_open_np m : keeps contended (open_file NOW_PLAYING_PATH m).
Proof. destruct m; keeps_prim. Qed.
Lemma keeps_contended_open_ct m : keeps contended (open_file CONTROL_FILE m).
Proof. destruct m; keeps_prim. Qed.
Lemma keeps_store_open_pl_r : keeps playlist_json (open_file PLAYLIST_PATH ModeR).
Proof. keeps_prim. Qed.
Lemma keeps_store_open_np m : keeps playlist_json (open_file NOW_PLAYING_PATH m).
Proof. destruct m; keeps_prim. Qed.
Lemma keeps_store_open_ct m : keeps playlist_json (open_file CONTROL_FILE m).
Proof. destruct m; keeps_prim. Qed.

Lemma keeps_contended_load_pl : keeps contended (json_load PLAYLIST_PATH).
Proof. keeps_prim. Qed.
Lemma keeps_contended_load_ct : keeps contended (json_load CONTROL_FILE).
Proof. keeps_prim. Qed.
Lemma keeps_store_load_pl : keeps playlist_json (json_load PLAYLIST_PATH).
Proof. keeps_prim. Qed.
Lemma keeps_store_load_ct : keeps playlist_json (json_load CONTROL_FILE).
Proof. keeps_prim. Qed.

Lemma keeps_contended_dump_pl d : keeps contended (json_dump PLAYLIST_PATH d).
Proof. keeps_prim. Qed.
Lemma keeps_contended_dump_ct d : keeps contended (json_dump CONTROL_FILE d).
Proof. keeps_prim. Qed.
Lemma keeps_store_dump_ct d : keeps playlist_json (json_dump CONTROL_FILE d).
Proof. keeps_prim. Qed.

Lemma keeps_contended_write_np t : keeps contended (write_text NOW_PLAYING_PATH t).
Proof. keeps_prim. Qed.
Lemma keeps_store_write_np t : keeps playlist_json (write_text NOW_PLAYING_PATH t).
Proof. keeps_prim. Qed.

Lemma keeps_contended_touch_pl : keeps contended (touch PLAYLIST_PATH).
Proof. keeps_prim. Qed.
Lemma keeps_contended_is_contended_pl : keeps contended (is_contended PLAYLIST_PATH).
Proof. keeps_prim. Qed.

#[local] Hint Resolve keeps_ret keeps_ret' keeps_raise keeps_lift
  keeps_contended_probe keeps_store_probe
  keeps_contended_path_exists_pl keeps_contended_path_exists_ct
  keeps_store_path_exists_pl keeps_store_path_exists_ct
  keeps_contended_open_pl keeps_contended_open_np keeps_contended_open_ct
  keeps_store_open_pl_r keeps_store_open_np keeps_store_open_ct
  keeps_contended_load_pl keeps_contended_load_ct keeps_store_load_pl keeps_store_load_ct
  keeps_contended_dump_pl keeps_contended_dump_ct keeps_store_dump_ct
  keeps_contended_write_np keeps_store_write_np
  keeps_contended_touch_pl keeps_contended_is_contended_pl : keeps.

(** Decomposes a goal [keeps f m] along the structure of [m]. *)
Ltac keeps_tac :=
  repeat first
    [ progress intros
    | apply keeps_bind
    | apply keeps_try_except
    | apply keeps_try_finally
    | apply keeps_emit; reflexivity
    | apply keeps_log; reflexivity
    | solve [eauto with keeps]
    | match goal with
      | |- keeps _ (if ?b then _ else _) => destruct b
      | |- keeps _ (match ?x with _ => _ end) => destruct x
      | |- keeps _ (on_JSONDecodeError _ ?e) => destruct e; simpl
      end ].

Lemma keeps_contended_FileLock {B} p (body : M B) :
  keeps contended body → keeps contended (FileLock p body).
Proof. intros. unfold FileLock. keeps_tac. Qed.

Lemma keeps_store_FileLock {B} p (body : M B) :
  keeps playlist_json body → keeps playlist_json (FileLock p body).
Proof. intros. unfold FileLock. keeps_tac. Qed.

Lemma keeps_contended_get_next_video : keeps contended get_next_video.
Proof. unfold get_next_video. apply keeps_contended_FileLock. keeps_tac. Qed.

Lemma keeps_store_get_next_video : keeps playlist_json get_next_video.
Proof. unfold get_next_video. apply keeps_store_FileLock. keeps_tac. Qed.

Lemma keeps_contended_write_updated_playlist u :
  keeps contended (write_updated_playlist u).
Proof. unfold write_updated_playlist. apply keeps_contended_FileLock. keeps_tac. Qed.

Lemma keeps_contended_update_now_playing v now :
  keeps contended (update_now_playing v now).
Proof.
  unfold update_now_playing. apply keeps_bind; [|keeps_tac].
  apply keeps_contended_FileLock. keeps_tac.
Qed.

Lemma keeps_store_update_now_playing v now :
  keeps playlist_json (update_now_playing v now).
Proof.
  unfold update_now_playing. apply keeps_bind; [|keeps_tac].
  apply keeps_store_FileLock. keeps_tac.
Qed.

Lemma keeps_contended_clear_now_playing : keeps contended clear_now_playing.
Proof.
  unfold clear_now_playing. apply keeps_bind; [|keeps_tac].
  apply keeps_contended_FileLock. keeps_tac.
Qed.

Lemma keeps_store_clear_now_playing : keeps playlist_json clear_now_playing.
Proof.
  unfold clear_now_playing. apply keeps_bind; [|keeps_tac].
  apply keeps_store_FileLock. keeps_tac.
Qed.

Lemma keeps_contended_should_skip : keeps contended should_skip.
Proof.
  unfold should_skip. apply keeps_try_except; [|keeps_tac].
  apply keeps_contended_FileLock. keeps_tac.
Qed.

Lemma keeps_store_should_skip : keeps playlist_json should_skip.
Proof.
  unfold should_skip. apply keeps_try_except; [|keeps_tac].
  apply keeps_store_FileLock. keeps_tac.
Qed.

Lemma keeps_contended_reset_controls : keeps contended reset_controls.
Proof.
  unfold reset_controls. apply keeps_try_except; [|keeps_tac].
  apply keeps_bind; [|keeps_tac]. apply keeps_contended_FileLock. keeps_tac.
Qed.

Lemma keeps_store_reset_controls : keeps playlist_json reset_controls.
Proof.
  unfold reset_controls. apply keeps_try_except; [|keeps_tac].
  apply keeps_bind; [|keeps_tac]. apply keeps_store_FileLock. keeps_tac.
Qed.

Lemma keeps_contended_launch_ffmpeg ok fp : keeps contended (launch_ffmpeg ok fp).
Proof. unfold launch_ffmpeg. keeps_tac. Qed.

Lemma keeps_store_launch_ffmpeg ok fp : keeps playlist_json (launch_ffmpeg ok fp).
Proof. unfold launch_ffmpeg. keeps_tac. Qed.

#[local] Hint Resolve keeps_contended_get_next_video keeps_store_get_next_video
  keeps_contended_write_updated_playlist
  keeps_contended_update_now_playing keeps_store_update_now_playing
  keeps_contended_clear_now_playing keeps_store_clear_now_playing
  keeps_contended_should_skip keeps_store_should_skip
  keeps_contended_reset_controls keeps_store_reset_controls
  keeps_contended_launch_ffmpeg keeps_store_launch_ffmpeg : keeps.

Lemma keeps_contended_stream_tick alive : keeps contended (stream_tick alive).
Proof. unfold stream_tick. keeps_tac. Qed.

Lemma keeps_store_stream_tick alive : keeps playlist_json (stream_tick alive).
Proof. unfold stream_tick. keeps_tac. Qed.

Lemma keeps_contended_play_video_begin media ok v u now :
  keeps contended (play_video_begin media ok v u now).
Proof. unfold play_video_begin. keeps_tac. Qed.

Lemma keeps_contended_play_video_end alive u :
  keeps contended (play_video_end alive u).
Proof. unfold play_video_end. keeps_tac. Qed.

Lemma keeps_contended_load_playlist : keeps contended load_playlist.
Proof. unfold load_playlist, read_locked_json, locked_file. keeps_tac. Qed.

Lemma keeps_contended_save_playlist d : keeps contended (save_playlist d).
Proof. unfold save_playlist, write_locked_json, locked_file. keeps_tac. Qed.

Lemma keeps_contended_add_to_queue title filepath duration source added_by uid now :
  keeps contended (add_to_queue title filepath duration source added_by uid now).
Proof.
  unfold add_to_queue. apply keeps_bind; [apply keeps_contended_load_playlist|].
  intros. apply keeps_bind; [apply keeps_contended_save_playlist|]. keeps_tac.
Qed.

(** ** The playback engine and the store *)

Lemma bind_inv {S A B} (m : St S A) (k : A → St S B) s r s' :
  (m ≫= k) s = (r, s') →
  (∃ a s1, m s = (Ok a, s1) ∧ k a s1 = (r, s'))
  ∨ (∃ e, m s = (Raise e, s') ∧ r = Raise e).
Proof.
  unfold mbind, St_bind, bind. destruct (m s) as [[a|e] s1].
  - intros Hk. left. eauto.
  - intros [= <- <-]. right. eauto.
Qed.

Lemma get_next_video_front w video updated w' :
  get_next_video w = (Ok (Some video, Some updated), w') →
  playlist_json w = Some (Json (video :: updated)).
Proof.
  destruct w as [pl np ct busy tr lg]. unfold get_next_video, FileLock.
  unfold_m. simpl. destruct (busy PLAYLIST); [done|].
  destruct pl as [[raw|[|v q]|[|]]|]; simpl; intros; by simplify_eq.
Qed.

Lemma write_updated_playlist_ok w updated :
  contended w PLAYLIST = false →
  ∃ w', write_updated_playlist updated w = (Ok tt, w')
        ∧ playlist_json w' = Some (Json updated)
        ∧ contended w' = contended w.
Proof.
  intros Hc. open_world w. unfold write_updated_playlist, FileLock.
  step_m Hc. by eexists.
Qed.

Lemma clear_now_playing_ok w :
  contended w NOW_PLAYING = false →
  ∃ w', clear_now_playing w = (Ok tt, w')
        ∧ playlist_json w' = playlist_json w
        ∧ contended w' = contended w.
Proof.
  intros Hc. open_world w. unfold clear_now_playing, FileLock.
  step_m Hc. by eexists.
Qed.

Lemma play_video_end_ok w alive updated :
  uncontended w →
  ∃ w', play_video_end alive updated w = (Ok tt, w')
        ∧ playlist_json w' = Some (Json updated)
        ∧ contended w' = contended w.
Proof.
  intros Hc. unfold play_video_end.
  set (stop := (if alive then emit EvTerminate;; log INFO "FFmpeg terminated" else ret tt)).
  assert (∃ w1, stop w = (Ok tt, w1) ∧ contended w1 = contended w) as (w1 & Hstop & Hc1).
  { unfold stop. destruct alive; by eexists. }
  destruct (clear_now_playing_ok w1) as (w2 & Hclear & _ & Hc2).
  { rewrite Hc1. apply Hc. }
  destruct (write_updated_playlist_ok w2 updated) as (w3 & Hwrite & Hq3 & Hc3).
  { rewrite Hc2, Hc1. apply Hc. }
  exists w3. split; [|split; [done|congruence]].
  unfold mbind, St_bind, bind. by rewrite Hstop, Hclear, Hwrite.
Qed.

Lemma play_video_begin_store media ok video updated now w r w' :
  contended w PLAYLIST = false →
  play_video_begin media ok video updated now w = (r, w') →
  playlist_json w' = playlist_json w ∨ r = Ok false.
Proof.
  intros Hc. unfold play_video_begin.
  intros [(missing & w1 & Hlift & Hrest)|(e & Hlift & ->)]%bind_inv.
  - injection Hlift as Hm <-. destruct missing.
    + right.
      destruct (write_updated_playlist_ok (add_log WARNING "File not found" w) updated Hc)
        as (w2 & Hwrite & _).
      revert Hrest. unfold mbind, St_bind, bind, log, ret. rewrite Hwrite.
      by intros [= <- <-].
    + left. revert Hrest. generalize w r w'. change (keeps playlist_json
        (update_now_playing video now;;
         launch_ffmpeg ok (format_value (dict_get video "file_path"));;
         lift (match dict_get_default video "duration" (VInt 0) with
               | VInt d => Ok (if (0 <? d)%Z then d else 3600%Z)
               | _ => Raise TypeError
               end);;
         log INFO "Streaming";;
         ret true)).
      keeps_tac.
  - left. by injection Hlift as _ <-.
Qed.

Lemma uncontended_kept {A} (m : M A) w r w' :
  keeps contended m → m w = (r, w') → uncontended w → uncontended w'.
Proof. intros Hk Hm Hc p. by rewrite (Hk _ _ _ Hm). Qed.

Lemma uncontended_add_log l msg w : uncontended w → uncontended (add_log l msg w).
Proof. done. Qed.

Lemma engine_step_inv media a st st' :
  engine_inv st → engine_step media a st = Some st' → engine_inv st'.
Proof.
  destruct st as [ph w]. intros [Hc Hs]. simpl in Hc, Hs.
  destruct a as [|now ok|alive|alive| |title filepath duration source added_by uid now];
    destruct ph as [|video updated retries|video updated retries|]; simpl; try done.
  - (* Fetch *)
    destruct (get_next_video w) as [[[[video|] [updated|]]|e] w1] eqn:Hget;
      try (intros [= <-]; split; [by eapply (uncontended_kept _ _ _ _ keeps_contended_get_next_video Hget)|done]).
    case_bool_decide; intros [= <-];
      (split; [by eapply (uncontended_kept _ _ _ _ keeps_contended_get_next_video Hget)|]);
      [done|].
    simpl. exists []. rewrite app_nil_r.
    rewrite (keeps_store_get_next_video _ _ _ Hget).
    by eapply get_next_video_front.
  - (* Begin *)
    destruct (retries <? retry_limit)%nat; [|done].
    destruct (play_video_begin media ok video updated now w) as [[started|e] w1] eqn:Hbegin;
      intros [= <-]; simpl.
    + split; [by eapply (uncontended_kept _ _ _ _ (keeps_contended_play_video_begin _ _ _ _ _) Hbegin)|].
      destruct started; [|done]. simpl.
      destruct (play_video_begin_store _ _ _ _ _ _ _ _ (Hc PLAYLIST) Hbegin) as [->|?]; done.
    + split; [by eapply (uncontended_kept _ _ _ _ (keeps_contended_play_video_begin _ _ _ _ _) Hbegin)|].
      simpl.
      destruct (play_video_begin_store _ _ _ _ _ _ _ _ (Hc PLAYLIST) Hbegin) as [->|?]; done.
  - (* Tick *)
    unfold mbind, St_bind, bind.
    destruct (stream_tick alive w) as [[leave|e] w1] eqn:Htick.
    + pose proof (uncontended_kept _ _ _ _ (keeps_contended_stream_tick _) Htick Hc) as Hc1.
      destruct leave.
      * destruct (play_video_end_ok w1 alive updated Hc1) as (w2 & Hend & _ & Hc2).
        rewrite Hend. simpl. intros [= <-]. split; [|done].
        intros p. simpl. rewrite Hc2. apply Hc1.
      * simpl. intros [= <-]. split; [done|]. simpl.
        by rewrite (keeps_store_stream_tick _ _ _ _ Htick).
    + pose proof (uncontended_kept _ _ _ _ (keeps_contended_stream_tick _) Htick Hc) as Hc1.
      simpl. intros [= <-]. split; [done|]. simpl.
      by rewrite (keeps_store_stream_tick _ _ _ _ Htick).
  - (* Finish *)
    destruct (play_video_end_ok w alive updated Hc) as (w2 & Hend & _ & Hc2).
    rewrite Hend. simpl. intros [= <-]. split; [|done].
    intros p. simpl. rewrite Hc2. apply Hc.
  - (* GiveUp: not enabled below the ceiling; at the ceiling the entry is dropped *)
    destruct (retries <? retry_limit)%nat; [done|].
    assert (keeps contended (clear_now_playing;; write_updated_playlist updated)) as Hk
      by keeps_tac.
    destruct ((clear_now_playing;; write_updated_playlist updated)
                (add_log ERROR "Video failed after max retries. Skipping." w))
      as [[u|e] w1] eqn:Hdrop;
      intros [= <-]; (split; [|done]); simpl;
      eapply (uncontended_kept _ _ _ _ Hk Hdrop), uncontended_add_log, Hc.
  - (* Produce, idle *)
    intros [= <-]. split; [|done]. simpl.
    eapply (uncontended_kept _ _ _ _ (keeps_contended_add_to_queue _ _ _ _ _ _ _)); [|exact Hc].
    apply surjective_pairing.
  - (* Produce, an entry loaded *)
    intros [= <-]. destruct Hs as [extra Hq].
    destruct (add_to_queue_appends w _ title filepath duration source added_by uid now Hq
                (Hc PLAYLIST)) as (w1 & Hadd & Hq1 & Hc1 & _).
    rewrite Hadd. simpl. split.
    + intros p. simpl. rewrite Hc1. apply Hc.
    + simpl. eexists. rewrite Hq1. simpl. by rewrite <- app_assoc.
  - (* Produce, an entry streaming *)
    intros [= <-]. destruct Hs as [extra Hq].
    destruct (add_to_queue_appends w _ title filepath duration source added_by uid now Hq
                (Hc PLAYLIST)) as (w1 & Hadd & Hq1 & Hc1 & _).
    rewrite Hadd. simpl. split.
    + intros p. simpl. rewrite Hc1. apply Hc.
    + simpl. eexists. rewrite Hq1. simpl. by rewrite <- app_assoc.
  - (* Produce, crashed *)
    intros [= <-]. split; [|done]. simpl.
    eapply (uncontended_kept _ _ _ _ (keeps_contended_add_to_queue _ _ _ _ _ _ _)); [|exact Hc].
    apply surjective_pairing.
Qed.

Lemma engine_run_inv media acts : ∀ st st',
  engine_inv st → engine_run media acts st = Some st' → engine_inv st'.
Proof.
  induction acts as [|a acts IH]; intros st st' Hinv; simpl.
  - by intros [= <-].
  - destruct (engine_step media a st) as [st1|] eqn:Hstep; [|done].
    apply IH. by eapply engine_step_inv.
Qed.


Lemma sample_run_streams :
  ∃ w, engine_run (fun _ => true) [Fetch; Begin 100 true] (Idle, sample_world)
       = Some (Streaming sample_video [] 0, w)
       ∧ playlist_json w = Some (Json [sample_video]).
Proof. eexists. split; [vm_compute; reflexivity|reflexivity]. Qed.



(** ** The control loop: deduplication *)

Lemma total_log l msg : total (log l msg).
Proof. intros w. by eexists _, _. Qed.

Lemma total_load_playlist : total load_playlist.
Proof. intros w. destruct (load_playlist_reads w) as (evs & lgs & Hload & _). eauto. Qed.

Lemma total_get_next_item : total get_next_item.
Proof.
  intros w. destruct (total_load_playlist w) as (q & w' & Hload).
  unfold get_next_item. unfold_m. rewrite Hload. eauto.
Qed.

Lemma total_set_now_playing entry now : total (set_now_playing entry now).
Proof.
  intros w. unfold set_now_playing, try_except.
  match goal with |- context [match ?m w with _ => _ end] => destruct (m w) as [[u|e] w1] end;
    [destruct u|]; eauto.
Qed.

Section ControllerFacts.
Context {P : Type} `{FFmpegPlayer P}.
Hypothesis stop_stream_total : total (stop_stream (P := P)).
Hypothesis run_once_total : total (run_once (P := P)).

Lemma steady_ret {A} (a : A) : steady (P := P) (mret a).
Proof. intros s. by eexists _, _. Qed.

Lemma steady_bind {A B} (m : St (ControlManager P * world) A) (k : A → St _ B) :
  steady m → (∀ a, steady (k a)) → steady (m ≫= k).
Proof.
  intros Hm Hk s. destruct (Hm s) as (a & s1 & Hms & Hids1).
  destruct (Hk a s1) as (b & s2 & Hks & Hids2).
  exists b, s2. unfold mbind, St_bind, bind. rewrite Hms. split; [done|congruence].
Qed.

Lemma steady_in_world {A} (m : M A) : total m → steady (in_world (P := P) m).
Proof.
  intros Hm [cm w]. destruct (Hm w) as (a & w' & Hmw).
  exists a, (cm, w'). unfold in_world. by rewrite Hmw.
Qed.

Lemma steady_set_paused b : steady (set_paused (P := P) b).
Proof. intros [cm w]. by eexists _, _. Qed.

Lemma steady_get_paused : steady (get_paused (P := P)).
Proof. intros [cm w]. by eexists _, _. Qed.

Lemma steady_call_player c : steady (call_player c).
Proof.
  intros [cm w]. unfold call_player.
  destruct c.
  - destruct (stop_stream_total (player cm, w)) as ([] & [p' w'] & ->). by eexists _, _.
  - destruct (run_once_total (player cm, w)) as ([] & [p' w'] & ->). by eexists _, _.
Qed.

Ltac steady_tac :=
  repeat first
    [ progress intros
    | apply steady_bind
    | apply steady_ret
    | apply steady_set_paused
    | apply steady_get_paused
    | apply steady_call_player
    | apply steady_in_world;
      first [apply total_log | apply total_get_next_item | apply total_set_now_playing]
    | match goal with
      | |- steady (if ?b then _ else _) => destruct b
      | |- steady (match ?x with _ => _ end) => destruct x
      end ].

Lemma steady_handle_pause user now : steady (_handle_pause user now).
Proof. unfold _handle_pause. steady_tac. Qed.

Lemma steady_handle_resume user now : steady (_handle_resume user now).
Proof. unfold _handle_resume. steady_tac. Qed.

Lemma steady_handle_skip user now : steady (_handle_skip user now).
Proof. unfold _handle_skip. steady_tac. Qed.

Lemma steady_handle_stop user now : steady (_handle_stop user now).
Proof. unfold _handle_stop. steady_tac. Qed.

Lemma steady_handle_reload user now : steady (P := P) (_handle_reload user now).
Proof. unfold _handle_reload. steady_tac. Qed.

Lemma steady_apply_command command user now : steady (_apply_command command user now).
Proof.
  unfold _apply_command, command_handlers.
  destruct (String.eqb command "pause"); [apply steady_handle_pause|].
  destruct (String.eqb command "resume"); [apply steady_handle_resume|].
  destruct (String.eqb command "skip"); [apply steady_handle_skip|].
  destruct (String.eqb command "stop"); [apply steady_handle_stop|].
  destruct (String.eqb command "reload"); [apply steady_handle_reload|].
  steady_tac.
Qed.

(** One item of the control document changes the memory of applied ids
    as the deduplication of the spec says. *)
Lemma process_command_dedup now command pl s :
  ∃ s', process_command now command pl s = (Ok tt, s')
        ∧ ids_of s' = dedup_step (ids_of s) (command, pl).
Proof.
  unfold process_command, dedup_step, ids_of.
  destruct (bool_decide (command ∈ VALID_COMMANDS)); simpl.
  - destruct (p_id pl) as [request_id|]; simpl.
    + destruct (String.eqb request_id EmptyString); simpl.
      * destruct s as [cm w]. by eexists.
      * destruct s as [cm w]. unfold mbind, St_bind, bind, _is_duplicate. simpl.
        destruct (bool_decide (last_request_ids cm !! command = Some request_id)); simpl.
        -- by eexists.
        -- match goal with |- context [_apply_command ?c ?u ?n ?st] =>
             destruct (steady_apply_command c u n st) as ([] & s' & -> & Hids) end.
           exists s'. split; [done|]. exact Hids.
    + destruct s as [cm w]. by eexists.
  - destruct s as [cm w]. by eexists.
Qed.

Lemma process_commands_dedup now d : ∀ s,
  ∃ s', process_commands now d s = (Ok tt, s')
        ∧ ids_of s' = foldl dedup_step (ids_of s) d.
Proof.
  induction d as [|[command pl] d IH]; intros s; simpl.
  - by eexists.
  - destruct (process_command_dedup now command pl s) as (s1 & Hs1 & Hids1).
    destruct (IH s1) as (s2 & Hs2 & Hids2).
    exists s2. unfold mbind, St_bind, bind. rewrite Hs1, Hs2.
    split; [done|]. by rewrite Hids2, Hids1.
Qed.

Lemma polls_dedup now docs : ∀ s,
  ∃ s', polls now docs s = (Ok tt, s')
        ∧ ids_of s' = foldl (foldl dedup_step) (ids_of s) docs.
Proof.
  induction docs as [|d docs IH]; intros s; simpl.
  - by eexists.
  - destruct (process_commands_dedup now d s) as (s1 & Hs1 & Hids1).
    destruct (IH s1) as (s2 & Hs2 & Hids2).
    exists s2. unfold mbind, St_bind, bind, try_except. rewrite Hs1, Hs2.
    split; [done|]. by rewrite Hids2, Hids1.
Qed.

End ControllerFacts.

Lemma times_applied_snoc command request_id l x :
  times_applied command request_id (l ++ [x])
  = (times_applied command request_id l
     + (if bool_decide (x = (command, request_id)) then 1 else 0))%nat.
Proof.
  unfold times_applied. rewrite List.filter_app, length_app. simpl.
  by destruct (bool_decide _).
Qed.

Lemma dedup_step_other ids command' pl command request_id :
  command' ≠ command →
  (dedup_step ids (command', pl)).1 !! command = ids.1 !! command
  ∧ times_applied command request_id (dedup_step ids (command', pl)).2
    = times_applied command request_id ids.2.
Proof.
  intros Hne. destruct ids as [last done]. unfold dedup_step.
  destruct (bool_decide (command' ∈ VALID_COMMANDS)); [|done].
  destruct (p_id pl) as [rid'|]; [|done].
  destruct (String.eqb rid' EmptyString); [done|].
  destruct (bool_decide (last !! command' = Some rid')); [done|].
  simpl. split.
  - by apply lookup_insert_ne.
  - rewrite times_applied_snoc. rewrite bool_decide_eq_false_2; [lia|].
    intros [= ? ?]. done.
Qed.

Lemma dedup_fold_absent command request_id d : ∀ ids,
  command ∉ (d.*1) →
  (foldl dedup_step ids d).1 !! command = ids.1 !! command
  ∧ times_applied command request_id (foldl dedup_step ids d).2
    = times_applied command request_id ids.2.
Proof.
  induction d as [|[command' pl] d IH]; intros ids Hnotin; [done|].
  simpl in *. apply not_elem_of_cons in Hnotin as [Hne Hnotin].
  destruct (IH (dedup_step ids (command', pl)) Hnotin) as [-> ->].
  apply dedup_step_other. congruence.
Qed.

Lemma dedup_step_recorded ids command pl request_id :
  p_id pl = Some request_id → ids.1 !! command = Some request_id →
  dedup_step ids (command, pl) = ids.
Proof.
  intros Hid Hlast. destruct ids as [last done]. unfold dedup_step. simpl in Hlast.
  rewrite Hid. destruct (bool_decide (command ∈ VALID_COMMANDS)); [|done].
  destruct (String.eqb request_id EmptyString); [done|].
  by rewrite bool_decide_eq_true_2.
Qed.

Lemma dedup_step_fresh ids command pl request_id :
  command ∈ VALID_COMMANDS → p_id pl = Some request_id → request_id ≠ EmptyString →
  ids.1 !! command ≠ Some request_id →
  dedup_step ids (command, pl)
  = (<[command := request_id]> (ids.1), ids.2 ++ [(command, request_id)]).
Proof.
  intros Hvalid Hid Hne Hlast. destruct ids as [last done]. unfold dedup_step.
  simpl in *. rewrite Hid, bool_decide_eq_true_2 by done.
  apply String.eqb_neq in Hne. rewrite Hne.
  by rewrite bool_decide_eq_false_2.
Qed.

Lemma observed_once (d : list (string * payload)) command pl :
  NoDup (d.*1) → (command, pl) ∈ d →
  ∃ d1 d2, d = d1 ++ (command, pl) :: d2 ∧ (command ∉ d1.*1) ∧ (command ∉ d2.*1).
Proof.
  intros Hnd Hin. apply list_elem_of_split in Hin as (d1 & d2 & ->).
  exists d1, d2. split; [done|].
  rewrite fmap_app, fmap_cons in Hnd. simpl in Hnd.
  apply NoDup_app in Hnd as (_ & Hdisj & Hnd2).
  apply NoDup_cons in Hnd2 as [Hnotin2 _].
  split; [|done]. intros Hin1. apply (Hdisj _ Hin1). by left.
Qed.

(** A later observation of a recorded pair is ignored. *)
Lemma dedup_fold_recorded command pl request_id d ids :
  NoDup (d.*1) → (command, pl) ∈ d → p_id pl = Some request_id →
  ids.1 !! command = Some request_id →
  (foldl dedup_step ids d).1 !! command = Some request_id
  ∧ times_applied command request_id (foldl dedup_step ids d).2
    = times_applied command request_id ids.2.
Proof.
  intros Hnd Hin Hid Hlast.
  destruct (observed_once d command pl Hnd Hin) as (d1 & d2 & -> & Hn1 & Hn2).
  rewrite foldl_app. simpl.
  destruct (dedup_fold_absent command request_id d1 ids Hn1) as [Hl1 Ht1].
  rewrite (dedup_step_recorded _ _ _ request_id Hid) by congruence.
  destruct (dedup_fold_absent command request_id d2 (foldl dedup_step ids d1) Hn2)
    as [-> ->].
  split; congruence.
Qed.

(** The first observation of a fresh pair applies it once and records it. *)
Lemma dedup_fold_fresh command pl request_id d ids :
  NoDup (d.*1) → (command, pl) ∈ d →
  command ∈ VALID_COMMANDS → p_id pl = Some request_id → request_id ≠ EmptyString →
  ids.1 !! command ≠ Some request_id →
  (foldl dedup_step ids d).1 !! command = Some request_id
  ∧ times_applied command request_id (foldl dedup_step ids d).2
    = S (times_applied command request_id ids.2).
Proof.
  intros Hnd Hin Hvalid Hid Hne Hlast.
  destruct (observed_once d command pl Hnd Hin) as (d1 & d2 & -> & Hn1 & Hn2).
  rewrite foldl_app. simpl.
  destruct (dedup_fold_absent command request_id d1 ids Hn1) as [Hl1 Ht1].
  rewrite (dedup_step_fresh _ _ _ request_id Hvalid Hid Hne) by congruence.
  destruct (foldl dedup_step ids d1) as [last1 done1]; simpl in *.
  destruct (dedup_fold_absent command request_id d2
              (<[command:=request_id]> last1, done1 ++ [(command, request_id)]) Hn2)
    as [-> ->].
  simpl. split; [by apply lookup_insert_eq|].
  rewrite times_applied_snoc, bool_decide_eq_true_2 by done. lia.
Qed.

Lemma dedup_polls_recorded command request_id docs : ∀ ids,
  Forall (observes command request_id) docs →
  ids.1 !! command = Some request_id →
  (foldl (foldl dedup_step) ids docs).1 !! command = Some request_id
  ∧ times_applied command request_id (foldl (foldl dedup_step) ids docs).2
    = times_applied command request_id ids.2.
Proof.
  induction docs as [|d docs IH]; intros ids Hdocs Hlast; [done|].
  apply Forall_cons in Hdocs as [(Hnd & pl & Hin & Hid) Hdocs]. simpl.
  destruct (dedup_fold_recorded command pl request_id d ids Hnd Hin Hid Hlast) as [Hl Ht].
  destruct (IH (foldl dedup_step ids d) Hdocs Hl) as [-> ->].
  split; congruence.
Qed.

(** A poll that reads the control document runs the loop over its items. *)
Lemma check_for_new_command_reads {P} `{FFmpegPlayer P} now (cm : ControlManager P) w d :
  control_json w = Some (Json d) → contended w CONTROL = false →
  _check_for_new_command now (cm, w)
  = process_commands now d
      (cm, extend [EvLock CONTROL; EvRead CONTROL; EvUnlock CONTROL]
             [(DEBUG, "Lock acquired"); (DEBUG, "Lock released")] w).
Proof.
  intros Hd Hc. destruct w as [plj np ct busy tr lg]. simpl in Hd, Hc. subst ct.
  unfold _check_for_new_command, read_locked_json, locked_file, in_world.
  step_m Hc. by rewrite <- ?app_assoc.
Qed.

(** ** The control loop: how often the handlers run *)

Lemma handler_runs_app command l1 l2 :
  handler_runs command (l1 ++ l2)
  = (handler_runs command l1 + handler_runs command l2)%nat.
Proof. unfold handler_runs. by rewrite List.filter_app, length_app. Qed.

Lemma handler_runs_none command lgs :
  Forall (fun line => handler_of_line line = None) lgs → handler_runs command lgs = 0%nat.
Proof.
  induction 1 as [|line lgs Hline _ IH]; [done|].
  unfold handler_runs in *. simpl. rewrite Hline. simpl. exact IH.
Qed.

Lemma handler_runs_extend command evs lgs w :
  Forall (fun line => handler_of_line line = None) lgs →
  handler_runs command (logged (extend evs lgs w)) = handler_runs command (logged w).
Proof.
  intros Hnone. simpl. rewrite handler_runs_app, (handler_runs_none _ _ Hnone). lia.
Qed.

Lemma handler_runs_add_log command l msg w :
  handler_runs command (logged (add_log l msg w))
  = (handler_runs command (logged w)
     + (if bool_decide (handler_of_line (l, msg) = Some command) then 1 else 0))%nat.
Proof.
  simpl. rewrite handler_runs_app. unfold handler_runs at 2. simpl.
  by destruct (bool_decide _).
Qed.

Lemma kind_count_snoc command l x :
  kind_count command (l ++ [x])
  = (kind_count command l + (if bool_decide (x.1 = command) then 1 else 0))%nat.
Proof.
  unfold kind_count. rewrite List.filter_app, length_app. simpl.
  by destruct (bool_decide _).
Qed.

(** The reads of the queue made by the handlers write no handler line. *)
Lemma load_playlist_logs w :
  ∃ evs lgs, load_playlist w = (Ok (visible_queue w), extend evs lgs w)
             ∧ Forall (fun line => handler_of_line line = None) lgs.
Proof.
  unfold visible_queue.
  destruct (playlist_json w) as [[raw|q|u]|] eqn:Hq.
  - destruct (contended w PLAYLIST) eqn:Hc.
    + eexists _, _. split; [by eapply load_playlist_contended|by repeat constructor].
    + eexists _, _. split; [by eapply load_playlist_unparseable|by repeat constructor].
  - destruct (contended w PLAYLIST) eqn:Hc.
    + eexists _, _. split; [by eapply load_playlist_contended|by repeat constructor].
    + eexists _, _. split; [by eapply load_playlist_json|by repeat constructor].
  - destruct (contended w PLAYLIST) eqn:Hc.
    + eexists _, _. split; [by eapply load_playlist_contended|by repeat constructor].
    + eexists _, _. split; [by eapply load_playlist_unreadable|by repeat constructor].
  - exists [], []. rewrite extend_nil. split; [by apply load_playlist_absent|constructor].
Qed.

Lemma get_next_item_logs w :
  ∃ r w', get_next_item w = (Ok r, w')
          ∧ ∀ command, handler_runs command (logged w') = handler_runs command (logged w).
Proof.
  destruct (load_playlist_logs w) as (evs & lgs & Hload & Hnone).
  eexists _, _. split.
  - unfold get_next_item. unfold mbind, St_bind, bind, ret. rewrite Hload. reflexivity.
  - intros command. by apply handler_runs_extend.
Qed.

Lemma set_now_playing_logs entry now w :
  ∃ w', set_now_playing entry now w = (Ok tt, w')
        ∧ ∀ command, handler_runs command (logged w') = handler_runs command (logged w).
Proof.
  destruct w as [pl np ct busy tr lg]. unfold set_now_playing, getitem. unfold_m. simpl.
  destruct (entry !! "title"); eexists; (split; [reflexivity|]); intros command; simpl;
    rewrite handler_runs_app; unfold handler_runs at 2; simpl; lia.
Qed.

Section HandlerRuns.
Context {P : Type} `{FFmpegPlayer P}.
Hypothesis stop_stream_total : total (stop_stream (P := P)).
Hypothesis run_once_total : total (run_once (P := P)).
Hypothesis stop_stream_silent : no_handler_lines (stop_stream (P := P)).
Hypothesis run_once_silent : no_handler_lines (run_once (P := P)).

Lemma counts_ret {A} (a : A) : counts (P := P) None (mret a).
Proof. intros s. exists a, s. split; [done|]. intros command. simpl. lia. Qed.

(** A step without a handler line, followed by the rest. *)
Lemma counts_bind_l {A B} k (m : St (ControlManager P * world) A) (f : A → St _ B) :
  counts None m → (∀ a, counts k (f a)) → counts k (m ≫= f).
Proof.
  intros Hm Hf s. destruct (Hm s) as (a & s1 & Hms & H1).
  destruct (Hf a s1) as (b & s2 & Hfs & H2).
  exists b, s2. unfold mbind, St_bind, bind. rewrite Hms. split; [done|].
  intros command. rewrite H2, H1. simpl. lia.
Qed.

(** The handler's own line, followed by a rest without one. *)
Lemma counts_bind_r {A B} k (m : St (ControlManager P * world) A) (f : A → St _ B) :
  counts k m → (∀ a, counts None (f a)) → counts k (m ≫= f).
Proof.
  intros Hm Hf s. destruct (Hm s) as (a & s1 & Hms & H1).
  destruct (Hf a s1) as (b & s2 & Hfs & H2).
  exists b, s2. unfold mbind, St_bind, bind. rewrite Hms. split; [done|].
  intros command. rewrite H2, H1. simpl. lia.
Qed.

Lemma counts_log l msg : counts (P := P) (handler_of_line (l, msg)) (in_world (log l msg)).
Proof.
  intros [cm w]. exists tt, (cm, add_log l msg w). split; [done|].
  intros command. apply handler_runs_add_log.
Qed.

Lemma counts_set_paused b : counts None (set_paused (P := P) b).
Proof. intros [cm w]. eexists _, _. split; [reflexivity|]. intros c. simpl. lia. Qed.

Lemma counts_get_paused : counts None (get_paused (P := P)).
Proof. intros [cm w]. eexists _, _. split; [reflexivity|]. intros c. simpl. lia. Qed.

Lemma counts_call_player c : counts None (call_player c).
Proof.
  intros [cm w]. unfold call_player. destruct c.
  - destruct (stop_stream_total (player cm, w)) as ([] & [p' w'] & Hs). rewrite Hs.
    eexists _, _. split; [reflexivity|]. intros command. simpl.
    rewrite (stop_stream_silent command _ _ _ _ _ Hs). lia.
  - destruct (run_once_total (player cm, w)) as ([] & [p' w'] & Hs). rewrite Hs.
    eexists _, _. split; [reflexivity|]. intros command. simpl.
    rewrite (run_once_silent command _ _ _ _ _ Hs). lia.
Qed.

Lemma counts_get_next_item : counts None (in_world (P := P) get_next_item).
Proof.
  intros [cm w]. destruct (get_next_item_logs w) as (r & w' & Hg & Hruns).
  exists r, (cm, w'). unfold in_world. rewrite Hg. split; [done|].
  intros command. simpl. rewrite Hruns. lia.
Qed.

Lemma counts_set_now_playing entry now :
  counts None (in_world (P := P) (set_now_playing entry now)).
Proof.
  intros [cm w]. destruct (set_now_playing_logs entry now w) as (w' & Hs & Hruns).
  exists tt, (cm, w'). unfold in_world. rewrite Hs. split; [done|].
  intros command. simpl. rewrite Hruns. lia.
Qed.

Ltac counts_none :=
  repeat match goal with
    | |- ∀ _, _ => intros
    | |- counts None (mret _) => apply counts_ret
    | |- counts None (set_paused _) => apply counts_set_paused
    | |- counts None (call_player _) => apply counts_call_player
    | |- counts None (in_world get_next_item) => apply counts_get_next_item
    | |- counts None (in_world (set_now_playing _ _)) => apply counts_set_now_playing
    | |- counts None (in_world (log ?l ?msg)) => apply (counts_log l msg)
    | |- counts None (_ ≫= _) => apply counts_bind_l
    | |- counts None (if ?b then _ else _) => destruct b
    | |- counts None (match ?x with _ => _ end) => destruct x
    end.

Lemma counts_handle_pause user now : counts (Some "pause") (_handle_pause user now).
Proof.
  unfold _handle_pause. apply counts_bind_l; [apply counts_get_paused|].
  intros [|]; [apply (counts_log INFO "Already paused. Ignoring.")|].
  apply counts_bind_r; [apply (counts_log INFO "Playback paused")|]. counts_none.
Qed.

Lemma counts_handle_resume user now : counts (Some "resume") (_handle_resume user now).
Proof.
  unfold _handle_resume. apply counts_bind_l; [apply counts_get_paused|].
  intros [|]; cbn [negb]; [|apply (counts_log INFO "Already playing. Ignoring resume.")].
  apply counts_bind_r; [apply (counts_log INFO "Playback resumed")|]. counts_none.
Qed.

Lemma counts_handle_skip user now : counts (Some "skip") (_handle_skip user now).
Proof.
  unfold _handle_skip.
  apply counts_bind_r; [apply (counts_log INFO "Skip command issued")|]. counts_none.
Qed.

Lemma counts_handle_stop user now : counts (Some "stop") (_handle_stop user now).
Proof.
  unfold _handle_stop.
  apply counts_bind_r; [apply (counts_log INFO "Playback stopped")|]. counts_none.
Qed.

Lemma counts_handle_reload user now :
  counts (P := P) (Some "reload") (_handle_reload user now).
Proof. unfold _handle_reload. apply (counts_log INFO "Reloading configuration"). Qed.

(** Applying a valid command runs the handler of its kind, once. *)
Lemma counts_apply_command command user now :
  command ∈ VALID_COMMANDS → counts (Some command) (_apply_command command user now).
Proof.
  unfold VALID_COMMANDS. intros Hin.
  apply elem_of_cons in Hin as [->|Hin]; [apply counts_handle_pause|].
  apply elem_of_cons in Hin as [->|Hin]; [apply counts_handle_resume|].
  apply elem_of_cons in Hin as [->|Hin]; [apply counts_handle_skip|].
  apply elem_of_cons in Hin as [->|Hin]; [apply counts_handle_stop|].
  apply elem_of_cons in Hin as [->|Hin]; [apply counts_handle_reload|].
  by apply elem_of_nil in Hin.
Qed.

(** One item of the control document: the handler of a kind runs as often
    as a request of that kind passes the deduplication. *)
Lemma process_command_counts now command pl s :
  ∃ s', process_command now command pl s = (Ok tt, s')
        ∧ ids_of s' = dedup_step (ids_of s) (command, pl)
        ∧ ∀ c, (handler_runs c (logged s'.2) + kind_count c (applied s.1)
                = handler_runs c (logged s.2) + kind_count c (applied s'.1))%nat.
Proof.
  destruct (process_command_dedup stop_stream_total run_once_total now command pl s)
    as (s' & Hs' & Hids).
  exists s'. split; [done|]. split; [done|].
  revert Hs' Hids. unfold process_command, dedup_step, ids_of.
  destruct s as [cm w]. cbn [fst snd].
  destruct (decide (command ∈ VALID_COMMANDS)) as [Hv|Hv].
  2:{ rewrite !bool_decide_eq_false_2 by done. cbn [negb]. intros [= <-] _ c.
      cbn [fst snd]. rewrite handler_runs_add_log. simpl. lia. }
  rewrite !bool_decide_eq_true_2 by done. cbn [negb].
  destruct (p_id pl) as [request_id|].
  2:{ intros [= <-] _ c. cbn [fst snd]. rewrite handler_runs_add_log. simpl. lia. }
  destruct (String.eqb request_id EmptyString).
  { intros [= <-] _ c. cbn [fst snd]. rewrite handler_runs_add_log. simpl. lia. }
  unfold mbind at 1. unfold St_bind, bind at 1. unfold _is_duplicate at 1.
  destruct (bool_decide (last_request_ids cm !! command = Some request_id)).
  { intros [= <-] _ c. cbn [fst snd]. rewrite handler_runs_add_log. simpl. lia. }
  unfold mbind, St_bind, bind, in_world, log, record_request.
  match goal with |- context [_apply_command ?cmd ?u ?n ?st] =>
    destruct (counts_apply_command cmd u n Hv st) as ([] & s2 & Hrun & Hruns) end.
  rewrite Hrun. intros [= <-] [= _ Happ] c.
  rewrite Hruns, Happ. cbn [fst snd applied].
  rewrite handler_runs_add_log, kind_count_snoc. cbn [fst].
  assert (handler_of_line (INFO, "Received command") = None) as -> by reflexivity.
  rewrite (bool_decide_eq_false_2 (None = Some c)) by done.
  destruct (decide (command = c)) as [->|Hne].
  - rewrite !bool_decide_eq_true_2 by done. lia.
  - rewrite !bool_decide_eq_false_2 by congruence. lia.
Qed.

Lemma process_commands_counts now d : ∀ s,
  ∃ s', process_commands now d s = (Ok tt, s')
        ∧ ids_of s' = foldl dedup_step (ids_of s) d
        ∧ ∀ c, (handler_runs c (logged s'.2) + kind_count c (applied s.1)
                = handler_runs c (logged s.2) + kind_count c (applied s'.1))%nat.
Proof.
  induction d as [|[command pl] d IH]; intros s; simpl.
  - exists s. by repeat split.
  - destruct (process_command_counts now command pl s) as (s1 & Hs1 & Hids1 & Hr1).
    destruct (IH s1) as (s2 & Hs2 & Hids2 & Hr2).
    exists s2. unfold mbind, St_bind, bind. rewrite Hs1, Hs2.
    split; [done|]. split; [by rewrite Hids2, Hids1|].
    intros c. specialize (Hr1 c). specialize (Hr2 c). lia.
Qed.

Lemma polls_counts now docs : ∀ s,
  ∃ s', polls now docs s = (Ok tt, s')
        ∧ ids_of s' = foldl (foldl dedup_step) (ids_of s) docs
        ∧ ∀ c, (handler_runs c (logged s'.2) + kind_count c (applied s.1)
                = handler_runs c (logged s.2) + kind_count c (applied s'.1))%nat.
Proof.
  induction docs as [|d docs IH]; intros s; simpl.
  - exists s. by repeat split.
  - destruct (process_commands_counts now d s) as (s1 & Hs1 & Hids1 & Hr1).
    destruct (IH s1) as (s2 & Hs2 & Hids2 & Hr2).
    exists s2. unfold mbind, St_bind, bind, try_except. rewrite Hs1, Hs2.
    split; [done|]. split; [by rewrite Hids2, Hids1|].
    intros c. specialize (Hr1 c). specialize (Hr2 c). lia.
Qed.

End HandlerRuns.

(** The requests of a kind that pass the deduplication of the spec. *)
Lemma dedup_step_kind_other ids command' pl command :
  command' ≠ command →
  kind_count command (dedup_step ids (command', pl)).2 = kind_count command ids.2.
Proof.
  intros Hne. destruct ids as [last done]. unfold dedup_step.
  destruct (bool_decide (command' ∈ VALID_COMMANDS)); [|done].
  destruct (p_id pl) as [rid'|]; [|done].
  destruct (String.eqb rid' EmptyString); [done|].
  destruct (bool_decide (last !! command' = Some rid')); [done|].
  simpl. rewrite kind_count_snoc. simpl. rewrite bool_decide_eq_false_2 by done. lia.
Qed.

Lemma dedup_fold_kind_absent command d : ∀ ids,
  command ∉ (d.*1) →
  kind_count command (foldl dedup_step ids d).2 = kind_count command ids.2.
Proof.
  induction d as [|[command' pl] d IH]; intros ids Hnotin; [done|].
  simpl in *. apply not_elem_of_cons in Hnotin as [Hne Hnotin].
  rewrite (IH (dedup_step ids (command', pl)) Hnotin).
  apply dedup_step_kind_other. congruence.
Qed.

Lemma dedup_fold_kind_recorded command pl request_id d ids :
  NoDup (d.*1) → (command, pl) ∈ d → p_id pl = Some request_id →
  ids.1 !! command = Some request_id →
  kind_count command (foldl dedup_step ids d).2 = kind_count command ids.2.
Proof.
  intros Hnd Hin Hid Hlast.
  destruct (observed_once d command pl Hnd Hin) as (d1 & d2 & -> & Hn1 & Hn2).
  rewrite foldl_app. simpl.
  destruct (dedup_fold_absent command request_id d1 ids Hn1) as [Hl1 _].
  rewrite (dedup_step_recorded _ _ _ request_id Hid) by congruence.
  rewrite (dedup_fold_kind_absent command d2 _ Hn2).
  by apply dedup_fold_kind_absent.
Qed.

Lemma dedup_fold_kind_fresh command pl request_id d ids :
  NoDup (d.*1) → (command, pl) ∈ d →
  command ∈ VALID_COMMANDS → p_id pl = Some request_id → request_id ≠ EmptyString →
  ids.1 !! command ≠ Some request_id →
  kind_count command (foldl dedup_step ids d).2 = S (kind_count command ids.2).
Proof.
  intros Hnd Hin Hvalid Hid Hne Hlast.
  destruct (observed_once d command pl Hnd Hin) as (d1 & d2 & -> & Hn1 & Hn2).
  rewrite foldl_app. simpl.
  destruct (dedup_fold_absent command request_id d1 ids Hn1) as [Hl1 _].
  rewrite (dedup_step_fresh _ _ _ request_id Hvalid Hid Hne) by congruence.
  rewrite (dedup_fold_kind_absent command d2 _ Hn2). simpl.
  rewrite kind_count_snoc. simpl. rewrite bool_decide_eq_true_2 by done.
  rewrite (dedup_fold_kind_absent command d1 _ Hn1). lia.
Qed.

Lemma dedup_polls_kind_recorded command request_id docs : ∀ ids,
  Forall (observes command request_id) docs →
  ids.1 !! command = Some request_id →
  kind_count command (foldl (foldl dedup_step) ids docs).2 = kind_count command ids.2.
Proof.
  induction docs as [|d docs IH]; intros ids Hdocs Hlast; [done|].
  apply Forall_cons in Hdocs as [(Hnd & pl & Hin & Hid) Hdocs]. simpl.
  destruct (dedup_fold_recorded command pl request_id d ids Hnd Hin Hid Hlast) as [Hl _].
  rewrite (IH (foldl dedup_step ids d) Hdocs Hl).
  by eapply dedup_fold_kind_recorded.
Qed.

Lemma null_player_silent_stop : no_handler_lines (stop_stream (P := unit)).
Proof. intros command p w r p' w' [= <- <- <-]. done. Qed.

Lemma null_player_silent_run : no_handler_lines (run_once (P := unit)).
Proof. intros command p w r p' w' [= <- <- <-]. done. Qed.



(** ** The supervisor *)

Lemma assoc_set_keys {V} k (v : V) d x :
  x ∈ (assoc_set k v d).*1 ↔ x = k ∨ x ∈ d.*1.
Proof.
  induction d as [|[k' v'] d IH]; csimpl.
  - rewrite list_elem_of_singleton, elem_of_nil. tauto.
  - destruct (String.eqb_spec k k') as [->|Hne]; csimpl.
    + rewrite !elem_of_cons. tauto.
    + rewrite !elem_of_cons, IH. tauto.
Qed.

Lemma assoc_set_same_keys {V} k (v : V) d :
  k ∈ d.*1 → (assoc_set k v d).*1 = d.*1.
Proof.
  induction d as [|[k' v'] d IH]; csimpl.
  - by intros ?%elem_of_nil.
  - destruct (String.eqb_spec k k') as [->|Hne]; csimpl; [done|].
    intros [?|Hin]%elem_of_cons; [done|]. by rewrite IH.
Qed.

Lemma assoc_get_set {V} k (v : V) d : assoc_get k (assoc_set k v d) = Some v.
Proof.
  induction d as [|[k' v'] d IH]; simpl.
  - by rewrite String.eqb_refl.
  - destruct (String.eqb_spec k k') as [->|Hne]; simpl.
    + by rewrite String.eqb_refl.
    + by apply String.eqb_neq in Hne as ->.
Qed.

Lemma assoc_get_keys {V} k (d : list (string * V)) :
  k ∈ d.*1 → is_Some (assoc_get k d).
Proof.
  induction d as [|[k' v'] d IH]; csimpl.
  - by intros ?%elem_of_nil.
  - destruct (String.eqb_spec k k') as [->|Hne]; [by eexists|].
    intros [?|Hin]%elem_of_cons; [done|]. by apply IH.
Qed.

Lemma monitor_restarts_app name l evs :
  monitor_restarts name (l ++ evs)
  = (monitor_restarts name l + monitor_restarts name evs)%nat.
Proof. unfold monitor_restarts. by rewrite List.filter_app, length_app. Qed.

Lemma counter_insert_eq name c s :
  default 0 (<[name := c]> (restart_counters s) !! name) = c.
Proof. by rewrite lookup_insert_eq. Qed.

(** [start_thread] returns, appends to the log no restart of the monitor,
    and keeps the counters' values. *)
Lemma start_thread_inv name s :
  sv_inv s →
  ∃ s' evs, start_thread name s = (Ok tt, s') ∧ sv_inv s'
            ∧ sv_log s' = sv_log s ++ evs
            ∧ (∀ name', monitor_restarts name' evs = 0)
            ∧ (∀ name', counter name' s' = counter name' s)
            ∧ (is_alive name s = false →
               evs = [SvStarted name] ∧ is_alive name s' = true).
Proof.
  intros (Hcount & Hmax & Hkeys). unfold start_thread.
  destruct (is_alive name s) eqn:Halive.
  - eexists _, [SvAlreadyRunning name]. split; [reflexivity|].
    split; [|by repeat split].
    split; [|split; [done|done]].
    intros name'. simpl. rewrite monitor_restarts_app. simpl.
    by rewrite Hcount, Nat.add_0_r.
  - eexists _, [SvStarted name]. split; [reflexivity|].
    assert (∀ name', default 0 (match restart_counters s !! name with
                                 | Some _ => restart_counters s
                                 | None => <[name:=0]> (restart_counters s)
                                 end !! name') = counter name' s) as Hsame.
    { intros name'. unfold counter.
      destruct (restart_counters s !! name) eqn:Hn; [done|].
      destruct (decide (name = name')) as [<-|Hne].
      - by rewrite lookup_insert_eq, Hn.
      - by rewrite lookup_insert_ne. }
    split; [|split; [done|split; [done|split; [exact Hsame|]]]].
    + split; [|split].
      * intros name'. simpl. rewrite monitor_restarts_app. simpl.
        unfold counter. simpl. by rewrite Hsame, Hcount, Nat.add_0_r.
      * intros name'. unfold counter. simpl. rewrite Hsame. apply Hmax.
      * intros name'. simpl. intros [->|Hin]%assoc_set_keys.
        -- split; [|by apply elem_of_union_l, elem_of_singleton].
           destruct (restart_counters s !! name) eqn:Hn; [by rewrite Hn|].
           by rewrite lookup_insert_eq.
        -- destruct (Hkeys name' Hin) as [[c Hc] Ht]. split; [|by apply elem_of_union_r].
           destruct (restart_counters s !! name) eqn:Hn; [by rewrite Hc|].
           destruct (decide (name = name')) as [<-|Hne]; [congruence|].
           by rewrite lookup_insert_ne, Hc.
    + intros _. split; [done|]. unfold is_alive. simpl. by rewrite assoc_get_set.
Qed.

Lemma worker_dies_inv name s :
  sv_inv s →
  ∃ s', worker_dies name s = (Ok tt, s') ∧ sv_inv s' ∧ sv_log s' = sv_log s
        ∧ restart_counters s' = restart_counters s.
Proof.
  intros (Hcount & Hmax & Hkeys). unfold worker_dies.
  destruct (assoc_get name (threads s)) eqn:Hget; [|by eexists].
  eexists. split; [reflexivity|]. split; [|done].
  split; [done|]. split; [done|].
  intros name'. simpl. intros [->|Hin]%assoc_set_keys; [|by apply Hkeys].
  apply Hkeys. destruct (decide (name ∈ (threads s).*1)) as [|Hnot]; [done|].
  exfalso. clear -Hget Hnot. induction (threads s) as [|[k v] d IH]; [done|].
  simpl in Hget. csimpl in Hnot. apply not_elem_of_cons in Hnot as [Hne Hnot].
  apply String.eqb_neq in Hne. rewrite Hne in Hget. by apply IH.
Qed.

Lemma manual_restart_inv name s :
  sv_inv s →
  ∃ s' evs, manual_restart name s = (Ok tt, s') ∧ sv_inv s'
            ∧ sv_log s' = sv_log s ++ evs
            ∧ (∀ name', monitor_restarts name' evs = 0)
            ∧ (∀ name', counter name' s' = counter name' s).
Proof.
  intros Hinv. unfold manual_restart. unfold mbind, St_bind, bind.
  destruct (bool_decide (name ∈ thread_targets s)); simpl.
  - destruct (start_thread_inv name s Hinv) as (s' & evs & -> & ? & ? & ? & ? & _).
    by eexists _, _.
  - destruct Hinv as (Hcount & Hmax & Hkeys).
    eexists _, [SvNoSuchThread name]. split; [reflexivity|].
    split; [|done]. split; [|done].
    intros name'. simpl. rewrite monitor_restarts_app. simpl.
    by rewrite Hcount, Nat.add_0_r.
Qed.

Lemma is_attempt_of_same name n : is_attempt_of name (SvAttempt name n) = true.
Proof. apply String.eqb_refl. Qed.

(** What one step of the monitor does with a dead worker, under and at the
    ceiling. *)
Lemma monitor_one_dead name s :
  sv_inv s → name ∈ (threads s).*1 → is_alive name s = false →
  ∃ s', monitor_one name s = (Ok tt, s') ∧ sv_inv s'
        ∧ (threads s').*1 = (threads s).*1
        ∧ if decide (counter name s < MAX_RESTART_ATTEMPTS)%nat
          then sv_log s' = sv_log s ++ [SvNotAlive name; SvAttempt name (counter name s + 1);
                                       SvSleep RESTART_BACKOFF; SvStarted name]
               ∧ counter name s' = S (counter name s)
               ∧ is_alive name s' = true
          else sv_log s' = sv_log s ++ [SvNotAlive name; SvMaxReached name]
               ∧ restart_counters s' = restart_counters s
               ∧ threads s' = threads s.
Proof.
  intros (Hcount & Hmax & Hkeys) Hin Halive.
  destruct (Hkeys name Hin) as [[c Hc] Htarget].
  assert (counter name s = c) as Hcounter by (unfold counter; by rewrite Hc).
  unfold monitor_one, mbind, St_bind, bind. rewrite Halive.
  cbn -[Nat.leb MAX_RESTART_ATTEMPTS]. rewrite Hc, Hcounter.
  change (default 0 (Some c)) with c.
  destruct (decide (c < MAX_RESTART_ATTEMPTS)%nat) as [Hlt|Hge].
  - rewrite (proj2 (Nat.leb_gt _ _) Hlt).
    unfold increment_counter. cbn. rewrite Hc.
    unfold try_except, target_of. cbn.
    rewrite bool_decide_eq_true_2 by done.
    unfold start_thread, is_alive in *. cbn. rewrite Halive. cbn.
    rewrite lookup_insert_eq.
    eexists. split; [reflexivity|]. cbn.
    split; [|split; [by apply assoc_set_same_keys|]].
    + split; [|split].
      * intros name'. cbn [sv_log]. rewrite <- !app_assoc. rewrite monitor_restarts_app.
        unfold counter. cbn [restart_counters]. rewrite Hcount.
        destruct (decide (name = name')) as [<-|Hne].
        -- rewrite lookup_insert_eq. unfold monitor_restarts. cbn.
           rewrite String.eqb_refl. cbn. unfold counter. rewrite Hc. cbn. lia.
        -- rewrite lookup_insert_ne by done. unfold monitor_restarts. cbn.
           apply String.eqb_neq in Hne. rewrite Hne. cbn. unfold counter. lia.
      * intros name'. unfold counter. cbn.
        destruct (decide (name = name')) as [<-|Hne].
        -- rewrite lookup_insert_eq. cbn. lia.
        -- rewrite lookup_insert_ne by done. apply Hmax.
      * intros name'. cbn. rewrite assoc_set_same_keys by done. intros Hin'.
        destruct (Hkeys name' Hin') as [[c' Hc'] Ht'].
        split; [|by apply elem_of_union_r].
        destruct (decide (name = name')) as [<-|Hne].
        -- by rewrite lookup_insert_eq.
        -- by rewrite lookup_insert_ne.
    + split; [by rewrite <- !app_assoc|]. split.
      * unfold counter. cbn. by rewrite lookup_insert_eq.
      * by rewrite assoc_get_set.
  - rewrite (proj2 (Nat.leb_le _ _)) by lia. cbn.
    eexists. split; [reflexivity|]. cbn.
    split; [|split; [done|]].
    + split; [|done]. intros name'. cbn [sv_log]. rewrite <- !app_assoc, monitor_restarts_app.
      rewrite Hcount. unfold monitor_restarts, counter. cbn. lia.
    + split; [by rewrite <- !app_assoc|done].
Qed.

Lemma monitor_one_inv name s :
  sv_inv s → name ∈ (threads s).*1 →
  ∃ s' evs, monitor_one name s = (Ok tt, s') ∧ sv_inv s'
            ∧ (threads s').*1 = (threads s).*1
            ∧ sv_log s' = sv_log s ++ evs.
Proof.
  intros Hinv Hin. destruct (is_alive name s) eqn:Halive.
  - exists s, []. unfold monitor_one, mbind, St_bind, bind. rewrite Halive.
    by rewrite app_nil_r.
  - destruct (monitor_one_dead name s Hinv Hin Halive) as (s' & Hrun & Hinv' & Hkeys & Hlog).
    destruct (decide _); destruct Hlog as (Hlog & _); eauto 10.
Qed.

Lemma monitor_names_inv names : ∀ s,
  sv_inv s → (∀ name, name ∈ names → name ∈ (threads s).*1) →
  ∃ s' evs, monitor_names names s = (Ok tt, s') ∧ sv_inv s'
            ∧ (threads s').*1 = (threads s).*1
            ∧ sv_log s' = sv_log s ++ evs.
Proof.
  induction names as [|name names IH]; intros s Hinv Hsub; simpl.
  - exists s, []. by rewrite app_nil_r.
  - destruct (monitor_one_inv name s Hinv) as (s1 & evs1 & Hone & Hinv1 & Hkeys1 & Hlog1).
    { apply Hsub. by left. }
    destruct (IH s1 Hinv1) as (s2 & evs2 & Hrest & Hinv2 & Hkeys2 & Hlog2).
    { intros name' Hin. rewrite Hkeys1. apply Hsub. by right. }
    exists s2, (evs1 ++ evs2). unfold mbind, St_bind, bind. rewrite Hone, Hrest.
    split; [done|]. split; [done|]. split; [congruence|].
    by rewrite Hlog2, Hlog1, app_assoc.
Qed.

Lemma monitor_round_inv s :
  sv_inv s →
  ∃ s' evs, monitor_round s = (Ok tt, s') ∧ sv_inv s' ∧ sv_log s' = sv_log s ++ evs.
Proof.
  intros Hinv.
  destruct (monitor_names_inv ((threads s).*1) s Hinv) as (s1 & evs & Hrun & Hinv1 & _ & Hlog);
    [done|].
  unfold monitor_round, mbind, St_bind, bind. rewrite Hrun. simpl.
  eexists _, (evs ++ [SvSleep 3]). split; [reflexivity|]. simpl.
  split; [|by rewrite Hlog, app_assoc].
  destruct Hinv1 as (Hcount & Hmax & Hkeys). split; [|done].
  intros name. cbn [sv_log]. rewrite monitor_restarts_app, Hcount.
  unfold monitor_restarts, counter. cbn. lia.
Qed.

Lemma sv_step_inv a s :
  sv_inv s →
  ∃ s' evs, sv_step a s = (Ok tt, s') ∧ sv_inv s' ∧ sv_log s' = sv_log s ++ evs.
Proof.
  intros Hinv. destruct a as [name|name| |name]; simpl.
  - destruct (start_thread_inv name s Hinv) as (s' & evs & ? & ? & ? & _). eauto.
  - destruct (worker_dies_inv name s Hinv) as (s' & ? & ? & Hlog & _).
    exists s', []. by rewrite app_nil_r.
  - by apply monitor_round_inv.
  - destruct (manual_restart_inv name s Hinv) as (s' & evs & ? & ? & ? & _). eauto.
Qed.

Lemma sv_run_inv acts : ∀ s,
  sv_inv s →
  ∃ s' evs, sv_run acts s = (Ok tt, s') ∧ sv_inv s' ∧ sv_log s' = sv_log s ++ evs.
Proof.
  induction acts as [|a acts IH]; intros s Hinv; simpl.
  - exists s, []. by rewrite app_nil_r.
  - destruct (sv_step_inv a s Hinv) as (s1 & evs1 & Hstep & Hinv1 & Hlog1).
    destruct (IH s1 Hinv1) as (s2 & evs2 & Hrun & Hinv2 & Hlog2).
    exists s2, (evs1 ++ evs2). unfold mbind, St_bind, bind. rewrite Hstep, Hrun.
    split; [done|]. split; [done|]. by rewrite Hlog2, Hlog1, app_assoc.
Qed.

Lemma sv_inv_init : sv_inv sv_init.
Proof.
  split; [done|]. split.
  - intros name. unfold counter. simpl. rewrite lookup_empty. simpl.
    unfold MAX_RESTART_ATTEMPTS. lia.
  - intros name Hin. by apply elem_of_nil in Hin.
Qed.

(** C9: at every state the supervisor reaches, the monitor has restarted a
    worker as often as its counter says and at most [MAX_RESTART_ATTEMPTS]
    times; a dead worker whose counter is under the ceiling is restarted
    after the backoff sleep and the increment of its counter; a dead worker
    whose counter has reached the ceiling is left dead, a critical line is
    logged for it, and the monitor never restarts it again. *)
Theorem monitor_restarts_at_most_ceiling acts name :
  ∃ s, sv_run acts sv_init = (Ok tt, s)
       ∧ monitor_restarts name (sv_log s) = counter name s
       ∧ (monitor_restarts name (sv_log s) ≤ MAX_RESTART_ATTEMPTS)%nat
       ∧ (name ∈ (threads s).*1 → is_alive name s = false →
          (counter name s < MAX_RESTART_ATTEMPTS)%nat →
          ∃ s', monitor_one name s = (Ok tt, s')
                ∧ sv_log s' = sv_log s ++ [SvNotAlive name;
                                           SvAttempt name (counter name s + 1);
                                           SvSleep RESTART_BACKOFF; SvStarted name]
                ∧ counter name s' = S (counter name s)
                ∧ is_alive name s' = true)
       ∧ (name ∈ (threads s).*1 → is_alive name s = false →
          (MAX_RESTART_ATTEMPTS ≤ counter name s)%nat →
          ∃ s', monitor_one name s = (Ok tt, s')
                ∧ sv_log s' = sv_log s ++ [SvNotAlive name; SvMaxReached name]
                ∧ restart_counters s' = restart_counters s
                ∧ threads s' = threads s)
       ∧ ((MAX_RESTART_ATTEMPTS ≤ counter name s)%nat →
          ∀ more, ∃ s', sv_run more s = (Ok tt, s')
                        ∧ monitor_restarts name (sv_log s')
                          = monitor_restarts name (sv_log s)).
Proof.
  destruct (sv_run_inv acts sv_init sv_inv_init) as (s & evs & Hrun & Hinv & _).
  exists s. split; [done|].
  pose proof Hinv as (Hcount & Hmax & Hkeys).
  split; [apply Hcount|]. split; [rewrite Hcount; apply Hmax|].
  split; [|split].
  - intros Hin Halive Hlt.
    destruct (monitor_one_dead name s Hinv Hin Halive) as (s' & Hone & _ & _ & Hcase).
    destruct (decide _); [|lia]. exists s'. tauto.
  - intros Hin Halive Hge.
    destruct (monitor_one_dead name s Hinv Hin Halive) as (s' & Hone & _ & _ & Hcase).
    destruct (decide _); [lia|]. exists s'. tauto.
  - intros Hge more.
    destruct (sv_run_inv more s Hinv) as (s' & evs' & Hmore & (Hcount' & Hmax' & _) & Hlog).
    exists s'. split; [done|].
    pose proof (Hcount' name) as Hc'. pose proof (Hmax' name) as Hm'.
    rewrite Hlog, monitor_restarts_app in Hc' |- *.
    rewrite Hcount in Hc' |- *. lia.
Qed.

(** A worker that fails at once, before its first restart and after its
    fifth. *)
Lemma monitor_restarts_at_most_ceiling_witness :
  (let s := snd (sv_run (failing_worker 0) sv_init) in
   ∃ s', monitor_one "Player" s = (Ok tt, s')
         ∧ sv_log s' = sv_log s ++ [SvNotAlive "Player"; SvAttempt "Player" 1;
                                    SvSleep RESTART_BACKOFF; SvStarted "Player"]
         ∧ counter "Player" s' = 1
         ∧ is_alive "Player" s' = true)
  ∧ (let s := snd (sv_run (failing_worker 5) sv_init) in
     monitor_restarts "Player" (sv_log s) = 5
     ∧ (∃ s', monitor_one "Player" s = (Ok tt, s')
              ∧ sv_log s' = sv_log s ++ [SvNotAlive "Player"; SvMaxReached "Player"]
              ∧ restart_counters s' = restart_counters s
              ∧ threads s' = threads s)
     ∧ ∀ more, ∃ s', sv_run more s = (Ok tt, s')
                     ∧ monitor_restarts "Player" (sv_log s') = 5).
Proof.
  split.
  - intros s.
    destruct (monitor_restarts_at_most_ceiling (failing_worker 0) "Player")
      as (s0 & Hrun & _ & _ & Hunder & _ & _).
    assert (s0 = s) as -> by (unfold s; rewrite Hrun; reflexivity).
    apply Hunder.
    + vm_compute. apply list_elem_of_here.
    + vm_compute. reflexivity.
    + vm_compute. lia.
  - intros s.
    destruct (monitor_restarts_at_most_ceiling (failing_worker 5) "Player")
      as (s0 & Hrun & Hcount & _ & _ & Hat & Hnever).
    assert (s0 = s) as -> by (unfold s; rewrite Hrun; reflexivity).
    assert (counter "Player" s = 5) as Hfive by (vm_compute; reflexivity).
    split; [by rewrite Hcount|]. split.
    + apply Hat.
      * vm_compute. apply list_elem_of_here.
      * vm_compute. reflexivity.
      * rewrite Hfive. unfold MAX_RESTART_ATTEMPTS. lia.
    + intros more. destruct (Hnever ltac:(rewrite Hfive; unfold MAX_RESTART_ATTEMPTS; lia) more)
        as (s' & Hmore & Hsame).
      exists s'. split; [done|]. by rewrite Hsame, Hcount.
Defined.

(** * Further properties of the code *)

(** ** pin_next, remove_by_id, update_entry *)

Lemma find_id_other entry_id q : ∀ i,
  Forall (other_id entry_id) q → find_id entry_id q i = Ok None.
Proof.
  induction q as [|e q IH]; intros i Hq; [done|].
  apply Forall_cons in Hq as [(v & Hv & Hne) Hq]. simpl. unfold getitem. rewrite Hv.
  rewrite bool_decide_eq_false_2 by done. by apply IH.
Qed.

Lemma find_id_first entry_id before e after : ∀ i,
  Forall (other_id entry_id) before → has_id entry_id e →
  find_id entry_id (before ++ e :: after) i = Ok (Some (i + length before)%nat).
Proof.
  induction before as [|b before IH]; intros i Hb He; simpl.
  - unfold getitem. rewrite He. rewrite bool_decide_eq_true_2 by done.
    by rewrite Nat.add_0_r.
  - apply Forall_cons in Hb as [(v & Hv & Hne) Hb]. unfold getitem. rewrite Hv.
    rewrite bool_decide_eq_false_2 by done. rewrite IH by done.
    do 2 f_equal. lia.
Qed.

(** X1: [pin_next] moves the first entry that carries the id to the front
    of the store and keeps the order of all the others. *)
Theorem pin_next_moves_first_match w before e after entry_id :
  playlist_json w = Some (Json (before ++ e :: after)) →
  contended w PLAYLIST = false →
  Forall (other_id entry_id) before → has_id entry_id e → is_Some (e !! "title") →
  ∃ w', pin_next entry_id w = (Ok true, w')
        ∧ playlist_json w' = Some (Json (e :: before ++ after)).
Proof.
  intros Hq Hc Hb He [t Ht]. eexists. split.
  - unfold pin_next. unfold_m. rewrite (load_playlist_json _ _ Hq Hc).
    rewrite (find_id_first entry_id before e after 0 Hb He). simpl.
    rewrite list_lookup_middle by done.
    erewrite save_playlist_ok; [|exact Hq|exact Hc].
    unfold getitem. rewrite Ht. reflexivity.
  - simpl. by rewrite delete_middle.
Qed.

(** The third of three entries is pinned. *)
Lemma pin_next_moves_first_match_witness :
  let a := _generate_entry "a" "/m/a.mp4" 2 "upload" "u" "id-a" 100 in
  let b := _generate_entry "b" "/m/b.mp4" 2 "upload" "u" "id-b" 101 in
  let c := _generate_entry "c" "/m/c.mp4" 2 "upload" "u" "id-c" 102 in
  ∃ w', pin_next "id-c" (World (Some (Json ([a; b] ++ c :: []))) None None (fun _ => false) [] [])
        = (Ok true, w')
        ∧ playlist_json w' = Some (Json (c :: [a; b] ++ [])).
Proof.
  intros a b c.
  apply (pin_next_moves_first_match _ [a; b] c [] "id-c"); try reflexivity.
  - repeat constructor; eexists; (split; [reflexivity|discriminate]).
  - by eexists.
Defined.

(** X2: [pin_next] on an id that no entry carries returns false and writes
    nothing. *)
Theorem pin_next_absent_id_unchanged w entry_id :
  (∀ q, playlist_json w = Some (Json q) → Forall (other_id entry_id) q) →
  ∃ w', pin_next entry_id w = (Ok false, w')
        ∧ playlist_json w' = playlist_json w
        ∧ ∃ evs, trace w' = trace w ++ evs ∧ no_store_write evs.
Proof.
  intros Hids. destruct (load_playlist_reads w) as (evs & lgs & Hload & Hevs).
  assert (Forall (other_id entry_id) (visible_queue w)) as Hv.
  { unfold visible_queue. destruct (playlist_json w) as [[raw|q|u]|]; try done.
    destruct (contended w PLAYLIST); [done|]. by apply Hids. }
  eexists. split; [|split].
  - unfold pin_next. unfold_m. rewrite Hload.
    rewrite (find_id_other _ _ 0 Hv). reflexivity.
  - done.
  - exists evs. simpl. split; [done|]. by apply no_store_write_reads.
Qed.

Lemma pin_next_absent_id_unchanged_witness :
  ∃ w', pin_next "zz" sample_world = (Ok false, w')
        ∧ playlist_json w' = playlist_json sample_world
        ∧ ∃ evs, trace w' = trace sample_world ++ evs ∧ no_store_write evs.
Proof.
  apply (pin_next_absent_id_unchanged sample_world "zz").
  intros q Hq. injection Hq as <-.
  constructor; [|constructor].
  exists (VStr "a"). split; [reflexivity|discriminate].
Defined.

Lemma without_id_filter entry_id q :
  Forall (fun e => is_Some (e !! "id")) q →
  without_id entry_id q = Ok (filter (fun e => ¬ has_id entry_id e) q).
Proof.
  induction 1 as [|e q [v Hv] _ IH]; [done|].
  simpl. unfold getitem. rewrite Hv, IH. unfold has_id.
  case_bool_decide as Heq.
  - subst v. by rewrite filter_cons_False by (intros Hn; by apply Hn).
  - rewrite filter_cons_True; [done|]. rewrite Hv. congruence.
Qed.

(** X3: [remove_by_id] on an id that some entry carries removes every
    entry that carries it, keeps the others in their order and returns
    true. *)
Theorem remove_by_id_removes_all_matches w q entry_id :
  playlist_json w = Some (Json q) → contended w PLAYLIST = false →
  Forall (fun e => is_Some (e !! "id")) q →
  Exists (has_id entry_id) q →
  ∃ w', remove_by_id entry_id w = (Ok true, w')
        ∧ playlist_json w' = Some (Json (filter (fun e => ¬ has_id entry_id e) q)).
Proof.
  intros Hq Hc Hids Hex. eexists. split.
  - unfold remove_by_id. unfold_m. rewrite (load_playlist_json _ _ Hq Hc).
    rewrite (without_id_filter _ _ Hids).
    apply Exists_exists in Hex as (e & Hin & He).
    rewrite (proj2 (Nat.ltb_lt _ _)) by (eapply length_filter_lt; [exact Hin|tauto]).
    erewrite save_playlist_ok; [reflexivity|exact Hq|exact Hc].
  - done.
Qed.

(** Two of three entries carry the id. *)
Lemma remove_by_id_removes_all_matches_witness :
  let a := _generate_entry "a" "/m/a.mp4" 2 "upload" "u" "dup" 100 in
  let b := _generate_entry "b" "/m/b.mp4" 2 "upload" "u" "id-b" 101 in
  let c := _generate_entry "c" "/m/c.mp4" 2 "upload" "u" "dup" 102 in
  ∃ w', remove_by_id "dup" (World (Some (Json [a; b; c])) None None (fun _ => false) [] [])
        = (Ok true, w')
        ∧ playlist_json w' = Some (Json (filter (fun e => ¬ has_id "dup" e) [a; b; c])).
Proof.
  intros a b c.
  apply (remove_by_id_removes_all_matches _ [a; b; c] "dup"); try reflexivity.
  - repeat constructor; by eexists.
  - apply Exists_cons_hd. reflexivity.
Defined.

Lemma update_first_other entry_id new_data q :
  Forall (other_id entry_id) q → update_first entry_id new_data q = Ok None.
Proof.
  induction 1 as [|e q (v & Hv & Hne) _ IH]; [done|].
  simpl. unfold getitem. rewrite Hv, IH. by rewrite bool_decide_eq_false_2.
Qed.

Lemma update_first_match entry_id new_data before e after :
  Forall (other_id entry_id) before → has_id entry_id e →
  update_first entry_id new_data (before ++ e :: after)
  = Ok (Some (before ++ (new_data ∪ e) :: after)).
Proof.
  induction 1 as [|b before (v & Hv & Hne) _ IH]; intros He; simpl.
  - unfold getitem. rewrite He. by rewrite bool_decide_eq_true_2.
  - unfold getitem. rewrite Hv. rewrite bool_decide_eq_false_2 by done.
    by rewrite IH.
Qed.

(** X4: [update_entry] patches the first entry that carries the id: the
    keys of the patch take the patch's values, the entry's other keys keep
    theirs, and no other entry changes. *)
Theorem update_entry_patches_first_match w before e after entry_id new_data :
  playlist_json w = Some (Json (before ++ e :: after)) →
  contended w PLAYLIST = false →
  Forall (other_id entry_id) before → has_id entry_id e →
  ∃ w' e', update_entry entry_id new_data w = (Ok true, w')
           ∧ playlist_json w' = Some (Json (before ++ e' :: after))
           ∧ ∀ k, e' !! k = match new_data !! k with
                            | Some v => Some v
                            | None => e !! k
                            end.
Proof.
  intros Hq Hc Hb He. exists
    (set_playlist_json (Some (Json (before ++ (new_data ∪ e) :: after)))
       (extend write_hold
          [(DEBUG, "Lock acquired"); (DEBUG, "Lock released");
           (INFO, "JSON written safely"); (DEBUG, "Playlist saved successfully.");
           (INFO, "Updated entry ID")]
          (extend read_hold [(DEBUG, "Lock acquired"); (DEBUG, "Lock released")] w))),
    (new_data ∪ e).
  split; [|split; [done|]].
  - unfold update_entry. unfold_m. rewrite (load_playlist_json _ _ Hq Hc).
    rewrite (update_first_match _ _ _ _ _ Hb He).
    erewrite save_playlist_ok; [|exact Hq|exact Hc].
    unfold set_playlist_json; simpl. by rewrite <- !app_assoc.
  - intros k. rewrite lookup_union. by destruct (new_data !! k), (e !! k).
Qed.

(** The title of the second of two entries is patched. *)
Lemma update_entry_patches_first_match_witness :
  let a := _generate_entry "a" "/m/a.mp4" 2 "upload" "u" "id-a" 100 in
  let b := _generate_entry "b" "/m/b.mp4" 2 "upload" "u" "id-b" 101 in
  ∃ w' e', update_entry "id-b" {[ "title" := VStr "B" ]}
             (World (Some (Json ([a] ++ b :: []))) None None (fun _ => false) [] [])
           = (Ok true, w')
           ∧ playlist_json w' = Some (Json ([a] ++ e' :: []))
           ∧ ∀ k, e' !! k = match ({[ "title" := VStr "B" ]} : gmap string value) !! k with
                            | Some v => Some v
                            | None => b !! k
                            end.
Proof.
  intros a b.
  apply (update_entry_patches_first_match _ [a] b [] "id-b"); try reflexivity.
  repeat constructor; eexists; (split; [reflexivity|discriminate]).
Defined.

(** X5: [update_entry] on an id that no entry carries returns false and
    writes nothing. *)
Theorem update_entry_absent_id_unchanged w entry_id new_data :
  (∀ q, playlist_json w = Some (Json q) → Forall (other_id entry_id) q) →
  ∃ w', update_entry entry_id new_data w = (Ok false, w')
        ∧ playlist_json w' = playlist_json w
        ∧ ∃ evs, trace w' = trace w ++ evs ∧ no_store_write evs.
Proof.
  intros Hids. destruct (load_playlist_reads w) as (evs & lgs & Hload & Hevs).
  assert (Forall (other_id entry_id) (visible_queue w)) as Hv.
  { unfold visible_queue. destruct (playlist_json w) as [[raw|q|u]|]; try done.
    destruct (contended w PLAYLIST); [done|]. by apply Hids. }
  eexists. split; [|split].
  - unfold update_entry. unfold_m. rewrite Hload.
    rewrite (update_first_other _ _ _ Hv). reflexivity.
  - done.
  - exists evs. simpl. split; [done|]. by apply no_store_write_reads.
Qed.

Lemma update_entry_absent_id_unchanged_witness :
  ∃ w', update_entry "zz" {[ "title" := VStr "Z" ]} sample_world = (Ok false, w')
        ∧ playlist_json w' = playlist_json sample_world
        ∧ ∃ evs, trace w' = trace sample_world ++ evs ∧ no_store_write evs.
Proof.
  apply (update_entry_absent_id_unchanged sample_world "zz").
  intros q Hq. injection Hq as <-.
  constructor; [|constructor].
  exists (VStr "a"). split; [reflexivity|discriminate].
Defined.

(** ** Round trips of the store *)

Lemma save_playlist_absent w data :
  playlist_json w = None → contended w PLAYLIST = false →
  ∃ w', save_playlist data w = (Ok tt, w')
        ∧ playlist_json w' = Some (Json data)
        ∧ contended w' = contended w
        ∧ trace w' = trace w ++ EvTouch PLAYLIST :: write_hold.
Proof.
  intros Hq Hc. open_world w. unfold save_playlist, write_locked_json, locked_file.
  step_m Hc. eexists. split; [reflexivity|]. simpl. by rewrite <- ?app_assoc.
Qed.

Lemma save_playlist_writes w data :
  contended w PLAYLIST = false →
  ∃ w', save_playlist data w = (Ok tt, w')
        ∧ playlist_json w' = Some (Json data)
        ∧ contended w' = contended w.
Proof.
  intros Hc. destruct (playlist_json w) as [c|] eqn:Hq.
  - eexists. split; [by eapply save_playlist_ok|done].
  - destruct (save_playlist_absent w data Hq Hc) as (w' & ? & ? & ? & _). eauto.
Qed.

(** X6: whatever [playlist.json] held before, missing and malformed
    included, [load_playlist] after [save_playlist] returns the sequence
    that was saved. *)
Theorem save_then_load_round_trip w data :
  contended w PLAYLIST = false →
  ∃ w1 w2, save_playlist data w = (Ok tt, w1)
           ∧ load_playlist w1 = (Ok data, w2).
Proof.
  intros Hc. destruct (save_playlist_writes w data Hc) as (w1 & Hsave & Hq1 & Hc1).
  exists w1. eexists. split; [done|].
  apply load_playlist_json; [done|]. by rewrite Hc1.
Qed.

(** A store that does not exist yet. *)
Lemma save_then_load_round_trip_witness :
  ∃ w1 w2, save_playlist [sample_video] (World None None None (fun _ => false) [] [])
           = (Ok tt, w1)
           ∧ load_playlist w1 = (Ok [sample_video], w2).
Proof.
  exact (save_then_load_round_trip (World None None None (fun _ => false) [] [])
           [sample_video] eq_refl).
Defined.

Lemma find_get_id_fresh uid q e :
  Forall (fun e' => dict_get e' "id" ≠ VStr uid) q → dict_get e "id" = VStr uid →
  List.find (fun entry => bool_decide (dict_get entry "id" = VStr uid)) (q ++ [e]) = Some e.
Proof.
  induction 1 as [|e' q Hne _ IH]; intros He; simpl.
  - by rewrite bool_decide_eq_true_2.
  - rewrite bool_decide_eq_false_2 by done. by apply IH.
Qed.

(** X7: an entry appended by [add_to_queue] is the one [get_by_id] returns
    for its id, as long as no entry already in the store has that id. *)
Theorem add_then_get_by_id w q title filepath duration source added_by uid now :
  playlist_json w = Some (Json q) → contended w PLAYLIST = false →
  Forall (fun e => dict_get e "id" ≠ VStr uid) q →
  ∃ e w1 w2, add_to_queue title filepath duration source added_by uid now w = (Ok e, w1)
             ∧ get_by_id uid w1 = (Ok (Some e), w2)
             ∧ e !! "id" = Some (VStr uid).
Proof.
  intros Hq Hc Hfresh.
  destruct (add_to_queue_appends w q title filepath duration source added_by uid now Hq Hc)
    as (w1 & Hadd & Hq1 & Hc1 & _).
  eexists _, w1, _. split; [exact Hadd|]. split; [|reflexivity].
  unfold get_by_id. unfold_m. rewrite (load_playlist_json _ _ Hq1) by (by rewrite Hc1).
  rewrite (find_get_id_fresh uid q _ Hfresh) by reflexivity. reflexivity.
Qed.

Lemma add_then_get_by_id_witness :
  ∃ e w1 w2, add_to_queue "b" "/m/b.mp4" 2 "upload" "u" "id-b" 101 sample_world = (Ok e, w1)
             ∧ get_by_id "id-b" w1 = (Ok (Some e), w2)
             ∧ e !! "id" = Some (VStr "id-b").
Proof.
  apply (add_then_get_by_id sample_world [sample_video]); try reflexivity.
  constructor; [|constructor]. discriminate.
Defined.

(** ** get_total_duration *)

Lemma sum_durations_int int_of_str q :
  Forall (fun e => e !! "duration" = None ∨ ∃ d, e !! "duration" = Some (VInt d)) q →
  sum_durations int_of_str q = Ok (foldr (fun e acc => (duration_of e + acc)%Z) 0%Z q).
Proof.
  induction 1 as [|e q He _ IH]; [done|].
  simpl. rewrite IH. unfold dict_get_default, duration_of.
  destruct He as [->|[d ->]]; simpl; [|done].
  done.
Qed.

(** X8: on a store whose entries carry an integer duration or none,
    [get_total_duration] returns the sum of the durations, an entry without
    one counting for zero. *)
Theorem total_duration_is_sum int_of_str w q :
  playlist_json w = Some (Json q) → contended w PLAYLIST = false →
  Forall (fun e => e !! "duration" = None ∨ ∃ d, e !! "duration" = Some (VInt d)) q →
  ∃ w', get_total_duration int_of_str w
        = (Ok (foldr (fun e acc => (duration_of e + acc)%Z) 0%Z q), w')
        ∧ playlist_json w' = playlist_json w.
Proof.
  intros Hq Hc Hd. eexists. split.
  - unfold get_total_duration. unfold_m. rewrite (load_playlist_json _ _ Hq Hc).
    rewrite (sum_durations_int _ _ Hd). reflexivity.
  - done.
Qed.

Lemma total_duration_is_sum_witness :
  ∃ w', get_total_duration (fun _ => None)
          (World (Some (Json [sample_video; {[ "id" := VStr "b" ]}; sample_video]))
             None None (fun _ => false) [] [])
        = (Ok (foldr (fun e acc => (duration_of e + acc)%Z) 0%Z
                 [sample_video; {[ "id" := VStr "b" ]}; sample_video]), w')
        ∧ playlist_json w'
          = Some (Json [sample_video; {[ "id" := VStr "b" ]}; sample_video]).
Proof.
  apply (total_duration_is_sum (fun _ => None)
           (World (Some (Json [sample_video; {[ "id" := VStr "b" ]}; sample_video]))
              None None (fun _ => false) [] [])
           [sample_video; {[ "id" := VStr "b" ]}; sample_video]); try reflexivity.
  apply Forall_cons_2; [right; by eexists|].
  apply Forall_cons_2; [by left|].
  apply Forall_cons_2; [right; by eexists|]. apply Forall_nil_2.
Defined.

Lemma sum_durations_null int_of_str q :
  Exists (fun e => e !! "duration" = Some VNone) q →
  Forall (fun e => ∀ s, e !! "duration" ≠ Some (VStr s)) q →
  sum_durations int_of_str q = Raise TypeError.
Proof.
  induction q as [|e q IH]; intros Hex Hall; [by apply Exists_nil in Hex|].
  apply Forall_cons in Hall as [He Hall]. simpl. unfold dict_get_default.
  apply Exists_cons in Hex as [Hnull|Hex].
  - by rewrite Hnull.
  - rewrite (IH Hex Hall). destruct (e !! "duration") as [[|d|s]|]; simpl; try done.
    by destruct (He s).
Qed.

(** X9: [get_total_duration] does not guard [int(...)]: when an entry of
    the store holds a null duration, and none holds a string, the call
    raises [TypeError] to its caller. *)
Theorem total_duration_raises_on_null int_of_str w q :
  playlist_json w = Some (Json q) → contended w PLAYLIST = false →
  Exists (fun e => e !! "duration" = Some VNone) q →
  Forall (fun e => ∀ s, e !! "duration" ≠ Some (VStr s)) q →
  ∃ w', get_total_duration int_of_str w = (Raise TypeError, w')
        ∧ playlist_json w' = playlist_json w.
Proof.
  intros Hq Hc Hex Hall. eexists. split.
  - unfold get_total_duration. unfold_m. rewrite (load_playlist_json _ _ Hq Hc).
    rewrite (sum_durations_null _ _ Hex Hall). reflexivity.
  - done.
Qed.

Lemma total_duration_raises_on_null_witness :
  ∃ w', get_total_duration (fun _ => None)
          (World (Some (Json [sample_video; {[ "duration" := VNone ]}]))
             None None (fun _ => false) [] [])
        = (Raise TypeError, w')
        ∧ playlist_json w' = Some (Json [sample_video; {[ "duration" := VNone ]}]).
Proof.
  apply (total_duration_raises_on_null (fun _ => None)
           (World (Some (Json [sample_video; {[ "duration" := VNone ]}]))
              None None (fun _ => false) [] [])
           [sample_video; {[ "duration" := VNone ]}]); try reflexivity.
  - apply Exists_cons_tl, Exists_cons_hd. reflexivity.
  - apply Forall_cons_2; [intros s; discriminate|].
    apply Forall_cons_2; [intros s; discriminate|]. apply Forall_nil_2.
Defined.

(** ** set_now_playing and get_now_playing *)

Lemma set_now_playing_writes entry now w :
  ∃ w', set_now_playing entry now w = (Ok tt, w')
        ∧ now_playing_txt w'
          = Some (Json {[ "id" := dict_get entry "id";
                          "filepath" := dict_get entry "filepath";
                          "timestamp" := VInt now ]})
        ∧ playlist_json w' = playlist_json w ∧ contended w' = contended w.
Proof.
  destruct w as [pl np ct busy tr lg]. unfold set_now_playing, getitem. unfold_m. simpl.
  destruct (entry !! "title"); by eexists.
Qed.

Lemma find_filepath_first fp before e after :
  Forall (other_filepath fp) before → e !! "filepath" = Some fp →
  find_filepath fp (before ++ e :: after) = Ok (Some e).
Proof.
  induction 1 as [|b before (v & Hv & Hne) _ IH]; intros He; simpl.
  - unfold getitem. rewrite He. by rewrite bool_decide_eq_true_2.
  - unfold getitem. rewrite Hv. rewrite bool_decide_eq_false_2 by done. by apply IH.
Qed.

Lemma find_filepath_none fp q :
  Forall (other_filepath fp) q → find_filepath fp q = Ok None.
Proof.
  induction 1 as [|b q (v & Hv & Hne) _ IH]; [done|]. simpl.
  unfold getitem. rewrite Hv. by rewrite bool_decide_eq_false_2.
Qed.

Lemma now_data_filepath (i fp t : value) :
  dict_get ({[ "id" := i; "filepath" := fp; "timestamp" := t ]} : gmap string value)
    "filepath" = fp.
Proof.
  unfold dict_get. rewrite lookup_insert_ne by done. by rewrite lookup_insert_eq.
Qed.

Lemma get_now_playing_found path_stem w now_data q entry :
  now_playing_txt w = Some (Json now_data) →
  playlist_json w = Some (Json q) → contended w PLAYLIST = false →
  find_filepath (dict_get now_data "filepath") q = Ok (Some entry) →
  ∃ w', get_now_playing path_stem w = (Ok (Some entry), w').
Proof.
  intros Hn Hq Hc Hf. open_world w. unfold get_now_playing. unfold_m. simpl.
  erewrite load_playlist_json by (simpl; done). rewrite Hf. by eexists.
Qed.

Lemma get_now_playing_missing path_stem w now_data q s :
  now_playing_txt w = Some (Json now_data) →
  playlist_json w = Some (Json q) → contended w PLAYLIST = false →
  find_filepath (dict_get now_data "filepath") q = Ok None →
  now_data !! "filepath" = Some (VStr s) →
  ∃ w', get_now_playing path_stem w
        = (Ok (Some {[ "title" := VStr (path_stem s);
                       "filepath" := VStr s;
                       "duration" := VInt 0;
                       "type" := VStr "unknown";
                       "added_by" := VStr "unknown";
                       "timestamp" := dict_get_default now_data "timestamp" (VInt 0) ]}),
           w').
Proof.
  intros Hn Hq Hc Hf Hs. open_world w. unfold get_now_playing. unfold_m. simpl.
  erewrite load_playlist_json by (simpl; done). rewrite Hf.
  unfold dict_get_default, dict_get. rewrite Hs. simpl. by eexists.
Qed.

(** X10: after [set_now_playing] of an entry of the queue that no earlier
    entry shares its filepath with, [get_now_playing] returns that entry
    with its full metadata. *)
Theorem now_playing_round_trip path_stem w before entry after fp now :
  playlist_json w = Some (Json (before ++ entry :: after)) →
  contended w PLAYLIST = false →
  entry !! "filepath" = Some fp → Forall (other_filepath fp) before →
  ∃ w1 w2, set_now_playing entry now w = (Ok tt, w1)
           ∧ get_now_playing path_stem w1 = (Ok (Some entry), w2).
Proof.
  intros Hq Hc Hfp Hb.
  destruct (set_now_playing_writes entry now w) as (w1 & Hset & Hn1 & Hq1 & Hc1).
  destruct (get_now_playing_found path_stem w1 _ (before ++ entry :: after) entry Hn1)
    as (w2 & Hget); [congruence|by rewrite Hc1| |by exists w1, w2].
  rewrite now_data_filepath. unfold dict_get. rewrite Hfp. simpl.
  by apply find_filepath_first.
Qed.

Lemma now_playing_round_trip_witness :
  let a := _generate_entry "a" "/m/a.mp4" 2 "upload" "u" "id-a" 100 in
  let b := _generate_entry "b" "/m/b.mp4" 2 "upload" "u" "id-b" 101 in
  ∃ w1 w2, set_now_playing b 200
             (World (Some (Json ([a] ++ b :: []))) None None (fun _ => false) [] [])
           = (Ok tt, w1)
           ∧ get_now_playing (fun s => s) w1 = (Ok (Some b), w2).
Proof.
  intros a b.
  apply (now_playing_round_trip (fun s => s) _ [a] b [] (VStr "/m/b.mp4")); try reflexivity.
  repeat constructor. eexists. split; [reflexivity|discriminate].
Defined.

(** X11: after [set_now_playing] of an entry whose filepath no entry of
    the queue has, [get_now_playing] returns the degraded record: the stem
    of the path as title, duration 0, type and author unknown, and the time
    at which it was set. *)
Theorem now_playing_degraded_record path_stem w q entry s now :
  playlist_json w = Some (Json q) → contended w PLAYLIST = false →
  entry !! "filepath" = Some (VStr s) → Forall (other_filepath (VStr s)) q →
  ∃ w1 w2, set_now_playing entry now w = (Ok tt, w1)
           ∧ get_now_playing path_stem w1
             = (Ok (Some {[ "title" := VStr (path_stem s);
                            "filepath" := VStr s;
                            "duration" := VInt 0;
                            "type" := VStr "unknown";
                            "added_by" := VStr "unknown";
                            "timestamp" := VInt now ]}), w2).
Proof.
  intros Hq Hc Hfp Hall.
  destruct (set_now_playing_writes entry now w) as (w1 & Hset & Hn1 & Hq1 & Hc1).
  destruct (get_now_playing_missing path_stem w1 _ q s Hn1)
    as (w2 & Hget); [congruence|by rewrite Hc1| | |].
  - rewrite now_data_filepath. unfold dict_get. rewrite Hfp. simpl.
    by apply find_filepath_none.
  - rewrite lookup_insert_ne by done. rewrite lookup_insert_eq.
    unfold dict_get. by rewrite Hfp.
  - exists w1, w2. split; [done|]. rewrite Hget. unfold dict_get_default.
    rewrite !lookup_insert_ne by done. by rewrite lookup_singleton_eq.
Qed.

Lemma now_playing_degraded_record_witness :
  let a := _generate_entry "a" "/m/a.mp4" 2 "upload" "u" "id-a" 100 in
  ∃ w1 w2, set_now_playing {[ "title" := VStr "Z"; "filepath" := VStr "/m/z.mp4" ]} 200
             (World (Some (Json [a])) None None (fun _ => false) [] []) = (Ok tt, w1)
           ∧ get_now_playing (fun s => s) w1
             = (Ok (Some {[ "title" := VStr "/m/z.mp4";
                            "filepath" := VStr "/m/z.mp4";
                            "duration" := VInt 0;
                            "type" := VStr "unknown";
                            "added_by" := VStr "unknown";
                            "timestamp" := VInt 200 ]}), w2).
Proof.
  intros a.
  apply (now_playing_degraded_record (fun s => s) _ [a]); try reflexivity.
  apply Forall_cons_2; [|apply Forall_nil_2].
  eexists. split; [reflexivity|discriminate].
Defined.

(** ** Writes while the lock is held elsewhere *)

Lemma save_playlist_contended data w :
  contended w PLAYLIST = true →
  ∃ w', save_playlist data w = (Ok tt, w')
        ∧ playlist_json w' = Some (Unparseable EmptyString)
        ∧ contended w' = contended w
        ∧ (ERROR, "Failed to save playlist") ∈ logged w'.
Proof.
  intros Hc. open_world w. unfold save_playlist, write_locked_json, locked_file.
  destruct pl as [c|]; step_m Hc.
  - eexists. split; [reflexivity|]. simpl. repeat split. set_solver.
  - eexists. split; [reflexivity|]. simpl. repeat split. set_solver.
Qed.

(** X12: when the lock on [playlist.json] cannot be taken within the
    timeout, [add_to_queue] still returns the new entry and raises nothing,
    but the entry is not stored and the document is left truncated to the
    empty text: [locked_file] opens the file for writing before it asks for
    the lock.  The failure shows only in the log. *)
Theorem add_to_queue_timeout_truncates_store
    title filepath duration source added_by uid now w :
  contended w PLAYLIST = true →
  ∃ w', add_to_queue title filepath duration source added_by uid now w
        = (Ok (_generate_entry title filepath duration source added_by uid now), w')
        ∧ playlist_json w' = Some (Unparseable EmptyString)
        ∧ (ERROR, "Failed to save playlist") ∈ logged w'.
Proof.
  intros Hc. unfold add_to_queue.
  assert (∃ q w0, load_playlist w = (Ok q, w0) ∧ contended w0 PLAYLIST = true)
    as (q & w0 & Hl & Hc0).
  { destruct (playlist_json w) as [c|] eqn:Hq.
    - rewrite (load_playlist_contended w c Hq Hc). by eexists _, _.
    - rewrite (load_playlist_absent w Hq). by eexists _, _. }
  destruct (save_playlist_contended
              (q ++ [_generate_entry title filepath duration source added_by uid now])
              w0 Hc0) as (w1 & Hs & Hp & _ & Hlog).
  unfold mbind, St_bind, bind. rewrite Hl, Hs. unfold_m. simpl.
  eexists. split; [reflexivity|]. simpl. split; [done|]. set_solver.
Qed.

Lemma add_to_queue_timeout_truncates_store_witness :
  ∃ w', add_to_queue "b" "/m/b.mp4" 2 "upload" "u" "id-b" 101
          (World (Some (Json [sample_video])) None None
                 (fun p => match p with PLAYLIST => true | _ => false end) [] [])
        = (Ok (_generate_entry "b" "/m/b.mp4" 2 "upload" "u" "id-b" 101), w')
        ∧ playlist_json w' = Some (Unparseable EmptyString)
        ∧ (ERROR, "Failed to save playlist") ∈ logged w'.
Proof. by apply add_to_queue_timeout_truncates_store. Defined.

(** ** The playback engine: dropped entries, retries and skips *)

Ltac step_w H1 H2 H3 := repeat (progress (unfold_m; simpl; rewrite ?H1, ?H2, ?H3)).

Lemma launches_extend evs lgs w :
  List.forallb (fun e => negb (is_launch e)) evs = true →
  launches (extend evs lgs w) = launches w.
Proof.
  intros H. unfold launches, extend. simpl. rewrite List.filter_app.
  assert (List.filter is_launch evs = []) as ->; [|by rewrite app_nil_r].
  induction evs as [|e evs IH]; [done|]. simpl in *.
  apply andb_true_iff in H as [He H]. destruct (is_launch e); [done|]. by apply IH.
Qed.

Lemma get_next_video_ok w video rest :
  playlist_json w = Some (Json (video :: rest)) → contended w PLAYLIST = false →
  ∃ w', get_next_video w = (Ok (Some video, Some rest), w')
        ∧ playlist_json w' = playlist_json w
        ∧ now_playing_txt w' = now_playing_txt w
        ∧ control_json w' = control_json w
        ∧ contended w' = contended w
        ∧ launches w' = launches w.
Proof.
  intros Hq Hc. open_world w. unfold get_next_video, FileLock. step_m Hc.
  eexists. split; [reflexivity|]. repeat split.
  unfold launches. simpl. rewrite !List.filter_app. simpl. by rewrite !app_nil_r.
Qed.

Lemma play_video_begin_unplayable media_exists launch_ok video updated now w :
  contended w PLAYLIST = false → unplayable media_exists video →
  ∃ w', play_video_begin media_exists launch_ok video updated now w = (Ok false, w')
        ∧ playlist_json w' = Some (Json updated)
        ∧ now_playing_txt w' = now_playing_txt w
        ∧ control_json w' = control_json w
        ∧ contended w' = contended w
        ∧ launches w' = launches w.
Proof.
  intros Hc Hu. open_world w. unfold play_video_begin, write_updated_playlist, FileLock.
  assert (lift (if negb (truthy (dict_get video "file_path")) then Ok true
                else match dict_get video "file_path" with
                     | VStr s => Ok (negb (media_exists s))
                     | _ => Raise TypeError
                     end) = (ret true : M bool)) as ->.
  { destruct Hu as [->|[->|(s & -> & Hs)]]; [done..|].
    simpl. rewrite Hs. by destruct (negb (s =? EmptyString)%string). }
  step_m Hc. eexists. split; [reflexivity|]. repeat split.
  unfold launches. simpl. rewrite !List.filter_app. simpl. by rewrite !app_nil_r.
Qed.

(** X13: [play_video] on an entry without a usable ["file_path"] (absent,
    empty, or naming no file) streams nothing: it launches no emitter, leaves
    [now_playing.txt] alone and writes the rest of the queue to the store,
    which drops the entry. *)
Theorem play_video_drops_unplayable_entry media_exists launch_ok video updated now w :
  contended w PLAYLIST = false → unplayable media_exists video →
  ∃ w', play_video_begin media_exists launch_ok video updated now w = (Ok false, w')
        ∧ playlist_json w' = Some (Json updated)
        ∧ now_playing_txt w' = now_playing_txt w
        ∧ launches w' = launches w.
Proof.
  intros Hc Hu.
  destruct (play_video_begin_unplayable media_exists launch_ok video updated now w Hc Hu)
    as (w' & H & Hq & Hn & _ & _ & Hl).
  by exists w'.
Qed.

Lemma play_video_drops_unplayable_entry_witness :
  ∃ w', play_video_begin (fun _ => false) true sample_video [] 100 sample_world
        = (Ok false, w')
        ∧ playlist_json w' = Some (Json [])
        ∧ now_playing_txt w' = now_playing_txt sample_world
        ∧ launches w' = launches sample_world.
Proof.
  apply play_video_drops_unplayable_entry; [reflexivity|].
  right. right. by exists "/movies/a.mp4".
Defined.

(** X14: an entry made by [_generate_entry] of [queue.py] carries its path
    under ["filepath"], and [play_video] reads ["file_path"]: when such an
    entry is at the front of the store, the engine fetches it and drops it
    from the store without launching the emitter, whatever the media files
    are. *)
Theorem engine_drops_queue_module_entries
    media_exists title filepath duration source added_by uid t now launch_ok rest w :
  playlist_json w
    = Some (Json (_generate_entry title filepath duration source added_by uid t :: rest)) →
  contended w PLAYLIST = false →
  ∃ w', engine_run media_exists [Fetch; Begin now launch_ok] (Idle, w) = Some (Idle, w')
        ∧ playlist_json w' = Some (Json rest)
        ∧ launches w' = launches w.
Proof.
  intros Hq Hc.
  destruct (get_next_video_ok w _ rest Hq Hc) as (w1 & Hget & Hq1 & _ & _ & Hc1 & Hl1).
  destruct (play_video_begin_unplayable media_exists launch_ok
              (_generate_entry title filepath duration source added_by uid t) rest now w1)
    as (w2 & Hbegin & Hq2 & _ & _ & _ & Hl2).
  { by rewrite Hc1. }
  { by left. }
  exists w2. split; [|split; [done|congruence]].
  simpl. rewrite Hget. rewrite bool_decide_eq_false_2.
  - simpl. by rewrite Hbegin.
  - intros Hempty. by apply (f_equal (fun m => m !! "id")) in Hempty.
Qed.

Lemma engine_drops_queue_module_entries_witness :
  ∃ w', engine_run (fun _ => true) [Fetch; Begin 200 true]
          (Idle, World (Some (Json [_generate_entry "a" "/m/a.mp4" 2 "upload" "u" "id-a" 100]))
                   None None (fun _ => false) [] [])
        = Some (Idle, w')
        ∧ playlist_json w' = Some (Json [])
        ∧ launches w' = launches (World (Some (Json [_generate_entry "a" "/m/a.mp4" 2 "upload" "u" "id-a" 100]))
                   None None (fun _ => false) [] []).
Proof.
  by apply (engine_drops_queue_module_entries (fun _ => true)
              "a" "/m/a.mp4" 2%Z "upload" "u" "id-a" 100%Z 200%Z true []).
Defined.

Lemma playable_lift media_exists video s :
  playable media_exists video s →
  dict_get video "file_path" = VStr s
  ∧ lift (if negb (truthy (dict_get video "file_path")) then Ok true
          else match dict_get video "file_path" with
               | VStr s => Ok (negb (media_exists s))
               | _ => Raise TypeError
               end) = (ret false : M bool)
  ∧ ∃ d, lift (match dict_get_default video "duration" (VInt 0) with
               | VInt d => Ok (if (0 <? d)%Z then d else 3600%Z)
               | _ => Raise TypeError
               end) = (ret d : M Z).
Proof.
  intros (Hfp & Hs & Hm & Hd). unfold dict_get, dict_get_default. rewrite Hfp. simpl.
  rewrite Hm. apply String.eqb_neq in Hs. rewrite Hs. simpl.
  split; [done|]. split; [done|].
  destruct Hd as [->|(d & ->)]; simpl; by eexists.
Qed.

Lemma play_video_begin_launch_fails media_exists video updated s now w :
  contended w NOW_PLAYING = false → playable media_exists video s →
  ∃ w', play_video_begin media_exists false video updated now w
        = (Raise FileNotFoundError, w')
        ∧ playlist_json w' = playlist_json w
        ∧ contended w' = contended w
        ∧ launches w' = launches w.
Proof.
  intros Hc Hp. destruct (playable_lift _ _ _ Hp) as (Hfp & Hm & d & Hd).
  destruct Hp as (Hfp' & _).
  destruct (update_now_playing_writes w video (VStr s) now Hfp' Hc)
    as (w1 & Hupd & _ & Hq1 & Hc1).
  assert (launches w1 = launches w) as Hl1.
  { revert Hupd. open_world w. unfold update_now_playing, FileLock, getitem.
    step_m Hc. rewrite Hfp'. simpl. intros [= <-].
    unfold launches. simpl. rewrite !List.filter_app. simpl. by rewrite !app_nil_r. }
  unfold play_video_begin. rewrite Hm, Hfp. clear Hm Hd.
  unfold mbind, St_bind, bind, mret, St_ret, ret. rewrite Hupd.
  unfold launch_ffmpeg. unfold_m. simpl. eexists. split; [reflexivity|].
  simpl. repeat split; done.
Qed.

Lemma play_video_begin_ok media_exists video updated s now w :
  contended w NOW_PLAYING = false → playable media_exists video s →
  ∃ w', play_video_begin media_exists true video updated now w = (Ok true, w')
        ∧ playlist_json w' = playlist_json w
        ∧ control_json w' = control_json w
        ∧ contended w' = contended w
        ∧ launches w' = launches w ++ [EvLaunch s].
Proof.
  intros Hc Hp. destruct (playable_lift _ _ _ Hp) as (Hfp & Hm & d & Hd).
  destruct Hp as (Hfp' & _).
  unfold play_video_begin. rewrite Hm, Hd, Hfp. clear Hm Hd.
  open_world w. unfold update_now_playing, launch_ffmpeg, FileLock, getitem.
  step_m Hc. rewrite Hfp'. step_m Hc. eexists. split; [reflexivity|].
  repeat split. unfold launches. simpl. rewrite !List.filter_app. simpl.
  by rewrite !app_nil_r.
Qed.

Lemma clear_then_write_ok updated w :
  contended w NOW_PLAYING = false → contended w PLAYLIST = false →
  ∃ w', (clear_now_playing;; write_updated_playlist updated) w = (Ok tt, w')
        ∧ playlist_json w' = Some (Json updated)
        ∧ now_playing_txt w' = Some (Unparseable EmptyString)
        ∧ control_json w' = control_json w
        ∧ contended w' = contended w
        ∧ launches w' = launches w.
Proof.
  intros Hn Hp. open_world w. unfold clear_now_playing, write_updated_playlist, FileLock.
  step_w Hn Hp Hp. eexists. split; [reflexivity|]. repeat split.
  unfold launches. simpl. rewrite !List.filter_app. simpl. by rewrite !app_nil_r.
Qed.

(** X15: when every launch of the emitter fails, the engine attempts a
    playable entry exactly [retry_limit] = 3 times: after the third failure
    no further attempt is possible, and giving up clears [now_playing.txt]
    and writes the rest of the queue to the store, the emitter never having
    been launched. *)
Theorem engine_gives_up_after_retry_limit media_exists video updated s n1 n2 n3 w :
  uncontended w → playable media_exists video s →
  ∃ w3 w', engine_run media_exists [Begin n1 false; Begin n2 false; Begin n3 false]
             (Loaded video updated 0, w) = Some (Loaded video updated retry_limit, w3)
           ∧ (∀ now ok, engine_step media_exists (Begin now ok)
                          (Loaded video updated retry_limit, w3) = None)
           ∧ engine_step media_exists GiveUp (Loaded video updated retry_limit, w3)
             = Some (Idle, w')
           ∧ playlist_json w' = Some (Json updated)
           ∧ now_playing_txt w' = Some (Unparseable EmptyString)
           ∧ launches w' = launches w.
Proof.
  intros Hc Hp.
  destruct (play_video_begin_launch_fails media_exists video updated s n1 w (Hc _) Hp)
    as (w1 & H1 & _ & Hc1 & Hl1).
  destruct (play_video_begin_launch_fails media_exists video updated s n2
              (add_log ERROR "Retry failed" w1)) as (w2 & H2 & _ & Hc2 & Hl2);
    [by simpl; rewrite Hc1|done|].
  destruct (play_video_begin_launch_fails media_exists video updated s n3
              (add_log ERROR "Retry failed" w2)) as (w3 & H3 & _ & Hc3 & Hl3);
    [by simpl; rewrite Hc2; simpl; rewrite Hc1|done|].
  assert (contended w3 = contended w) as Hc3'.
  { rewrite Hc3. simpl. rewrite Hc2. simpl. by rewrite Hc1. }
  destruct (clear_then_write_ok updated
              (add_log ERROR "Video failed after max retries. Skipping."
                 (add_log ERROR "Retry failed" w3)))
    as (w' & Hg & Hq & Hn & _ & _ & Hl); [by simpl; rewrite Hc3'..|].
  exists (add_log ERROR "Retry failed" w3), w'.
  split; [|split; [done|split; [|split; [done|split; [done|]]]]].
  - simpl. rewrite H1. simpl. rewrite H2. simpl. by rewrite H3.
  - simpl. by rewrite Hg.
  - rewrite Hl. unfold launches in *. simpl in *. congruence.
Qed.

Lemma engine_gives_up_after_retry_limit_witness :
  ∃ w3 w', engine_run (fun _ => true) [Begin 1 false; Begin 2 false; Begin 3 false]
             (Loaded sample_video [] 0, sample_world)
           = Some (Loaded sample_video [] retry_limit, w3)
           ∧ (∀ now ok, engine_step (fun _ => true) (Begin now ok)
                          (Loaded sample_video [] retry_limit, w3) = None)
           ∧ engine_step (fun _ => true) GiveUp (Loaded sample_video [] retry_limit, w3)
             = Some (Idle, w')
           ∧ playlist_json w' = Some (Json [])
           ∧ now_playing_txt w' = Some (Unparseable EmptyString)
           ∧ launches w' = launches sample_world.
Proof.
  apply (engine_gives_up_after_retry_limit (fun _ => true) sample_video []
           "/movies/a.mp4" 1%Z 2%Z 3%Z sample_world).
  - intros p. reflexivity.
  - split; [reflexivity|]. split; [discriminate|]. split; [reflexivity|].
    right. by exists 2%Z.
Defined.

(** X16: an entry appended while the engine streams is lost: the append
    puts it in the store, and the end of [play_video] overwrites the store
    with the rest of the queue as it was read before the stream began. *)
Theorem append_while_streaming_is_lost
    media_exists video rest s now title filepath duration source added_by uid t alive w :
  playlist_json w = Some (Json (video :: rest)) → uncontended w →
  playable media_exists video s →
  ∃ w3 w', engine_run media_exists
             [Fetch; Begin now true; Produce title filepath duration source added_by uid t]
             (Idle, w) = Some (Streaming video rest 0, w3)
           ∧ playlist_json w3
             = Some (Json (video :: rest
                           ++ [_generate_entry title filepath duration source added_by uid t]))
           ∧ engine_step media_exists (Finish alive) (Streaming video rest 0, w3)
             = Some (Idle, w')
           ∧ playlist_json w' = Some (Json rest).
Proof.
  intros Hq Hc Hp.
  destruct (get_next_video_ok w video rest Hq (Hc _)) as (w1 & Hget & Hq1 & _ & _ & Hc1 & _).
  destruct (play_video_begin_ok media_exists video rest s now w1)
    as (w2 & Hbegin & Hq2 & _ & Hc2 & _); [by rewrite Hc1|done|].
  destruct (add_to_queue_appends w2 (video :: rest) title filepath duration source
              added_by uid t) as (w3 & Hadd & Hq3 & Hc3 & _);
    [congruence|by rewrite Hc2, Hc1|].
  destruct (play_video_end_ok w3 alive rest) as (w' & Hend & Hq' & _).
  { intros p. by rewrite Hc3, Hc2, Hc1. }
  exists w3, w'. split; [|split; [done|split; [|done]]].
  - simpl. rewrite Hget. rewrite bool_decide_eq_false_2.
    + simpl. rewrite Hbegin. simpl. by rewrite Hadd.
    + intros ->. by destruct Hp as (? & _).
  - simpl. by rewrite Hend.
Qed.

Lemma append_while_streaming_is_lost_witness :
  ∃ w3 w', engine_run (fun _ => true)
             [Fetch; Begin 100 true; Produce "b" "/m/b.mp4" 2 "upload" "u" "id-b" 101]
             (Idle, sample_world) = Some (Streaming sample_video [] 0, w3)
           ∧ playlist_json w3
             = Some (Json (sample_video :: []
                           ++ [_generate_entry "b" "/m/b.mp4" 2 "upload" "u" "id-b" 101]))
           ∧ engine_step (fun _ => true) (Finish true) (Streaming sample_video [] 0, w3)
             = Some (Idle, w')
           ∧ playlist_json w' = Some (Json []).
Proof.
  apply (append_while_streaming_is_lost (fun _ => true) sample_video []
           "/movies/a.mp4" 100%Z "b" "/m/b.mp4" 2%Z "upload" "u" "id-b" 101%Z true
           sample_world).
  - reflexivity.
  - intros p. reflexivity.
  - split; [reflexivity|]. split; [discriminate|]. split; [reflexivity|].
    right. by exists 2%Z.
Defined.

Lemma should_skip_true data p w :
  control_json w = Some (Json data) → contended w CONTROL = false →
  assoc_get "skip" data = Some p → payload_truthy p = true →
  ∃ w', should_skip w = (Ok true, w')
        ∧ playlist_json w' = playlist_json w
        ∧ control_json w' = control_json w
        ∧ contended w' = contended w.
Proof.
  intros Hd Hc Hs Hp. open_world w. unfold should_skip, FileLock.
  step_m Hc. rewrite Hs, Hp. by eexists.
Qed.

Lemma reset_controls_ok w :
  contended w CONTROL = false →
  ∃ w', reset_controls w = (Ok tt, w')
        ∧ playlist_json w' = playlist_json w
        ∧ control_json w' = Some (Json [])
        ∧ contended w' = contended w.
Proof.
  intros Hc. open_world w. unfold reset_controls, FileLock. step_m Hc. by eexists.
Qed.

(** X17: a round of the streaming loop that finds a skip in [control.json]
    ends the stream: [reset_controls] replaces the control document by the
    empty object, so every other pending command is wiped with the skip,
    [now_playing.txt] is cleared and the rest of the queue is written to the
    store. *)
Theorem skip_during_stream_wipes_controls
    media_exists video updated retries alive data p w :
  uncontended w → control_json w = Some (Json data) →
  assoc_get "skip" data = Some p → payload_truthy p = true →
  ∃ w', engine_step media_exists (Tick alive) (Streaming video updated retries, w)
        = Some (Idle, w')
        ∧ control_json w' = Some (Json [])
        ∧ now_playing_txt w' = Some (Unparseable EmptyString)
        ∧ playlist_json w' = Some (Json updated).
Proof.
  intros Hc Hd Hs Hp.
  destruct (should_skip_true data p w Hd (Hc _) Hs Hp) as (w1 & Hskip & _ & _ & Hc1).
  destruct (reset_controls_ok (add_log INFO "Skip command received" w1))
    as (w2 & Hreset & _ & Hd2 & Hc2); [by simpl; rewrite Hc1|].
  set (stop := (if alive then emit EvTerminate;; log INFO "FFmpeg terminated" else ret tt)
               : M unit).
  assert (∃ w3, stop w2 = (Ok tt, w3) ∧ contended w3 = contended w2
                ∧ control_json w3 = control_json w2) as (w3 & Hstop & Hc3 & Hd3).
  { unfold stop. destruct alive; by eexists. }
  destruct (clear_then_write_ok updated w3) as (w' & Hend & Hq & Hn & Hd' & _ & _);
    [by rewrite Hc3, Hc2; simpl; rewrite Hc1..|].
  exists w'. split; [|split; [congruence|done]].
  simpl. unfold stream_tick, play_video_end. fold stop.
  unfold mbind, St_bind, bind, mret, St_ret, ret, log in *.
  rewrite Hskip. simpl in Hreset. rewrite Hreset. rewrite Hstop.
  destruct (clear_now_playing w3) as [[[]|e] w4]; simpl in *; by rewrite ?Hend.
Qed.

Lemma skip_during_stream_wipes_controls_witness :
  ∃ w', engine_step (fun _ => true) (Tick true)
          (Streaming sample_video [] 0,
           World (Some (Json [sample_video])) None
                 (Some (Json [("stop", Payload (Some "r1") (Some "u"));
                              ("skip", Payload (Some "r2") (Some "u"))]))
                 (fun _ => false) [] [])
        = Some (Idle, w')
        ∧ control_json w' = Some (Json [])
        ∧ now_playing_txt w' = Some (Unparseable EmptyString)
        ∧ playlist_json w' = Some (Json []).
Proof.
  apply (skip_during_stream_wipes_controls (fun _ => true) sample_video [] 0 true
           [("stop", Payload (Some "r1") (Some "u"));
            ("skip", Payload (Some "r2") (Some "u"))]
           (Payload (Some "r2") (Some "u"))).
  - intros p. reflexivity.
  - reflexivity.
  - reflexivity.
  - reflexivity.
Defined.

(** X18: [should_skip] never raises and never changes a document, and it
    answers yes only when the lock on [control.json] could be taken and the
    document parses and carries a non-empty ["skip"]; an absent, malformed
    or locked control file reads as no skip. *)
Theorem should_skip_total_and_read_only w :
  ∃ b w', should_skip w = (Ok b, w')
          ∧ playlist_json w' = playlist_json w
          ∧ now_playing_txt w' = now_playing_txt w
          ∧ control_json w' = control_json w
          ∧ (b = true →
             contended w CONTROL = false
             ∧ ∃ data p, control_json w = Some (Json data)
                         ∧ assoc_get "skip" data = Some p ∧ payload_truthy p = true).
Proof.
  destruct w as [pl np ct busy tr lg]. unfold should_skip, FileLock.
  destruct (busy CONTROL) eqn:Hc; step_m Hc.
  { eexists _, _. split; [reflexivity|]. by repeat split. }
  destruct ct as [[raw|data|u]|]; simpl.
  - eexists _, _. split; [reflexivity|]. by repeat split.
  - eexists _, _. split; [reflexivity|]. simpl. do 3 (split; [done|]).
    destruct (assoc_get "skip" data) as [p|] eqn:Hs; [|done].
    intros Hp. split; [done|]. by exists data, p.
  - eexists _, _. split; [reflexivity|]. by repeat split.
  - eexists _, _. split; [reflexivity|]. by repeat split.
Qed.

(** X19: an empty object at the front of the store blocks the engine:
    [play_loop] takes it for an empty playlist, so every round fetches it
    again, goes back to sleep and leaves the store as it is. *)
Theorem empty_front_entry_blocks_engine media_exists rest n w :
  playlist_json w = Some (Json (∅ :: rest)) → contended w PLAYLIST = false →
  ∃ w', engine_run media_exists (replicate n Fetch) (Idle, w) = Some (Idle, w')
        ∧ playlist_json w' = playlist_json w
        ∧ launches w' = launches w.
Proof.
  revert w. induction n as [|n IH]; intros w Hq Hc; [by exists w|].
  destruct (get_next_video_ok w ∅ rest Hq Hc) as (w1 & Hget & Hq1 & _ & _ & Hc1 & Hl1).
  destruct (IH (add_log INFO "Playlist empty. Sleeping 10s" w1)) as (w' & Hrun & Hq' & Hl');
    [by simpl; rewrite Hq1|by simpl; rewrite Hc1|].
  exists w'. simpl. rewrite Hget. rewrite bool_decide_eq_true_2 by done.
  split; [done|]. split; [by rewrite Hq'; simpl|].
  rewrite Hl'. unfold launches in *. simpl. done.
Qed.

Lemma empty_front_entry_blocks_engine_witness :
  ∃ w', engine_run (fun _ => true) (replicate 3 Fetch)
          (Idle, World (Some (Json [∅; sample_video])) None None (fun _ => false) [] [])
        = Some (Idle, w')
        ∧ playlist_json w'
          = playlist_json (World (Some (Json [∅; sample_video])) None None
                                 (fun _ => false) [] [])
        ∧ launches w'
          = launches (World (Some (Json [∅; sample_video])) None None
                            (fun _ => false) [] []).
Proof.
  by apply (empty_front_entry_blocks_engine (fun _ => true) [sample_video] 3).
Defined.

(** ** The control loop: ignored requests, replays and administration *)

(** X20: an item of the control document whose command is not one of the
    five valid ones, or whose request id is missing or empty, is never
    applied: the poll logs a warning and leaves the manager, the player and
    the documents as they were. *)
Theorem malformed_request_is_ignored {P} `{FFmpegPlayer P} now command pl
    (cm : ControlManager P) w :
  command ∉ VALID_COMMANDS ∨ p_id pl = None ∨ p_id pl = Some EmptyString →
  ∃ msg, process_command now command pl (cm, w) = (Ok tt, (cm, add_log WARNING msg w)).
Proof.
  intros Hbad. unfold process_command.
  destruct (decide (command ∈ VALID_COMMANDS)) as [Hv|Hv].
  - rewrite bool_decide_eq_true_2 by done. simpl.
    destruct Hbad as [?|[->| ->]]; [done|by eexists..].
  - rewrite bool_decide_eq_false_2 by done. simpl. by eexists.
Qed.

Lemma malformed_request_is_ignored_witness :
  ∃ msg, process_command 100 "rewind" (Payload (Some "r1") (Some "ada"))
           (sample_manager, sample_world)
         = (Ok tt, (sample_manager, add_log WARNING msg sample_world)).
Proof.
  apply (malformed_request_is_ignored 100 "rewind" (Payload (Some "r1") (Some "ada"))
           sample_manager sample_world).
  left. intros Hin. unfold VALID_COMMANDS in Hin.
  repeat (apply elem_of_cons in Hin as [Hin|Hin]; [discriminate|]).
  by apply elem_of_nil in Hin.
Defined.

(** X21: the memory of applied requests holds one id per command kind, so
    a request id that comes back after another id of the same kind is no
    duplicate: after the handler has run for the first id and for the second,
    a poll that observes the first id again runs the handler once more.  The
    runs are read off the handler's own log lines, for a player whose
    operations return normally and write no such line. *)
Theorem replayed_request_is_applied_again {P} `{FFmpegPlayer P} now command id1 id2 user
    (s : ControlManager P * world) :
  total (stop_stream (P := P)) → total (run_once (P := P)) →
  no_handler_lines (stop_stream (P := P)) → no_handler_lines (run_once (P := P)) →
  command ∈ VALID_COMMANDS → id1 ≠ EmptyString → id2 ≠ EmptyString → id1 ≠ id2 →
  last_request_ids s.1 !! command ≠ Some id1 →
  ∃ s2 s', polls now [[(command, Payload (Some id1) user)];
                      [(command, Payload (Some id2) user)]] s = (Ok tt, s2)
           ∧ handler_runs command (logged s2.2) = S (S (handler_runs command (logged s.2)))
           ∧ polls now [[(command, Payload (Some id1) user)]] s2 = (Ok tt, s')
           ∧ handler_runs command (logged s'.2) = S (handler_runs command (logged s2.2)).
Proof.
  intros Hstop Hrun Hss Hsr Hv Hne1 Hne2 Hne Hfresh.
  destruct (polls_counts Hstop Hrun Hss Hsr now
              [[(command, Payload (Some id1) user)];
               [(command, Payload (Some id2) user)]] s) as (s2 & Hs2 & Hids2 & Hr2).
  destruct (polls_counts Hstop Hrun Hss Hsr now
              [[(command, Payload (Some id1) user)]] s2) as (s' & Hs' & Hids' & Hr').
  exists s2, s'. split; [done|].
  cbn [foldl] in Hids2, Hids'.
  rewrite (dedup_step_fresh (ids_of s) command _ id1) in Hids2 by done.
  rewrite (dedup_step_fresh _ command (Payload (Some id2) user) id2) in Hids2;
    [|done|done|done|simpl; rewrite lookup_insert_eq; congruence].
  rewrite Hids2 in Hids'.
  rewrite (dedup_step_fresh _ command (Payload (Some id1) user) id1) in Hids';
    [|done|done|done|simpl; rewrite lookup_insert_eq; congruence].
  injection Hids2 as _ Ha2. injection Hids' as _ Ha'.
  specialize (Hr2 command). specialize (Hr' command).
  rewrite Ha' in Hr'. rewrite Ha2 in Hr2, Hr'. simpl in Hr2, Hr'.
  repeat rewrite kind_count_snoc in Hr2. repeat rewrite kind_count_snoc in Hr'.
  simpl in Hr2, Hr'.
  rewrite !bool_decide_eq_true_2 in Hr2 by done.
  rewrite !bool_decide_eq_true_2 in Hr' by done.
  split; [lia|]. split; [done|lia].
Qed.

Lemma replayed_request_is_applied_again_witness :
  ∃ s2 s', polls 100 [[("skip", Payload (Some "r1") (Some "ada"))];
                      [("skip", Payload (Some "r2") (Some "ada"))]]
             (sample_manager, sample_world) = (Ok tt, s2)
           ∧ handler_runs "skip" (logged s2.2)
             = S (S (handler_runs "skip" (logged (sample_manager, sample_world).2)))
           ∧ polls 100 [[("skip", Payload (Some "r1") (Some "ada"))]] s2 = (Ok tt, s')
           ∧ handler_runs "skip" (logged s'.2) = S (handler_runs "skip" (logged s2.2)).
Proof.
  apply (replayed_request_is_applied_again 100 "skip" "r1" "r2" (Some "ada")
           (sample_manager, sample_world)).
  - intros st. by eexists _, _.
  - intros st. by eexists _, _.
  - apply null_player_silent_stop.
  - apply null_player_silent_run.
  - do 2 apply list_elem_of_further. apply list_elem_of_here.
  - discriminate.
  - discriminate.
  - discriminate.
  - discriminate.
Defined.

Lemma pause_request_unpaused {P} `{FFmpegPlayer P} now request_id u
    (cm : ControlManager P) w :
  total (stop_stream (P := P)) →
  paused cm = false → request_id ≠ EmptyString →
  last_request_ids cm !! "pause" ≠ Some request_id →
  ∃ p' w', process_command now "pause" (Payload (Some request_id) u) (cm, w)
           = (Ok tt, (Build_ControlManager (<["pause" := request_id]> (last_request_ids cm))
                        p' true (running cm) (applied cm ++ [("pause", request_id)])
                        (calls cm ++ [StopStream]), w')).
Proof.
  intros Hstop Hp Hne Hfresh. apply String.eqb_neq in Hne.
  unfold process_command. rewrite bool_decide_eq_true_2 by apply list_elem_of_here.
  cbn [negb p_id p_user]. rewrite Hne.
  unfold mbind at 1. unfold St_bind, bind, _is_duplicate.
  rewrite bool_decide_eq_false_2 by done.
  unfold mbind, St_bind, bind, in_world, log, record_request. cbn [fst snd].
  unfold _apply_command. cbn [command_handlers String.eqb Ascii.eqb Bool.eqb].
  unfold _handle_pause, get_paused, set_paused, call_player, in_world, log.
  unfold mbind, St_bind, bind. cbn [paused player last_request_ids running applied calls].
  rewrite Hp.
  match goal with |- context [stop_stream ?st] =>
    destruct (Hstop st) as ([] & [p' w'] & Hs); rewrite Hs end.
  by eexists _, _.
Qed.

Lemma pause_request_paused {P} `{FFmpegPlayer P} now request_id u
    (cm : ControlManager P) w :
  paused cm = true → request_id ≠ EmptyString →
  last_request_ids cm !! "pause" ≠ Some request_id →
  ∃ w', process_command now "pause" (Payload (Some request_id) u) (cm, w)
        = (Ok tt, (Build_ControlManager (<["pause" := request_id]> (last_request_ids cm))
                     (player cm) true (running cm) (applied cm ++ [("pause", request_id)])
                     (calls cm), w')).
Proof.
  intros Hp Hne Hfresh. apply String.eqb_neq in Hne.
  unfold process_command. rewrite bool_decide_eq_true_2 by apply list_elem_of_here.
  cbn [negb p_id p_user]. rewrite Hne.
  unfold mbind at 1. unfold St_bind, bind, _is_duplicate.
  rewrite bool_decide_eq_false_2 by done.
  unfold mbind, St_bind, bind, in_world, log, record_request. cbn [fst snd].
  unfold _apply_command. cbn [command_handlers String.eqb Ascii.eqb Bool.eqb].
  unfold _handle_pause, get_paused, set_paused, call_player, in_world, log.
  unfold mbind, St_bind, bind. cbn [paused player last_request_ids running applied calls].
  rewrite Hp. by eexists.
Qed.

(** X22: two pause requests with different ids both pass the
    deduplication, but the second finds the manager already paused: the
    stream is stopped once. *)
Theorem pause_twice_stops_stream_once {P} `{FFmpegPlayer P} now id1 id2 u1 u2
    (cm : ControlManager P) w :
  total (stop_stream (P := P)) →
  paused cm = false → id1 ≠ EmptyString → id2 ≠ EmptyString → id1 ≠ id2 →
  last_request_ids cm !! "pause" ≠ Some id1 →
  ∃ cm' w', polls now [[("pause", Payload (Some id1) u1)];
                       [("pause", Payload (Some id2) u2)]] (cm, w) = (Ok tt, (cm', w'))
            ∧ paused cm' = true
            ∧ applied cm' = applied cm ++ [("pause", id1); ("pause", id2)]
            ∧ calls cm' = calls cm ++ [StopStream].
Proof.
  intros Hstop Hp Hne1 Hne2 Hne Hfresh.
  destruct (pause_request_unpaused now id1 u1 cm w Hstop Hp Hne1 Hfresh)
    as (p1 & w1 & H1).
  destruct (pause_request_paused now id2 u2
              (Build_ControlManager (<["pause" := id1]> (last_request_ids cm))
                 p1 true (running cm) (applied cm ++ [("pause", id1)])
                 (calls cm ++ [StopStream])) w1) as (w2 & H2); [done|done| |].
  { simpl. rewrite lookup_insert_eq. congruence. }
  cbn [polls process_commands].
  unfold mbind, St_bind, bind, mret, St_ret, ret, try_except.
  rewrite H1, H2. eexists _, _. split; [reflexivity|]. simpl.
  by rewrite <- app_assoc.
Qed.

Lemma pause_twice_stops_stream_once_witness :
  let cm := Build_ControlManager (∅ : gmap string string) tt false true [] [] in
  ∃ cm' w', polls 100 [[("pause", Payload (Some "r1") (Some "ada"))];
                       [("pause", Payload (Some "r2") (Some "bob"))]] (cm, sample_world)
            = (Ok tt, (cm', w'))
            ∧ paused cm' = true
            ∧ applied cm' = applied cm ++ [("pause", "r1"); ("pause", "r2")]
            ∧ calls cm' = calls cm ++ [StopStream].
Proof.
  intros cm.
  apply (pause_twice_stops_stream_once 100 "r1" "r2" (Some "ada") (Some "bob")
           cm sample_world).
  - intros st. by eexists _, _.
  - reflexivity.
  - discriminate.
  - discriminate.
  - discriminate.
  - discriminate.
Defined.

(** X23: a round of the control loop that cannot read a command document
    (the file is absent, malformed, or its lock is not released in time)
    applies nothing and never raises: the manager and the player are as
    before. *)
Theorem unreadable_control_file_applies_nothing {P} `{FFmpegPlayer P} now
    (cm : ControlManager P) w :
  (∀ d, control_json w = Some (Json d) → contended w CONTROL = true) →
  ∃ w', watch_round now (cm, w) = (Ok tt, (cm, w'))
        ∧ playlist_json w' = playlist_json w
        ∧ now_playing_txt w' = now_playing_txt w
        ∧ control_json w' = control_json w.
Proof.
  intros Hd. destruct w as [pl np ct busy tr lg]. simpl in Hd.
  unfold watch_round, _check_for_new_command, read_locked_json, locked_file, in_world.
  destruct ct as [[raw|d|u]|].
  - destruct (busy CONTROL) eqn:Hc; step_m Hc; by eexists.
  - pose proof (Hd d eq_refl) as Hc. step_m Hc. by eexists.
  - destruct (busy CONTROL) eqn:Hc; step_m Hc; by eexists.
  - repeat (progress (unfold_m; simpl)). by eexists.
Qed.

Lemma unreadable_control_file_applies_nothing_witness :
  let w := World (Some (Json [sample_video])) None (Some (Unparseable "{"))
                 (fun _ => false) [] [] in
  ∃ w', watch_round 100 (sample_manager, w) = (Ok tt, (sample_manager, w'))
        ∧ playlist_json w' = playlist_json w
        ∧ now_playing_txt w' = now_playing_txt w
        ∧ control_json w' = control_json w.
Proof.
  intros w. apply (unreadable_control_file_applies_nothing 100 sample_manager w).
  intros d Hd. discriminate Hd.
Defined.

(** X24: [reset_state] forgets the applied request ids: a request that is
    ignored as a duplicate, its handler not running, runs its handler once
    when the poll comes after [reset_state].  The runs are read off the
    handler's own log lines, for a player whose operations return normally
    and write no such line. *)
Theorem reset_state_forgets_requests {P} `{FFmpegPlayer P} now command pl request_id
    (cm : ControlManager P) w :
  total (stop_stream (P := P)) → total (run_once (P := P)) →
  no_handler_lines (stop_stream (P := P)) → no_handler_lines (run_once (P := P)) →
  command ∈ VALID_COMMANDS → p_id pl = Some request_id → request_id ≠ EmptyString →
  last_request_ids cm !! command = Some request_id →
  ∃ s1 s2, process_command now command pl (cm, w) = (Ok tt, s1)
           ∧ handler_runs command (logged s1.2) = handler_runs command (logged w)
           ∧ (reset_state;; process_command now command pl) (cm, w) = (Ok tt, s2)
           ∧ handler_runs command (logged s2.2) = S (handler_runs command (logged w))
           ∧ last_request_ids s2.1 !! command = Some request_id.
Proof.
  intros Hstop Hrun Hss Hsr Hv Hid Hne Hlast.
  destruct (process_command_counts Hstop Hrun Hss Hsr now command pl (cm, w))
    as (s1 & Hs1 & Hids1 & Hr1).
  destruct (process_command_counts Hstop Hrun Hss Hsr now command pl
              (Build_ControlManager ∅ (player cm) false (running cm)
                 (applied cm) (calls cm), w)) as (s2 & Hs2 & Hids2 & Hr2).
  exists s1, s2. split; [done|].
  rewrite (dedup_step_recorded _ command pl request_id) in Hids1 by done.
  rewrite (dedup_step_fresh _ command pl request_id) in Hids2 by done.
  injection Hids1 as _ Ha1. injection Hids2 as Hl2 Ha2.
  specialize (Hr1 command). specialize (Hr2 command).
  rewrite Ha1 in Hr1. rewrite Ha2 in Hr2. simpl in Hr1, Hr2.
  rewrite kind_count_snoc in Hr2. simpl in Hr2.
  rewrite bool_decide_eq_true_2 in Hr2 by done.
  split; [lia|]. split; [|split; [lia|]].
  - unfold mbind, St_bind, bind, reset_state. by rewrite Hs2.
  - rewrite Hl2. simpl. by rewrite lookup_insert_eq.
Qed.

Lemma reset_state_forgets_requests_witness :
  let cm := Build_ControlManager ({[ "stop" := "r1" ]} : gmap string string)
              tt false true [("stop", "r1")] [StopStream] in
  let pl := Payload (Some "r1") (Some "ada") in
  ∃ s1 s2, process_command 100 "stop" pl (cm, sample_world) = (Ok tt, s1)
           ∧ handler_runs "stop" (logged s1.2) = handler_runs "stop" (logged sample_world)
           ∧ (reset_state;; process_command 100 "stop" pl) (cm, sample_world) = (Ok tt, s2)
           ∧ handler_runs "stop" (logged s2.2)
             = S (handler_runs "stop" (logged sample_world))
           ∧ last_request_ids s2.1 !! "stop" = Some "r1".
Proof.
  intros cm pl.
  apply (reset_state_forgets_requests 100 "stop" pl "r1" cm sample_world).
  - intros st. by eexists _, _.
  - intros st. by eexists _, _.
  - apply null_player_silent_stop.
  - apply null_player_silent_run.
  - do 3 apply list_elem_of_further. apply list_elem_of_here.
  - reflexivity.
  - discriminate.
  - reflexivity.
Defined.

(** X25: [force_command] goes around the deduplication: whatever the
    command, the memory of applied request ids is left as it was, so a forced
    command makes no later request a duplicate; a command that is not valid
    is only logged. *)
Theorem force_command_keeps_request_memory {P} `{FFmpegPlayer P} command now
    (s : ControlManager P * world) :
  total (stop_stream (P := P)) → total (run_once (P := P)) →
  ∃ s', force_command command now s = (Ok tt, s')
        ∧ last_request_ids s'.1 = last_request_ids s.1
        ∧ (command ∉ VALID_COMMANDS →
           s' = (s.1, add_log ERROR "Invalid forced command" s.2)).
Proof.
  intros Hstop Hrun. unfold force_command.
  destruct (decide (command ∈ VALID_COMMANDS)) as [Hv|Hv].
  - rewrite bool_decide_eq_true_2 by done.
    destruct s as [cm w]. unfold mbind, St_bind, bind, in_world, log. simpl.
    destruct (steady_apply_command Hstop Hrun command "System" now
                (cm, add_log WARNING "Forcibly applying command" w))
      as ([] & s' & Hs' & Hids).
    exists s'. split; [done|]. split; [|done].
    by injection Hids.
  - rewrite bool_decide_eq_false_2 by done. destruct s as [cm w]. by eexists.
Qed.

Lemma force_command_keeps_request_memory_witness :
  ∃ s', force_command "stop" 100 (sample_manager, sample_world) = (Ok tt, s')
        ∧ last_request_ids s'.1 = last_request_ids (sample_manager, sample_world).1
        ∧ ("stop" ∉ VALID_COMMANDS →
           s' = ((sample_manager, sample_world).1,
                 add_log ERROR "Invalid forced command" (sample_manager, sample_world).2)).
Proof.
  apply (force_command_keeps_request_memory "stop" 100 (sample_manager, sample_world)).
  - intros st. by eexists _, _.
  - intros st. by eexists _, _.
Defined.

(** ** The front ends: what is shown and what is issued *)

Lemma reads_ok_reads {A} (m : M A) : reads_ok m → reads m.
Proof. intros Hm w. destruct (Hm w) as (a & evs & lgs & ->). by eexists _, _, _. Qed.

Lemma reads_ok_ret {A} (a : A) : reads_ok (mret a : M A).
Proof. intros w. exists a, [], []. by rewrite extend_nil. Qed.

Lemma reads_lift {A} (o : outcome A) : reads (lift o : M A).
Proof. intros w. exists o, [], []. by rewrite extend_nil. Qed.

Lemma reads_ok_log l msg : reads_ok (log l msg).
Proof.
  intros w. exists tt, [], [(l, msg)]. destruct w.
  unfold log, add_log, extend. simpl. by rewrite app_nil_r.
Qed.

Lemma reads_bind {A B} (m : M A) (k : A → M B) :
  reads m → (∀ a, reads (k a)) → reads (m ≫= k).
Proof.
  intros Hm Hk w. destruct (Hm w) as ([a|e] & evs & lgs & Hmw).
  - destruct (Hk a (extend evs lgs w)) as (r & evs' & lgs' & Hkw).
    exists r, (evs ++ evs'), (lgs ++ lgs').
    unfold mbind, St_bind, bind. by rewrite Hmw, Hkw, extend_extend.
  - exists (Raise e), evs, lgs. unfold mbind, St_bind, bind. by rewrite Hmw.
Qed.

Lemma reads_ok_bind {A B} (m : M A) (k : A → M B) :
  reads_ok m → (∀ a, reads_ok (k a)) → reads_ok (m ≫= k).
Proof.
  intros Hm Hk w. destruct (Hm w) as (a & evs & lgs & Hmw).
  destruct (Hk a (extend evs lgs w)) as (r & evs' & lgs' & Hkw).
  exists r, (evs ++ evs'), (lgs ++ lgs').
  unfold mbind, St_bind, bind. by rewrite Hmw, Hkw, extend_extend.
Qed.

Lemma reads_ok_try_except {A} (m : M A) (h : exn → M A) :
  reads m → (∀ e, reads_ok (h e)) → reads_ok (try_except m h).
Proof.
  intros Hm Hh w. destruct (Hm w) as ([a|e] & evs & lgs & Hmw).
  - exists a, evs, lgs. unfold try_except. by rewrite Hmw.
  - destruct (Hh e (extend evs lgs w)) as (r & evs' & lgs' & Hhw).
    exists r, (evs ++ evs'), (lgs ++ lgs').
    unfold try_except. by rewrite Hmw, Hhw, extend_extend.
Qed.

Lemma reads_ok_load_playlist : reads_ok load_playlist.
Proof. intros w. destruct (load_playlist_reads w) as (evs & lgs & Hl & _). eauto. Qed.

Lemma reads_ok_path_exists_np : reads_ok (path_exists NOW_PLAYING_PATH).
Proof. intros w. eexists _, [], []. by rewrite extend_nil. Qed.

Lemma reads_open_np : reads (open_file NOW_PLAYING_PATH ModeR).
Proof.
  intros w. unfold open_file. simpl.
  destruct (now_playing_txt w); eexists _, [], []; by rewrite extend_nil.
Qed.

Lemma reads_json_load_np : reads (json_load NOW_PLAYING_PATH).
Proof.
  intros w. destruct w as [pl np ct busy tr lg]. unfold json_load, add_event, extend. simpl.
  destruct np as [[raw|d|u]|]; eexists _, [_], []; simpl; by rewrite app_nil_r.
Qed.

Lemma reads_ok_ret' {A} (a : A) : reads_ok (ret a : M A).
Proof. apply reads_ok_ret. Qed.

Ltac reads_tac :=
  repeat match goal with
    | |- ∀ _, _ => intros
    | |- reads_ok (mret _) => apply reads_ok_ret
    | |- reads_ok (ret _) => apply reads_ok_ret'
    | |- reads_ok (log _ _) => apply reads_ok_log
    | |- reads_ok load_playlist => apply reads_ok_load_playlist
    | |- reads_ok (path_exists NOW_PLAYING_PATH) => apply reads_ok_path_exists_np
    | |- reads_ok (_ ≫= _) => apply reads_ok_bind
    | |- reads_ok (try_except _ _) => apply reads_ok_try_except
    | |- reads_ok (if ?b then _ else _) => destruct b
    | |- reads_ok (match ?x with _ => _ end) => destruct x
    | |- reads (lift _) => apply reads_lift
    | |- reads (open_file NOW_PLAYING_PATH ModeR) => apply reads_open_np
    | |- reads (json_load NOW_PLAYING_PATH) => apply reads_json_load_np
    | |- reads (_ ≫= _) => apply reads_bind
    | |- reads (if ?b then _ else _) => destruct b
    | |- reads (match ?x with _ => _ end) => destruct x
    | |- reads _ => apply reads_ok_reads
    end.

Lemma reads_ok_get_now_playing path_stem : reads_ok (get_now_playing path_stem).
Proof. unfold get_now_playing. reads_tac. Qed.

(** X26: [get_now_playing] never raises and writes no document, whatever
    the state of [now_playing.txt] and [playlist.json] (absent, malformed,
    locked, or an entry without a path): the world after it differs by
    events and log lines only. *)
Theorem get_now_playing_never_raises path_stem w :
  ∃ r evs lgs, get_now_playing path_stem w = (Ok r, extend evs lgs w).
Proof.
  revert w. change (reads_ok (get_now_playing path_stem)).
  unfold get_now_playing.
  apply reads_ok_bind; [apply reads_ok_path_exists_np|].
  intros [|]; cbn [negb]; [|apply reads_ok_ret'].
  apply reads_ok_try_except.
  - reads_tac.
  - intros e. reads_tac.
Qed.

Lemma bind_ok {A B} (m : M A) (k : A → M B) w a w1 :
  m w = (Ok a, w1) → (m ≫= k) w = k a w1.
Proof. intros Hm. unfold mbind, St_bind, bind. by rewrite Hm. Qed.

Lemma reads_build_control_embed path_stem : reads (build_control_embed path_stem).
Proof.
  unfold build_control_embed. apply reads_bind.
  - apply reads_ok_reads, reads_ok_get_now_playing.
  - reads_tac.
Qed.

Lemma reads_ok_post_control_panel path_stem env :
  reads_ok (post_control_panel path_stem env).
Proof.
  unfold post_control_panel. apply reads_ok_try_except; [|reads_tac].
  apply reads_bind; [apply reads_lift|]. intros [[]|]; [|reads_tac].
  apply reads_bind; [apply reads_lift|]. intros _.
  apply reads_bind; [apply reads_build_control_embed|]. intros _.
  reads_tac.
Qed.

Lemma write_control_ok data w :
  contended w CONTROL = false →
  ∃ w', write_locked_json CONTROL_FILE data w = (Ok tt, w')
        ∧ control_json w' = Some (Json data)
        ∧ playlist_json w' = playlist_json w
        ∧ now_playing_txt w' = now_playing_txt w
        ∧ contended w' = contended w.
Proof.
  intros Hc. open_world w. unfold write_locked_json, locked_file.
  destruct ct as [c|]; step_m Hc; by eexists.
Qed.

Lemma read_control_ok data w :
  control_json w = Some (Json data) → contended w CONTROL = false →
  read_locked_json CONTROL_FILE w = (Ok data, after_read w).
Proof.
  intros Hd Hc. open_world w. unfold read_locked_json, locked_file, after_read.
  step_m Hc. by rewrite <- ?app_assoc.
Qed.

(** X27: a command sent from Telegram by an authorized user replaces the
    whole control document by that one command, and the next round of the
    control loop runs the handler of its kind, once, and records its id:
    issuing and polling compose.  Commands of other kinds that were pending
    in the document are gone.  The runs are read off the handler's own log
    lines, for a player whose operations return normally and write no such
    line. *)
Theorem telegram_command_is_applied {P} `{FFmpegPlayer P}
    whitelist user_id username command uid reply now (cm : ControlManager P) w :
  total (stop_stream (P := P)) → total (run_once (P := P)) →
  no_handler_lines (stop_stream (P := P)) → no_handler_lines (run_once (P := P)) →
  is_authorized whitelist user_id = true →
  command ∈ VALID_COMMANDS → uid ≠ EmptyString →
  last_request_ids cm !! command ≠ Some uid →
  contended w CONTROL = false →
  ∃ user w1 s',
    handle_control_command whitelist user_id username command uid reply w = (reply, w1)
    ∧ control_json w1 = Some (Json [(command, Payload (Some uid) (Some user))])
    ∧ watch_round now (cm, w1) = (Ok tt, s')
    ∧ handler_runs command (logged s'.2) = S (handler_runs command (logged w1))
    ∧ (∀ other, other ≠ command →
         handler_runs other (logged s'.2) = handler_runs other (logged w1))
    ∧ last_request_ids s'.1 !! command = Some uid.
Proof.
  intros Hstop Hrun Hss Hsr Hauth Hv Hne Hfresh Hc.
  unfold handle_control_command. rewrite Hauth. cbn [negb].
  set (user := match username with
               | Some n => if String.eqb n EmptyString then pretty user_id else n
               | None => pretty user_id
               end).
  destruct (write_control_ok [(command, Payload (Some uid) (Some user))] w Hc)
    as (w0 & Hw & Hd0 & _ & _ & Hc0).
  set (w1 := add_log INFO "Control issued" w0).
  assert (control_json w1 = Some (Json [(command, Payload (Some uid) (Some user))])) as Hd1
    by done.
  assert (contended w1 CONTROL = false) as Hc1 by (simpl; by rewrite Hc0).
  destruct (process_commands_counts Hstop Hrun Hss Hsr now
              [(command, Payload (Some uid) (Some user))] (cm, after_read w1))
    as (s' & Hs' & Hids & Hr).
  assert (∀ c, handler_runs c (logged (after_read w1)) = handler_runs c (logged w1)) as Hread.
  { intros c. apply handler_runs_extend. by repeat constructor. }
  cbn [foldl] in Hids.
  rewrite (dedup_step_fresh _ command _ uid) in Hids by done.
  injection Hids as Hl Ha.
  exists user, w1, s'. split; [|split; [done|]].
  - unfold send_control_signal, mbind, St_bind, bind, log, lift. rewrite Hw.
    by destruct reply.
  - unfold watch_round, try_except.
    rewrite (check_for_new_command_reads now cm w1 _ Hd1 Hc1).
    unfold after_read in Hs'. rewrite Hs'. split; [done|].
    split; [|split].
    + specialize (Hr command). rewrite Ha in Hr. cbn [fst snd applied] in Hr.
      rewrite kind_count_snoc, Hread in Hr. cbn [fst] in Hr.
      rewrite bool_decide_eq_true_2 in Hr by done. lia.
    + intros other Hother. specialize (Hr other). rewrite Ha in Hr.
      cbn [fst snd applied] in Hr. rewrite kind_count_snoc, Hread in Hr. cbn [fst] in Hr.
      rewrite bool_decide_eq_false_2 in Hr by congruence. lia.
    + rewrite Hl. simpl. by rewrite lookup_insert_eq.
Qed.

Lemma telegram_command_is_applied_witness :
  ∃ user w1 s',
    handle_control_command ["42"] 42 (Some "ada") "stop" "r1" (Ok tt) skip_world
    = (Ok tt, w1)
    ∧ control_json w1 = Some (Json [("stop", Payload (Some "r1") (Some user))])
    ∧ watch_round 100 (sample_manager, w1) = (Ok tt, s')
    ∧ handler_runs "stop" (logged s'.2) = S (handler_runs "stop" (logged w1))
    ∧ (∀ other, other ≠ "stop" →
         handler_runs other (logged s'.2) = handler_runs other (logged w1))
    ∧ last_request_ids s'.1 !! "stop" = Some "r1".
Proof.
  apply (telegram_command_is_applied ["42"] 42%Z (Some "ada") "stop" "r1" (Ok tt) 100%Z
           sample_manager skip_world).
  - intros st. by eexists _, _.
  - intros st. by eexists _, _.
  - apply null_player_silent_stop.
  - apply null_player_silent_run.
  - vm_compute. reflexivity.
  - do 3 apply list_elem_of_further. apply list_elem_of_here.
  - discriminate.
  - discriminate.
  - reflexivity.
Defined.

Lemma assoc_get_set_other {V} k k' (v : V) d :
  k' ≠ k → assoc_get k' (assoc_set k v d) = assoc_get k' d.
Proof.
  intros Hne. induction d as [|[k0 v0] d IH]; simpl.
  - by apply String.eqb_neq in Hne as ->.
  - destruct (String.eqb_spec k k0) as [->|Hk]; simpl.
    + by apply String.eqb_neq in Hne as ->.
    + destruct (String.eqb k' k0); [done|apply IH].
Qed.

Lemma button_command command :
  command ∈ CONTROL_BUTTONS →
  String.eqb ("moviebot:" +:+ command) EmptyString = false
  ∧ String.prefix "moviebot:" ("moviebot:" +:+ command) = true
  ∧ split_colon ("moviebot:" +:+ command) !! 1%nat = Some command.
Proof.
  unfold CONTROL_BUTTONS. intros Hin.
  repeat (apply elem_of_cons in Hin as [->|Hin]; [by vm_compute|]).
  by apply elem_of_nil in Hin.
Qed.

(** X28: a press of a Discord control button sets the command of its own
    kind in the control document and keeps the pending commands of every
    other kind, whatever the Discord client does afterwards; no other
    document is written. *)
Theorem discord_button_keeps_other_commands
    path_stem env command user uid data w :
  command ∈ CONTROL_BUTTONS →
  control_json w = Some (Json data) → contended w CONTROL = false →
  ∃ r w' data',
    on_interaction path_stem env (Some ("moviebot:" +:+ command)) user uid w = (r, w')
    ∧ control_json w' = Some (Json data')
    ∧ assoc_get command data' = Some (Payload (Some uid) (Some user))
    ∧ (∀ other, other ≠ command → assoc_get other data' = assoc_get other data)
    ∧ playlist_json w' = playlist_json w
    ∧ now_playing_txt w' = now_playing_txt w.
Proof.
  intros Hin Hd Hc. unfold on_interaction.
  destruct (button_command command Hin) as (-> & -> & ->). cbn [orb negb].
  rewrite bool_decide_eq_true_2 by done. cbn [negb].
  set (data' := assoc_set command (Payload (Some uid) (Some user)) data).
  destruct (write_control_ok data' (after_read w)) as (w1 & Hw & Hd1 & Hq1 & Hn1 & _);
    [done|].
  set (w2 := add_log INFO "issued command" w1).
  assert (∃ r w', (lift (send_message env);; post_control_panel path_stem env) w2 = (r, w')
                  ∧ control_json w' = control_json w2
                  ∧ playlist_json w' = playlist_json w2
                  ∧ now_playing_txt w' = now_playing_txt w2)
    as (r & w3 & Hrest & Hd3 & Hq3 & Hn3).
  { unfold mbind, St_bind, bind, lift. destruct (send_message env) as [[]|e].
    - destruct (reads_ok_post_control_panel path_stem env w2) as ([] & evs & lgs & ->).
      by eexists _, _.
    - by eexists _, _. }
  assert (∃ r' w', try_except
            (data ← read_locked_json CONTROL_FILE;
             write_locked_json CONTROL_FILE
               (assoc_set command (Payload (Some uid) (Some user)) data);;
             log INFO "issued command";;
             lift (send_message env);;
             post_control_panel path_stem env)
            (fun e => log ERROR "Failed to process interaction";;
                      lift (send_message env)) w = (r', w')
          ∧ control_json w' = control_json w3
          ∧ playlist_json w' = playlist_json w3
          ∧ now_playing_txt w' = now_playing_txt w3)
    as (r' & w' & Hall & Hd' & Hq' & Hn').
  { unfold try_except.
    erewrite bind_ok; [|by apply read_control_ok].
    erewrite bind_ok; [|exact Hw].
    erewrite bind_ok; [|reflexivity].
    change (add_log INFO "issued command" w1) with w2. rewrite Hrest.
    destruct r as [[]|e]; [by eexists _, _|].
    unfold mbind, St_bind, bind, log, lift. eexists _, _. split; [reflexivity|done]. }
  exists r', w', data'. split; [done|].
  split; [by rewrite Hd', Hd3|].
  split; [apply assoc_get_set|].
  split; [intros other Hne; by apply assoc_get_set_other|].
  split; [by rewrite Hq', Hq3; simpl; rewrite Hq1|by rewrite Hn', Hn3; simpl; rewrite Hn1].
Qed.

Lemma discord_button_keeps_other_commands_witness :
  ∃ r w' data',
    on_interaction (fun s => s) (DiscordEnv (Ok (Some tt)) (Ok tt) (Ok tt) (Ok tt))
      (Some ("moviebot:" +:+ "pause")) "bob" "r9" skip_world = (r, w')
    ∧ control_json w' = Some (Json data')
    ∧ assoc_get "pause" data' = Some (Payload (Some "r9") (Some "bob"))
    ∧ (∀ other, other ≠ "pause"
         → assoc_get other data'
           = assoc_get other [("skip", Payload (Some "r1") (Some "ada"))])
    ∧ playlist_json w' = playlist_json skip_world
    ∧ now_playing_txt w' = now_playing_txt skip_world.
Proof.
  apply (discord_button_keeps_other_commands (fun s => s)
           (DiscordEnv (Ok (Some tt)) (Ok tt) (Ok tt) (Ok tt))
           "pause" "bob" "r9" [("skip", Payload (Some "r1") (Some "ada"))] skip_world).
  - apply list_elem_of_here.
  - reflexivity.
  - reflexivity.
Defined.

(** ** The supervisor: manual restart *)

(** X30: [manual_restart] of a registered worker whose thread is dead
    starts it again without touching its restart counter and without
    counting as a restart by the monitor: a worker the monitor has given up
    can be revived by hand, and stays given up by the monitor. *)
Theorem manual_restart_revives_without_counting name s :
  name ∈ thread_targets s → is_alive name s = false →
  ∃ s', manual_restart name s = (Ok tt, s')
        ∧ is_alive name s' = true
        ∧ counter name s' = counter name s
        ∧ sv_log s' = sv_log s ++ [SvStarted name].
Proof.
  intros Hin Halive. unfold manual_restart, mbind, St_bind, bind.
  rewrite bool_decide_eq_true_2 by done. cbn [negb].
  unfold start_thread. rewrite Halive. eexists. split; [reflexivity|].
  split; [|split; [|done]].
  - unfold is_alive. simpl. by rewrite assoc_get_set.
  - unfold counter. simpl. destruct (restart_counters s !! name) eqn:Hc.
    + by rewrite Hc.
    + by rewrite lookup_insert_eq.
Qed.

Lemma manual_restart_revives_without_counting_witness :
  let s := Supervisor [("Player", false)] {["Player"]} {["Player" := 5%nat]}
             [SvMaxReached "Player"] in
  ∃ s', manual_restart "Player" s = (Ok tt, s')
        ∧ is_alive "Player" s' = true
        ∧ counter "Player" s' = counter "Player" s
        ∧ sv_log s' = sv_log s ++ [SvStarted "Player"].
Proof.
  intros s. apply (manual_restart_revives_without_counting "Player" s).
  - change ("Player" ∈ ({["Player"]} : gset string)). by apply elem_of_singleton_2.
  - reflexivity.
Defined.

(** ** The control loop: skip, with the player of the spec *)

Lemma process_commands_app {P} `{FFmpegPlayer P} now d1 d2 (s : ControlManager P * world) :
  process_commands now (d1 ++ d2) s
  = (process_commands now d1;; process_commands now d2) s.
Proof.
  revert s. induction d1 as [|[command pl] d1 IH]; intros s; simpl; [done|].
  unfold mbind, St_bind, bind in *.
  destruct (process_command now command pl s) as [[[]|e] s1]; [|done]. apply IH.
Qed.

Lemma spec_stop_stream_ok handle w :
  uncontended w →
  ∃ w' evs lgs, spec_stop_stream (handle, w) = (Ok tt, (None, w'))
    ∧ playlist_json w' = playlist_json w
    ∧ contended w' = contended w
    ∧ trace w' = trace w ++ evs
    ∧ logged w' = logged w ++ lgs
    ∧ List.filter is_launch evs = []
    ∧ (is_Some handle → EvTerminate ∈ evs)
    ∧ Forall (fun line => handler_of_line line = None) lgs.
Proof.
  intros Hc. pose proof (Hc NOW_PLAYING) as Hn.
  destruct w as [pl np ct busy tr lg]. simpl in Hn. unfold spec_stop_stream.
  destruct handle as [e|].
  - unfold clear_now_playing, FileLock. step_m Hn.
    eexists _, _, _. split; [reflexivity|]. simpl.
    split; [done|]. split; [done|].
    split; [by rewrite <- !app_assoc|]. split; [reflexivity|].
    split; [reflexivity|]. split; [intros _; apply list_elem_of_here|by repeat constructor].
  - exists (World pl np ct busy tr lg), [], []. simpl. rewrite !app_nil_r.
    split; [done|]. split; [done|]. split; [done|]. split; [done|]. split; [done|].
    split; [done|]. split; [by intros [? ?]|constructor].
Qed.

Lemma set_now_playing_effect entry now w :
  ∃ w' evs lgs, set_now_playing entry now w = (Ok tt, w')
    ∧ playlist_json w' = playlist_json w
    ∧ contended w' = contended w
    ∧ trace w' = trace w ++ evs
    ∧ logged w' = logged w ++ lgs
    ∧ List.filter is_launch evs = []
    ∧ (EvTerminate ∉ evs)
    ∧ Forall (fun line => handler_of_line line = None) lgs.
Proof.
  destruct w as [pl np ct busy tr lg]. unfold set_now_playing, getitem. unfold_m. simpl.
  destruct (entry !! "title"); eexists _, _, _; (split; [reflexivity|]); simpl;
    (split; [done|]); (split; [done|]); (split; [by rewrite <- ?app_assoc|]);
    (split; [done|]); (split; [reflexivity|]);
    (split; [|by repeat constructor]);
    intros Hin; repeat (apply elem_of_cons in Hin as [Hin|Hin]; [discriminate|]);
    by apply elem_of_nil in Hin.
Qed.

Lemma remove_current_effect w e q :
  playlist_json w = Some (Json (e :: q)) → contended w PLAYLIST = false →
  is_Some (e !! "title") →
  ∃ w' lgs, remove_current w = (Ok (Some e), w')
    ∧ playlist_json w' = Some (Json q)
    ∧ contended w' = contended w
    ∧ trace w' = trace w ++ read_hold ++ write_hold
    ∧ logged w' = logged w ++ lgs
    ∧ Forall (fun line => handler_of_line line = None) lgs.
Proof.
  intros Hq Hc [t Ht]. eexists _, _. split.
  - unfold remove_current. unfold_m. rewrite (load_playlist_json _ _ Hq Hc).
    erewrite save_playlist_ok; [|exact Hq|exact Hc].
    unfold getitem. rewrite Ht. reflexivity.
  - simpl. split; [done|]. split; [done|]. split; [by rewrite <- app_assoc|].
    split; [by rewrite <- !app_assoc|]. by repeat constructor.
Qed.

Lemma spec_run_once_ok now handle w video rest :
  uncontended w → playlist_json w = Some (Json (video :: rest)) →
  is_Some (video !! "title") →
  ∃ w' evs lgs, spec_run_once now (handle, w) = (Ok tt, (Some video, w'))
    ∧ playlist_json w' = Some (Json rest)
    ∧ contended w' = contended w
    ∧ trace w' = trace w ++ evs
    ∧ logged w' = logged w ++ lgs
    ∧ List.filter is_launch evs = [EvLaunch (format_value (dict_get video "filepath"))]
    ∧ Forall (fun line => handler_of_line line = None) lgs.
Proof.
  intros Hc Hq Ht.
  destruct (remove_current_effect w video rest Hq (Hc _) Ht)
    as (w1 & lgs1 & Hpop & Hq1 & Hc1 & Ht1 & Hl1 & Hn1).
  destruct (set_now_playing_effect video now
              (add_event (EvLaunch (format_value (dict_get video "filepath"))) w1))
    as (w2 & evs2 & lgs2 & Hset & Hq2 & Hc2 & Ht2 & Hl2 & Hf2 & _ & Hn2).
  exists w2, (read_hold ++ write_hold
              ++ [EvLaunch (format_value (dict_get video "filepath"))] ++ evs2),
    (lgs1 ++ lgs2).
  split.
  - unfold spec_run_once. rewrite Hpop. unfold mbind, St_bind, bind, emit.
    by rewrite Hset.
  - split; [by rewrite Hq2|]. split; [by rewrite Hc2|].
    split; [rewrite Ht2; simpl; rewrite Ht1; by rewrite <- !app_assoc|].
    split; [rewrite Hl2; simpl; rewrite Hl1; by rewrite <- !app_assoc|].
    split; [|by apply Forall_app].
    rewrite !List.filter_app, Hf2. reflexivity.
Qed.

(** The skip handler on the player of the spec, in a state whose queue is
    not empty. *)
Lemma spec_handle_skip t user now (cm : ControlManager (option (gmap string value)))
    w video rest :
  uncontended w → playlist_json w = Some (Json (video :: rest)) →
  video ≠ ∅ → is_Some (video !! "title") →
  ∃ cm' w' evs,
    _handle_skip (H := spec_player t) user now (cm, w) = (Ok tt, (cm', w'))
    ∧ paused cm' = false
    ∧ last_request_ids cm' = last_request_ids cm
    ∧ calls cm' = calls cm ++ [StopStream; RunOnce]
    ∧ player cm' = Some video
    ∧ playlist_json w' = Some (Json rest)
    ∧ contended w' = contended w
    ∧ trace w' = trace w ++ evs
    ∧ List.filter is_launch evs = [EvLaunch (format_value (dict_get video "filepath"))]
    ∧ (is_Some (player cm) → EvTerminate ∈ evs)
    ∧ handler_runs "skip" (logged w') = S (handler_runs "skip" (logged w)).
Proof.
  intros Hc Hq Hne Ht.
  set (w0 := add_log INFO "Skip command issued" w).
  assert (uncontended w0) as Hc0 by (intros p; apply Hc).
  destruct (spec_stop_stream_ok (player cm) w0 Hc0)
    as (w1 & evs1 & lgs1 & Hstop & Hq1 & Hc1 & Ht1 & Hl1 & Hf1 & Hterm & Hn1).
  assert (uncontended w1) as Hu1 by (intros p; rewrite Hc1; apply Hc0).
  assert (playlist_json w1 = Some (Json (video :: rest))) as Hq1' by (by rewrite Hq1).
  pose proof (load_playlist_json w1 _ Hq1' (Hu1 _)) as Hload.
  set (w2 := extend read_hold [(DEBUG, "Lock acquired"); (DEBUG, "Lock released")] w1)
    in Hload.
  set (w3 := add_log INFO "Next video queued" w2).
  destruct (set_now_playing_effect video now w3)
    as (w4 & evs4 & lgs4 & Hset & Hq4 & Hc4 & Ht4 & Hl4 & Hf4 & _ & Hn4).
  assert (uncontended w4) as Hu4 by (intros p; rewrite Hc4; apply Hu1).
  assert (playlist_json w4 = Some (Json (video :: rest))) as Hq4' by (by rewrite Hq4).
  destruct (spec_run_once_ok t None w4 video rest Hu4 Hq4' Ht)
    as (w5 & evs5 & lgs5 & Hrun & Hq5 & Hc5 & Ht5 & Hl5 & Hf5 & Hn5).
  eexists _, w5, (evs1 ++ read_hold ++ evs4 ++ evs5). split.
  - unfold _handle_skip, mbind, St_bind, bind, in_world, set_paused, call_player, log.
    cbn [stop_stream run_once spec_player player last_request_ids paused running
         applied calls].
    fold w0. rewrite Hstop.
    unfold get_next_item, mbind, St_bind, bind, ret. rewrite Hload. cbn [head].
    rewrite bool_decide_eq_false_2 by done.
    fold w3. rewrite Hset.
    cbn [stop_stream run_once spec_player player last_request_ids paused running
         applied calls].
    rewrite Hrun. reflexivity.
  - subst w3 w2 w0. simpl in Hc1, Ht1, Hl1, Hc4, Ht4, Hl4.
    cbn [paused last_request_ids calls player].
    split; [done|]. split; [done|]. split; [by rewrite <- app_assoc|]. split; [done|].
    split; [done|]. split; [by rewrite Hc5, Hc4, Hc1|].
    split; [rewrite Ht5, Ht4, Ht1; by rewrite <- !app_assoc|].
    split; [rewrite !List.filter_app, Hf1, Hf4, Hf5; reflexivity|].
    split; [intros Hs; apply elem_of_app; left; by apply Hterm|].
    rewrite Hl5, Hl4, Hl1.
    rewrite !handler_runs_app.
    rewrite (handler_runs_none _ _ Hn1), (handler_runs_none _ _ Hn4),
      (handler_runs_none _ _ Hn5).
    unfold handler_runs at 2 3 4. simpl. lia.
Qed.


